(** * goldbug: classical ciphers, a shallow embedding

    The development follows [goldbug/cipher.py] and [goldbug/util.py].

    Conventions of the embedding.
    - A Python string is a [list ascii]: a sequence of 8-bit characters.
      [lower], [upper] and [isupper] act on the ASCII letters only, as
      [str.lower], [str.upper] and [str.isupper] do on ASCII text.
      Characters beyond ASCII with a case of their own are left out of
      these strings; where the substitution ciphers meet one, the text is a
      list of code points ([substitute_code]).
    - A [dict] is a [gmap]; [dict(pairs)] inserts the pairs from left to
      right, so that a later pair overrides an earlier one with the same key.
    - An exception is a value of [exn]; code that can raise returns a
      [result]. *)

From Stdlib Require Import ZArith List Ascii String Lia Znumtheory.
From Stdlib Require Import Floats.SpecFloat QArith Qround Qcanon.
From stdpp Require Import gmap strings list fin_maps sorting.
Import ListNotations.

Local Open Scope Z_scope.

(** ** Python values *)

Abbreviation str := (list ascii).

Definition py (s : string) : str := list_ascii_of_string s.

Definition ord (c : ascii) : Z := Z.of_N (N_of_ascii c).
Definition chr (z : Z) : ascii := ascii_of_N (Z.to_N z).

Definition isupper (c : ascii) : bool := (65 <=? ord c) && (ord c <=? 90).
Definition islower (c : ascii) : bool := (97 <=? ord c) && (ord c <=? 122).
Definition lower (c : ascii) : ascii := if isupper c then chr (ord c + 32) else c.
Definition upper (c : ascii) : ascii := if islower c then chr (ord c - 32) else c.

(** [string.ascii_lowercase] *)
Definition ascii_lowercase : str := py "abcdefghijklmnopqrstuvwxyz".

(** The exceptions raised by the code. [StopIteration] is the one that
    [next] raises on an exhausted generator. *)
Inductive exn : Type :=
| ValueError (msg : string)
| KeyError
| IndexError
| StopIteration
| RuntimeError.

Inductive result (A : Type) : Type :=
| Ok (a : A)
| Raise (e : exn).
Arguments Ok {A} a.
Arguments Raise {A} e.

#[global] Instance result_ret : MRet result := λ A a, Ok a.
#[global] Instance result_bind : MBind result := λ A B k r,
  match r with
  | Ok a => k a
  | Raise e => Raise e
  end.

Definition is_Ok {A} (r : result A) : Prop := ∃ a, r = Ok a.
Definition is_Raise {A} (r : result A) : Prop := ∃ e, r = Raise e.

(** [dict(pairs)]: the pairs are inserted in order. *)
Definition dict {K V} `{Countable K} (pairs : list (K * V)) : gmap K V :=
  foldl (λ m kv, <[kv.1 := kv.2]> m) ∅ pairs.

(** [for c in s: if c not in m: m.append(c)] *)
Fixpoint append_new (m : str) (s : str) : str :=
  match s with
  | [] => m
  | c :: s' => if decide (c ∈ m) then append_new m s'
               else append_new (m ++ [c]) s'
  end.

(** [s.index(c)]: position of the first occurrence, [ValueError] if none. *)
Fixpoint index_from (c : ascii) (s : str) (i : Z) : result Z :=
  match s with
  | [] => Raise (ValueError "substring not found")
  | d :: s' => if decide (d = c) then Ok i else index_from c s' (i + 1)
  end.
Definition index (s : str) (c : ascii) : result Z := index_from c s 0.

(** [s[i]] for a non-negative or negative index. *)
Definition getitem {A} (s : list A) (i : Z) : result A :=
  let n := Z.of_nat (length s) in
  let j := if i <? 0 then i + n else i in
  if (j <? 0) || (n <=? j) then Raise IndexError
  else match s !! Z.to_nat j with
       | Some c => Ok c
       | None => Raise IndexError
       end.

(** ** Monoalphabetic substitution (cipher.py, class
    [MonoalphabeticSubstitutionCipher]) *)

Record MonoalphabeticSubstitutionCipher := {
  encrypt_mapping : gmap ascii ascii;
  decrypt_mapping : gmap ascii ascii
}.

(** [(type(text).lower, type(text).upper)[c.isupper()](mapping.get(c.lower(), c))] *)
Definition substitute (mapping : gmap ascii ascii) (c : ascii) : ascii :=
  let v := default c (mapping !! lower c) in
  if isupper c then upper v else lower v.

Definition mono_encrypt (C : MonoalphabeticSubstitutionCipher) (text : str) : str :=
  map (substitute (encrypt_mapping C)) text.

Definition mono_decrypt (C : MonoalphabeticSubstitutionCipher) (text : str) : str :=
  map (substitute (decrypt_mapping C)) text.

(** *** Characters beyond ASCII

    [str.isupper], [str.lower] and [str.upper] of Python 3 on a single
    character, given by its code point, for the ASCII characters and for the
    three forms of the letter dž: U+01C4 (452, uppercase), U+01C5 (453,
    titlecase) and U+01C6 (454, lowercase). The titlecase form is cased
    without being uppercase: [isupper] is false for it and [lower] changes
    it. Other code points are outside this model (they are left as they
    are). *)
Definition code_isupper (z : Z) : bool :=
  ((65 <=? z) && (z <=? 90)) || (z =? 452).

Definition code_lower (z : Z) : Z :=
  if (65 <=? z) && (z <=? 90) then z + 32
  else if (z =? 452) || (z =? 453) then 454
  else z.

Definition code_upper (z : Z) : Z :=
  if (97 <=? z) && (z <=? 122) then z - 32
  else if (z =? 453) || (z =? 454) then 452
  else z.

(** A table of 8-bit characters, read as a table of code points *)
Definition table_codes (m : gmap ascii ascii) : gmap Z Z := kmap ord (ord <$> m).

(** [substitute] on code points *)
Definition substitute_code (mapping : gmap Z Z) (c : Z) : Z :=
  let v := default c (mapping !! code_lower c) in
  if code_isupper c then code_upper v else code_lower v.

Definition encrypt_codes (C : MonoalphabeticSubstitutionCipher) (text : list Z)
  : list Z :=
  map (substitute_code (table_codes (encrypt_mapping C))) text.

Definition decrypt_codes (C : MonoalphabeticSubstitutionCipher) (text : list Z)
  : list Z :=
  map (substitute_code (table_codes (decrypt_mapping C))) text.

(** *** Caesar and Rot13 *)

Definition Caesar (key : Z) : MonoalphabeticSubstitutionCipher :=
  let shifted :=
    map (λ c, chr (ord "a" + (ord c - ord "a" + key) mod 26)) ascii_lowercase in
  {| encrypt_mapping := dict (zip ascii_lowercase shifted);
     decrypt_mapping := dict (zip shifted ascii_lowercase) |}.

Definition Rot13 : MonoalphabeticSubstitutionCipher := Caesar 13.

(** *** Atbash *)

Definition Atbash (alphabet : str) : MonoalphabeticSubstitutionCipher :=
  let alphabet := map lower alphabet in
  let m := dict (zip alphabet (reverse alphabet)) in
  {| encrypt_mapping := m; decrypt_mapping := m |}.

(** *** Kama Sutra
    [for i in range(len(key)): mapping[key[i]] = key[(i + len(key) // 2) % len(key)]] *)

Definition KamaSutra_step (key : str) (m : gmap ascii ascii) (i : nat)
  : gmap ascii ascii :=
  let n := Z.of_nat (length key) in
  match key !! i, key !! Z.to_nat ((Z.of_nat i + n / 2) mod n) with
  | Some k, Some v => <[k := v]> m
  | _, _ => m
  end.

Definition KamaSutra_mapping (key : str) : gmap ascii ascii :=
  foldl (KamaSutra_step key) ∅ (seq 0 (length key)).

Definition KamaSutra (key : str) : MonoalphabeticSubstitutionCipher :=
  let m := KamaSutra_mapping key in
  {| encrypt_mapping := m; decrypt_mapping := m |}.

(** *** Keyword
    The loop runs over [key + string.ascii_lowercase], with [key] as it was
    passed to the constructor ([self.key] alone is lowercased). *)

Definition Keyword (key : str) : MonoalphabeticSubstitutionCipher :=
  let m := append_new [] (key ++ ascii_lowercase) in
  {| encrypt_mapping := dict (zip ascii_lowercase m);
     decrypt_mapping := dict (zip m ascii_lowercase) |}.

(** *** Affine *)

(** Modelled from the spec: [util.mmi(a, m)], the modular multiplicative
    inverse, is not among the sources. The spec defines it as "an integer
    m⁻¹ such that (m × m⁻¹) mod n = 1" and states that construction "fails
    at construction if [a] has no inverse modulo L". The model searches the
    residues [0 .. m-1] and raises when none qualifies. *)
Definition mmi (a m : Z) : result Z :=
  match find (λ x, bool_decide ((a * x) mod m = 1))
             (map Z.of_nat (seq 0 (Z.to_nat m))) with
  | Some x => Ok x
  | None => Raise (ValueError "no multiplicative inverse")
  end.

Definition len {A} (s : list A) : Z := Z.of_nat (length s).

(** [Affine.__init__]: the inverse is computed first, then the decryption
    table, then the encryption table. Both tables are built from the
    [alphabet] argument as passed. *)
Definition Affine (key : Z * Z) (alphabet : str)
  : result MonoalphabeticSubstitutionCipher :=
  let '(a, b) := key in
  mmi ← mmi a (len alphabet);
  dec ← mapM (λ c, i ← index alphabet c;
                   v ← getitem alphabet ((mmi * (i - b)) mod len alphabet);
                   mret (c, v)) alphabet;
  enc ← mapM (λ c, i ← index alphabet c;
                   v ← getitem alphabet ((a * i + b) mod len alphabet);
                   mret (c, v)) alphabet;
  mret {| encrypt_mapping := dict enc; decrypt_mapping := dict dec |}.

(** ** Coordinate squares *)

(** Modelled from the spec: [util.Polybius] is not among the sources. The
    spec (section 4.1) builds the grid from a seed and a base alphabet:
    "seed characters (deduplicated, in order) fill the grid first, followed
    by remaining alphabet characters in order", looks up "character →
    coordinate tuple, and coordinate tuple → character", and "fails with a
    construction error when the seed+alphabet does not produce a perfect
    square/cube count of unique characters". The squares drawn in the
    docstrings of [FourSquare] and [Bifid] are filled row by row and give the
    row first. Only the two-dimensional square is modelled. A character or a
    coordinate outside the square is a [KeyError]. *)
Record Polybius := {
  contents : str;
  side : Z
}.

Definition Polybius_new (seed alphabet : str) : result Polybius :=
  let contents := append_new [] (seed ++ alphabet) in
  let L := Z.sqrt (len contents) in
  if decide (L * L = len contents)
  then Ok {| contents := contents; side := L |}
  else Raise (ValueError "not a square").

(** [square[c]] for a character *)
Definition Polybius_coords (p : Polybius) (c : ascii) : result (Z * Z) :=
  match index (contents p) c with
  | Ok i => Ok (i / side p, i mod side p)
  | Raise _ => Raise KeyError
  end.

(** [square[r, c]] for a pair of coordinates *)
Definition Polybius_char (p : Polybius) (rc : Z * Z) : result ascii :=
  let '(r, c) := rc in
  if decide (0 <= r < side p ∧ 0 <= c < side p)
  then match contents p !! Z.to_nat (r * side p + c) with
       | Some x => Ok x
       | None => Raise KeyError
       end
  else Raise KeyError.

(** ** TwoSquare *)

Record TwoSquare := {
  ts_keys : Polybius * Polybius;
  ts_horizontal : bool
}.

Definition TwoSquare_new (keys : Polybius * Polybius) (horizontal : bool)
  : result TwoSquare :=
  if decide (list_to_set (C:=gset ascii) (contents keys.1)
             = list_to_set (contents keys.2))
  then Ok {| ts_keys := keys; ts_horizontal := horizontal |}
  else Raise (ValueError "Polybius squares must share an alphabet!").

(** [zip(it, it)] over one iterator: consecutive pairs; a trailing single
    element is consumed and dropped. *)
Fixpoint pairwise {A} (s : list A) : list (A * A) :=
  match s with
  | a :: b :: rest => (a, b) :: pairwise rest
  | _ => []
  end.

Definition TwoSquare_pair (C : TwoSquare) (ab : ascii * ascii) : result str :=
  let '(a, b) := ab in
  '(r1, c1) ← Polybius_coords (ts_keys C).1 a;
  '(r2, c2) ← Polybius_coords (ts_keys C).2 b;
  if ts_horizontal C then
    if decide (r1 = r2) then mret [a; b]
    else x ← Polybius_char (ts_keys C).1 (r2, c1);
         y ← Polybius_char (ts_keys C).2 (r1, c2);
         mret [x; y]
  else
    if decide (c1 = c2) then mret [a; b]
    else x ← Polybius_char (ts_keys C).1 (r1, c2);
         y ← Polybius_char (ts_keys C).2 (r2, c1);
         mret [x; y].

Definition TwoSquare_encrypt (C : TwoSquare) (text : str) : result str :=
  let lastchar := if decide (len text mod 2 = 1)
                  then option_list (last text) else [] in
  cipher ← mapM (TwoSquare_pair C) (pairwise text);
  mret (concat cipher ++ lastchar).

Definition TwoSquare_decrypt (C : TwoSquare) (text : str) : result str :=
  TwoSquare_encrypt C text.

(** ** Generators

    A generator is modelled by what it yields and by how it ends: exhausted,
    or by an exception raised in its body. The consumer sees the yielded
    items first. *)
Inductive ending : Type :=
| Exhausted
| Raised (e : exn).

(** A [StopIteration] that escapes a generator body reaches the consumer as
    a [RuntimeError] (PEP 479); any other exception is passed on. *)
Definition escaped (e : exn) : exn :=
  match e with
  | StopIteration => RuntimeError
  | _ => e
  end.

(** [''.join(f(x) for x in gen)] *)
Definition join_generated {A} (f : A → result str) (gen : list A * ending)
  : result str :=
  parts ← mapM f gen.1;
  match gen.2 with
  | Exhausted => mret (concat parts)
  | Raised e => Raise (escaped e)
  end.

(** ** Playfair *)

Record Playfair := {
  pf_omitted : gmap ascii str;
  pf_alphabet : str;
  pf_breaker : ascii;
  pf_padding : ascii;
  pf_polybius : Polybius
}.

(** [len(c) > 1 or c not in self.alphabet] for a value [c] of [omitted];
    the empty string is a substring of every string. *)
Definition malformed_omitted (alphabet : str) (v : str) : bool :=
  match v with
  | [] => false
  | [x] => bool_decide (x ∉ alphabet)
  | _ => true
  end.

(** [len(s) != 1 or s not in self.alphabet] for the breaker and the padding *)
Definition single_letter (alphabet : str) (s : str) : option ascii :=
  match s with
  | [c] => if decide (c ∈ alphabet) then Some c else None
  | _ => None
  end.

(** [Playfair.__init__]; [omitted] is given by its items, in order. *)
Definition Playfair_new (key breaker padding : str) (omitted : list (ascii * str))
  : result Playfair :=
  let omitted := dict (map (λ kv, (lower kv.1, map lower kv.2)) omitted) in
  let alphabet := filter (λ c, omitted !! c = None) ascii_lowercase in
  if bool_decide (len alphabet ≠ 25)
     || existsb (malformed_omitted alphabet) (map snd (map_to_list omitted))
  then Raise (ValueError "Malformed omitted!")
  else match single_letter alphabet breaker with
  | None => Raise (ValueError "Breaker not in alphabet!")
  | Some breaker =>
    match single_letter alphabet padding with
    | None => Raise (ValueError "Padding not in alphabet!")
    | Some padding =>
      let key := filter (λ c, c ∈ alphabet) (map lower key) in
      polybius ← Polybius_new key alphabet;
      mret {| pf_omitted := omitted; pf_alphabet := alphabet;
              pf_breaker := breaker; pf_padding := padding;
              pf_polybius := polybius |}
    end
  end.

(** [self.omitted.get(c, c)] *)
Definition omit (P : Playfair) (c : ascii) : str :=
  default [c] (pf_omitted P !! c).

(** [b + b in text] *)
Fixpoint has_double (b : ascii) (text : str) : bool :=
  match text with
  | x :: (y :: _) as rest => bool_decide (x = b ∧ y = b) || has_double b rest
  | _ => false
  end.

(** [text.replace(b + b, b)]: occurrences are replaced from the left and do
    not overlap. *)
Fixpoint replace_double (b : ascii) (text : str) : str :=
  match text with
  | x :: rest =>
      match rest with
      | y :: rest' =>
          if bool_decide (x = b ∧ y = b) then b :: replace_double b rest'
          else x :: replace_double b rest
      | [] => [x]
      end
  | [] => []
  end.

(** [while b + b in text: text = text.replace(b + b, b)] *)
Fixpoint collapse_breakers (fuel : nat) (b : ascii) (text : str) : str :=
  if has_double b text then
    match fuel with
    | O => text
    | S fuel => collapse_breakers fuel b (replace_double b text)
    end
  else text.

(** The characters that [__plain_pairs] iterates over:
    [plain = (c for c in text.lower() if c in self.alphabet)] after the
    omitted letters are mapped, the repeated breakers removed and the padding
    appended. *)
Definition Playfair_plain (P : Playfair) (text : str) : str :=
  let text := concat (map (omit P) text) in
  let text := collapse_breakers (length text) (pf_breaker P) text in
  let text := text ++ [pf_padding P] in
  filter (λ c, c ∈ pf_alphabet P) (map lower text).

(** The loop of [__plain_pairs]. [pending = None] is the head of the [for]
    loop, which takes two characters (and stops if there are fewer);
    [pending = Some b] is the point [c = next(plain)] inside the branch
    [a == b], where an exhausted [plain] raises [StopIteration]. *)
Fixpoint plain_pairs_loop (breaker : ascii) (pending : option ascii) (plain : str)
  : list (ascii * ascii) * ending :=
  match pending with
  | None =>
      match plain with
      | a :: rest =>
          match rest with
          | b :: rest' =>
              let '(ys, e) :=
                if decide (a = b)
                then plain_pairs_loop breaker (Some b) rest'
                else plain_pairs_loop breaker None rest' in
              ((a, if decide (a = b) then breaker else b) :: ys, e)
          | [] => ([], Exhausted)
          end
      | [] => ([], Exhausted)
      end
  | Some b =>
      match plain with
      | c :: rest =>
          let '(ys, e) :=
            if decide (c = b)
            then plain_pairs_loop breaker (Some b) rest
            else plain_pairs_loop breaker None rest in
          ((b, if decide (c = b) then breaker else c) :: ys, e)
      | [] => ([], Raised StopIteration)
      end
  end.

Definition Playfair_plain_pairs (P : Playfair) (text : str)
  : list (ascii * ascii) * ending :=
  plain_pairs_loop (pf_breaker P) None (Playfair_plain P text).

(** The loop of [__cipher_pairs] over [zip(cipher, cipher)] *)
Fixpoint cipher_pairs_loop (ps : list (str * str)) : list (str * str) * ending :=
  match ps with
  | [] => ([], Exhausted)
  | (a, b) :: rest =>
      if decide (a = b) then ([], Raised (ValueError "Invalid ciphertext!"))
      else let '(ys, e) := cipher_pairs_loop rest in ((a, b) :: ys, e)
  end.

Definition Playfair_cipher_pairs (P : Playfair) (text : str)
  : list (str * str) * ending :=
  if decide (len text mod 2 ≠ 0)
  then ([], Raised (ValueError "Ciphertext of uneven length!"))
  else cipher_pairs_loop (pairwise (map (omit P) text)).

(** [self.polybius[s]] for a string [s]: only a single character can be in
    the square. *)
Definition Polybius_coords_str (p : Polybius) (s : str) : result (Z * Z) :=
  match s with
  | [c] => Polybius_coords p c
  | _ => Raise KeyError
  end.

(** [Playfair.__polyb] *)
Definition Playfair_polyb (P : Playfair) (decrypt : bool) (digraph : str * str)
  : result str :=
  '(r1, c1) ← Polybius_coords_str (pf_polybius P) digraph.1;
  '(r2, c2) ← Polybius_coords_str (pf_polybius P) digraph.2;
  if decide (r1 ≠ r2 ∧ c1 ≠ c2) then
    x ← Polybius_char (pf_polybius P) (r1, c2);
    y ← Polybius_char (pf_polybius P) (r2, c1);
    mret [x; y]
  else
    let '(r1, c1, r2, c2) :=
      if decide (r1 = r2) then
        if decrypt then (r1, (c1 - 1) mod 5, r2, (c2 - 1) mod 5)
        else (r1, (c1 + 1) mod 5, r2, (c2 + 1) mod 5)
      else if decide (c1 = c2) then
        if decrypt then ((r1 - 1) mod 5, c1, (r2 - 1) mod 5, c2)
        else ((r1 + 1) mod 5, c1, (r2 + 1) mod 5, c2)
      else (r1, c1, r2, c2) in
    x ← Polybius_char (pf_polybius P) (r1, c1);
    y ← Polybius_char (pf_polybius P) (r2, c2);
    mret [x; y].

Definition Playfair_encrypt (P : Playfair) (text : str) : result str :=
  let '(ps, e) := Playfair_plain_pairs P text in
  join_generated (Playfair_polyb P false)
                 (map (λ ab, ([ab.1], [ab.2])) ps, e).

Definition Playfair_decrypt (P : Playfair) (text : str) : result str :=
  join_generated (Playfair_polyb P true) (Playfair_cipher_pairs P text).

(** ** Slices, sorting, stripping *)

(** [s[lo:hi]] with Python's treatment of negative and out-of-range bounds *)
Definition clamp (n i : Z) : Z :=
  if i <? 0 then Z.max (i + n) 0 else Z.min i n.

Definition slice {A} (s : list A) (lo hi : Z) : list A :=
  let lo := clamp (len s) lo in
  let hi := clamp (len s) hi in
  take (Z.to_nat (hi - lo)) (drop (Z.to_nat lo) s).

(** [s[lo:]] and [s[:hi]] *)
Definition slice_from {A} (s : list A) (lo : Z) : list A := slice s lo (len s).
Definition slice_to {A} (s : list A) (hi : Z) : list A := slice s 0 hi.

(** [s[i::n]] for [0 <= i] and [1 <= n]: [skip] characters are passed over
    before the next one is taken. *)
Fixpoint every {A} (n skip : nat) (s : list A) : list A :=
  match s with
  | [] => []
  | c :: s' =>
      match skip with
      | O => c :: every n (n - 1) s'
      | S k => every n k s'
      end
  end.

Definition slice_step {A} (s : list A) (i n : nat) : list A := every n i s.

(** [sorted(s)] on characters, by code point *)
Definition char_le (a b : ascii) : Prop := ord a <= ord b.
#[global] Instance char_le_dec : RelDecision char_le := λ a b, Z_le_dec _ _.

Definition sorted (s : str) : str := merge_sort char_le s.

(** [s.rstrip(pad)] for a single character [pad] *)
Fixpoint rstrip (pad : ascii) (s : str) : str :=
  match s with
  | [] => []
  | c :: s' =>
      match rstrip pad s' with
      | [] => if decide (c = pad) then [] else [c]
      | r => c :: r
      end
  end.

(** [zip] applied to the unpacked list of columns: the tuples of the [j]-th elements, as long as every
    column has one. *)
Fixpoint zip_star_go {A} (fuel : nat) (columns : list (list A)) : list (list A) :=
  match fuel with
  | O => []
  | S fuel =>
      match mapM head columns with
      | Some row => row :: zip_star_go fuel (map tail columns)
      | None => []
      end
  end.

Definition zip_star {A} (columns : list (list A)) : list (list A) :=
  match columns with
  | [] => []
  | c :: _ => zip_star_go (length c) columns
  end.

(** [d[k]] on a dictionary *)
Definition dict_get {K V} `{Countable K} (d : gmap K V) (k : K) : result V :=
  match d !! k with
  | Some v => Ok v
  | None => Raise KeyError
  end.

(** [s.count(c)] *)
Definition count (s : str) (c : ascii) : Z := len (filter (λ d, d = c) s).

(** ** Columnar transposition *)

Record Column := {
  col_key : str;
  col_pad : ascii
}.

Definition Column_new (key pad : str) : result Column :=
  if decide (len key < 1) then Raise (ValueError "Invalid key!")
  else if existsb (λ c, bool_decide (count key c > 1)) key
  then Raise (ValueError "Each key character must be unique!")
  else match pad with
       | [p] => Ok {| col_key := key; col_pad := p |}
       | _ => Raise (ValueError "pad must be one character!")
       end.

Definition Column_encrypt (C : Column) (text : str) : result str :=
  let n := len (col_key C) in
  let text :=
    if decide (len text mod n ≠ 0)
    then text ++ replicate (Z.to_nat (n - len text mod n)) (col_pad C)
    else text in
  let columns :=
    map (λ i, slice_step text i (length (col_key C)))
        (seq 0 (length (col_key C))) in
  let columns := dict (zip (col_key C) columns) in
  parts ← mapM (dict_get columns) (sorted (col_key C));
  mret (concat parts).

Definition Column_decrypt (C : Column) (text : str) : result str :=
  let n := len (col_key C) in
  if decide (len text mod n ≠ 0) then Raise (ValueError "Not a valid ciphertext.")
  else
    let rows := len text / n in
    let columns :=
      map (λ i, slice text (Z.of_nat i * rows) ((Z.of_nat i + 1) * rows))
          (seq 0 (length (col_key C))) in
    let columns := dict (zip (sorted (col_key C)) columns) in
    columns ← mapM (dict_get columns) (col_key C);
    mret (rstrip (col_pad C) (concat (zip_star columns))).

(** ** Rail fence *)

Record RailFence := {
  rf_key : Z
}.

Definition RailFence_new (key : Z) : result RailFence :=
  if decide (key < 1) then Raise (ValueError "Key should be strictly positive!")
  else Ok {| rf_key := key |}.

(** [list(range(key - 1)) + list(range(key - 1, 0, -1))] *)
Definition zigzag (key : Z) : list nat :=
  seq 0 (Z.to_nat (key - 1)) ++ reverse (seq 1 (Z.to_nat (key - 1))).

(** [itertools.cycle(l)]: the item delivered by the [t]-th call of [next];
    an empty [l] is exhausted at once. *)
Definition cycle_nth {A} (l : list A) (t : nat) : result A :=
  match l !! (t mod length l)%nat with
  | Some x => Ok x
  | None => Raise StopIteration
  end.

(** [for c in text: rails[next(indices)].append(c)], from the [t]-th call
    of [next] on. *)
Fixpoint deal (indices : list nat) (rails : list str) (t : nat) (text : str)
  : result (list str) :=
  match text with
  | [] => Ok rails
  | c :: text' =>
      i ← cycle_nth indices t;
      match rails !! i with
      | Some r => deal indices (<[i := r ++ [c]]> rails) (S t) text'
      | None => Raise IndexError
      end
  end.

Definition RailFence_encrypt (C : RailFence) (text : str) : result str :=
  if decide (rf_key C = 1) then Ok text
  else
    rails ← deal (zigzag (rf_key C)) (replicate (Z.to_nat (rf_key C)) []) 0 text;
    mret (concat rails).

(** [__periods]: [float(length) / ((self.key - 1) * 2)]. The quotient is
    kept exact; [math.ceil] of the rounded quotient is the ceiling of the
    exact one for every length a string can have (for [key = 3] the divisor
    is 4 and the division is exact). *)
Definition periods (C : RailFence) (length : Z) : Q :=
  (inject_Z length / inject_Z ((rf_key C - 1) * 2))%Q.

Definition ceil (q : Q) : Z := Qceiling q.

(** The loop [for i in range(1, self.key - 1)] of [decrypt]: the rows
    appended and the final [rowstart]. *)
Fixpoint middle_rows (C : RailFence) (text : str) (rowstart : Z) (idxs : list Z)
  : list str * Z :=
  match idxs with
  | [] => ([], rowstart)
  | i :: idxs' =>
      let rowend :=
        rowstart + ceil (periods C (len text - i))
        + ceil (periods C (len text - i - (rf_key C - i - 1) * 2)) in
      let '(rows, last) := middle_rows C text rowend idxs' in
      (slice text rowstart rowend :: rows, last)
  end.

(** [''.join(next(gens[next(indices)]) for _ in range(n))], from the [t]-th
    call of [next(indices)] on. *)
Fixpoint read_rails (indices : list nat) (gens : list str) (t : nat) (n : nat)
  : result str :=
  match n with
  | O => Ok []
  | S n' =>
      i ← cycle_nth indices t;
      match gens !! i with
      | Some (c :: row) =>
          rest ← read_rails indices (<[i := row]> gens) (S t) n';
          mret (c :: rest)
      | Some [] => Raise (escaped StopIteration)
      | None => Raise IndexError
      end
  end.

Definition RailFence_decrypt (C : RailFence) (text : str) : result str :=
  if decide (rf_key C = 1) then Ok text
  else
    let rowend := ceil (periods C (len text)) in
    let '(rows, rowstart) :=
      middle_rows C text rowend
                  (map (λ j, 1 + Z.of_nat j) (seq 0 (Z.to_nat (rf_key C - 2)))) in
    let rows := slice_to text rowend :: rows ++ [slice_from text rowstart] in
    read_rails (zigzag (rf_key C)) rows 0 (length text).

(** ** Frequency analysis (util.py) *)

(** [range(n)] *)
Definition range (n : Z) : list Z := map Z.of_nat (seq 0 (Z.to_nat n)).

(** The first loop of [frequency_analysis]: the table of counts and
    [total]. An absent entry of the [defaultdict(int)] counts as 0. *)
Definition ngram_counts (text : str) (ngram : Z) : gmap str Z * Z :=
  foldl (λ '(freqs, total) i,
           let gram := slice text i (i + ngram) in
           (<[gram := default 0 (freqs !! gram) + 1]> freqs, total + 1))
        (∅, 0) (range (len text - ngram + 1)).

Section frequency_table.
(** [count / float(total)] *)
Context {F : Type} (divide : Z → Z → F).

Definition frequency_analysis_with (text : str) (ngram : Z) : gmap str F :=
  let '(freqs, total) := ngram_counts text ngram in
  (λ count, divide count total) <$> freqs.
End frequency_table.

(** Python floats are IEEE 754 binary64 numbers. [float(n)] rounds the
    integer to the nearest one, and [/] is the correctly rounded quotient. *)
Definition float_of_int (n : Z) : spec_float := binary_normalize 53 1024 n 0 false.
Definition float_div (x y : spec_float) : spec_float := SFdiv 53 1024 x y.

Definition frequency_analysis : str → Z → gmap str spec_float :=
  frequency_analysis_with (λ count total,
                             float_div (float_of_int count) (float_of_int total)).

(** The binary64 numbers written [0.1] and [0.4] in Python:
    [0x1.999999999999ap-4] and [0x1.999999999999ap-2]. *)
Definition float_0_1 : spec_float := S754_finite false 7205759403792794 (-56).
Definition float_0_4 : spec_float := S754_finite false 7205759403792794 (-54).

(** The binary64 numbers [1.0] and [0.9999999999999999] ([0x1.fffffffffffffp-1]) *)
Definition float_1 : spec_float := S754_finite false 4503599627370496 (-52).
Definition float_below_1 : spec_float := S754_finite false 9007199254740991 (-53).

(** ** Sums of frequencies, for the statement that they sum to 1

    [frequency_analysis] adds nothing up itself. The sum of the floats it
    returns is taken in two ways: as Python adds floats ([x + y] is the
    correctly rounded sum, and [sum(values)] adds from left to right,
    starting from the integer 0), and exactly, over the rational numbers
    that the floats stand for. *)
Definition float_add (x y : spec_float) : spec_float := SFadd 53 1024 x y.
Definition float_sum (values : list spec_float) : spec_float :=
  foldl float_add (float_of_int 0) values.

Definition float_value (x : spec_float) : Qc :=
  match x with
  | S754_finite s m e =>
      Q2Qc ((if s then -1 else 1) * inject_Z (Z.pos m) * Qpower 2 e)
  | _ => Q2Qc 0
  end.

(** Sums over the values of a table *)
Definition sum_counts (m : gmap str Z) : Z :=
  map_fold (λ _ count acc, count + acc) 0 m.

Definition sum_frequencies (m : gmap str Qc) : Qc :=
  map_fold (λ _ freq acc, (freq + acc)%Qc) (Qc_of_Z 0) m.

(** ** The digraph rule of the spec, for comparison with [__plain_pairs]

    Spec, section 4.5: "pair up characters; if both letters in a pair are
    identical, insert the breaker letter between them and re-pair; pad with
    the padding letter if the final digraph is incomplete." *)
Fixpoint spec_pairs (breaker padding : ascii) (letters : str)
  : list (ascii * ascii) :=
  match letters with
  | [] => []
  | a :: rest =>
      match rest with
      | [] => [(a, padding)]
      | b :: rest' =>
          if decide (a = b)
          then (a, breaker) :: spec_pairs breaker padding rest
          else (a, b) :: spec_pairs breaker padding rest'
      end
  end.

(** The letter that the rule leaves without a partner, if any: the one that
    the padding letter completes. *)
Fixpoint spec_leftover (letters : str) : option ascii :=
  match letters with
  | [] => None
  | a :: rest =>
      match rest with
      | [] => Some a
      | b :: rest' =>
          if decide (a = b) then spec_leftover rest else spec_leftover rest'
      end
  end.

(** The letters of a plaintext that Playfair enciphers: omitted letters
    mapped, repeated breakers removed, lowercased, restricted to the
    alphabet. *)
Definition Playfair_letters (P : Playfair) (text : str) : str :=
  let text := concat (map (omit P) text) in
  let text := collapse_breakers (length text) (pf_breaker P) text in
  filter (λ c, c ∈ pf_alphabet P) (map lower text).

(** ** Enumerations used by the proofs *)

Definition all_ascii : list ascii := map ascii_of_nat (seq 0 256).

Definition caesar_keys : list Z := map Z.of_nat (seq 0 26).

(** ** Auxiliary notions of the proofs *)

(** What [deal] appends to each rail, as a function of the text, from the
    [t]-th call of [next] on. *)
Fixpoint dealt (indices : list nat) (nrails t : nat) (text : str) : list str :=
  match text with
  | [] => replicate nrails []
  | c :: text' =>
      match indices !! (t mod length indices)%nat with
      | Some i => alter (cons c) i (dealt indices nrails (S t) text')
      | None => dealt indices nrails (S t) text'
      end
  end.

(** [text[i::n]] for every [i] in [range(n)] *)
Definition columns_of {A} (n : nat) (text : list A) : list (list A) :=
  map (λ i, slice_step text i n) (seq 0 n).

(** A square as the constructor builds it. *)
Definition Polybius_wf (p : Polybius) : Prop :=
  NoDup (contents p) ∧ side p * side p = len (contents p) ∧ 0 <= side p.

(** A Playfair cipher as the constructor builds it. *)
Definition Playfair_wf (P : Playfair) : Prop :=
  NoDup (pf_alphabet P)
  ∧ (∀ c, c ∈ pf_alphabet P → pf_omitted P !! c = None ∧ lower c = c)
  ∧ pf_breaker P ∈ pf_alphabet P
  ∧ pf_padding P ∈ pf_alphabet P
  ∧ Polybius_wf (pf_polybius P)
  ∧ side (pf_polybius P) = 5
  ∧ (∀ c, c ∈ contents (pf_polybius P) ↔ c ∈ pf_alphabet P).

(** The rail fence cipher with three rails *)
Definition R3 : RailFence := {| rf_key := 3 |}.

Definition roundtrip_char (C : MonoalphabeticSubstitutionCipher) (c : ascii) : bool :=
  bool_decide (substitute (decrypt_mapping C) (substitute (encrypt_mapping C) c) = c).

(** ** Sample ciphers *)

(** [Playfair("playfair example")] with the default breaker, padding and
    omitted letter *)
Definition Playfair_example : Playfair :=
  match Playfair_new (py "playfair example") (py "x") (py "z")
                     [("j"%char, py "i")] with
  | Ok P => P
  | Raise _ => {| pf_omitted := ∅; pf_alphabet := []; pf_breaker := "x";
                  pf_padding := "z";
                  pf_polybius := {| contents := []; side := 0 |} |}
  end.

(** [Column("CIPHER", pad='x')] *)
Definition Column_example : Column := {| col_key := py "CIPHER"; col_pad := "x" |}.

(** The squares of the docstring of [FourSquare], over the 25-letter
    alphabet without j *)
Definition Polybius_example (seed : string) : Polybius :=
  match Polybius_new (py seed) (py "abcdefghiklmnopqrstuvwxyz") with
  | Ok p => p
  | Raise _ => {| contents := []; side := 0 |}
  end.

Definition TwoSquare_example : TwoSquare :=
  {| ts_keys := (Polybius_example "example", Polybius_example "keyword");
     ts_horizontal := false |}.

(** ** Further classes of cipher.py *)

(** *** Simple
    [key] is a dictionary; it is given by its items in insertion order, as
    [key.items()] delivers them. *)
Definition Simple (key : list (ascii * ascii)) : MonoalphabeticSubstitutionCipher :=
  {| encrypt_mapping := dict key;
     decrypt_mapping := dict (map (λ ab, (ab.2, ab.1)) key) |}.

(** ** Counting on the rails *)

(** The number of [j] in [0 .. m-1] with [j mod p = r], for [0 <= r < p]:
    the smallest integer not below [(m - r) / p]. *)
Definition residue_count (p r m : Z) : Z := - ((r - m) / p).

(** ** FourSquare

    The object after [__init__]: two key squares, the alphabet square and
    the padding. The constructor's checks use [len(square)] and
    [padding in alphabet] of [util.Polybius], which is not among the
    sources; the properties below state what they need of the squares
    directly. *)
Record FourSquare := {
  fs_keys : Polybius * Polybius;
  fs_alphabet : Polybius;
  fs_padding : str
}.

(** The body of the loop of [FourSquare.encrypt] *)
Definition FourSquare_encrypt_pair (F : FourSquare) (ab : ascii * ascii)
  : result str :=
  let '(a, b) := ab in
  '(x1, y1) ← Polybius_coords (fs_alphabet F) a;
  '(x2, y2) ← Polybius_coords (fs_alphabet F) b;
  c1 ← Polybius_char (fs_keys F).1 (x1, y2);
  c2 ← Polybius_char (fs_keys F).2 (x2, y1);
  mret [c1; c2].

Definition FourSquare_encrypt (F : FourSquare) (text : str) : result str :=
  let text := if decide (len text mod 2 = 1) then text ++ fs_padding F else text in
  cipher ← mapM (FourSquare_encrypt_pair F) (pairwise text);
  mret (concat cipher).

(** The body of the loop of [FourSquare.decrypt] *)
Definition FourSquare_decrypt_pair (F : FourSquare) (ab : ascii * ascii)
  : result str :=
  let '(a, b) := ab in
  '(x1, y1) ← Polybius_coords (fs_keys F).1 a;
  '(x2, y2) ← Polybius_coords (fs_keys F).2 b;
  p1 ← Polybius_char (fs_alphabet F) (x1, y2);
  p2 ← Polybius_char (fs_alphabet F) (x2, y1);
  mret [p1; p2].

Definition FourSquare_decrypt (F : FourSquare) (text : str) : result str :=
  plain ← mapM (FourSquare_decrypt_pair F) (pairwise text);
  mret (concat plain).

(** [FourSquare((Polybius('example'), Polybius('keyword')))] with the
    default alphabet square and padding, as drawn in the class docstring. *)
Definition FourSquare_example : FourSquare :=
  {| fs_keys := (Polybius_example "example", Polybius_example "keyword");
     fs_alphabet := Polybius_example "";
     fs_padding := py "x" |}.

(** ** Bifid *)

(** [range(start, stop, step)]; a step of 0 is a [ValueError]. *)
Definition range_step (start stop step : Z) : result (list Z) :=
  if decide (step = 0) then Raise (ValueError "range() arg 3 must not be zero")
  else
    let n := if decide (0 < step) then (stop - start + step - 1) / step
             else (start - stop - step - 1) / (- step) in
    Ok (map (λ k, start + Z.of_nat k * step) (seq 0 (Z.to_nat n))).

Record Bifid := {
  bf_polybius : Polybius;
  bf_period : Z
}.

(** [Bifid.__init__]: a key that is not a square is made into one by
    [util.Polybius('', key)]. Only the two-dimensional square is modelled,
    so that the check of [key.dimensions] always passes. *)
Definition Bifid_new (key : str + Polybius) (period : Z) : result Bifid :=
  polybius ← match key with
             | inl s => Polybius_new [] s
             | inr p => Ok p
             end;
  mret {| bf_polybius := polybius; bf_period := period |}.

(** A coordinate pair as the tuple it is in the code *)
Definition coords_tuple (rc : Z * Z) : list Z := [rc.1; rc.2].

(** Modelled from the spec: [square[t]] for a tuple [t] of coordinates is
    the lookup "coordinate tuple → character" of [Polybius_char]; a tuple
    that is not a pair is not a key of a two-dimensional square. *)
Definition Polybius_char_tuple (p : Polybius) (t : list Z) : result ascii :=
  match t with
  | [r; c] => Polybius_char p (r, c)
  | _ => Raise KeyError
  end.

(** [Bifid.__encrypt_block] *)
Definition Bifid_encrypt_block (B : Bifid) (text : str) : result str :=
  coords ← mapM (Polybius_coords (bf_polybius B)) (map lower text);
  let coords := concat (zip_star (map coords_tuple coords)) in
  idxs ← range_step 0 (len coords) 2;
  mapM (λ i, Polybius_char_tuple (bf_polybius B) (slice coords i (i + 2))) idxs.

(** [Bifid.__decrypt_block] *)
Definition Bifid_decrypt_block (B : Bifid) (text : str) : result str :=
  coords ← mapM (Polybius_coords (bf_polybius B)) text;
  let coords := concat (map coords_tuple coords) in
  let rowlen := len coords / 2 in
  idxs ← range_step 0 (len coords) rowlen;
  let rows := map (λ i, slice coords i (i + rowlen)) idxs in
  mapM (Polybius_char_tuple (bf_polybius B)) (zip_star rows).

(** [text[i * period:(i + 1) * period] for i in range(len(text) // period + 1)] *)
Definition Bifid_blocks (B : Bifid) (text : str) : list str :=
  map (λ i, slice text (i * bf_period B) ((i + 1) * bf_period B))
      (range (len text / bf_period B + 1)).

Definition Bifid_encrypt (B : Bifid) (text : str) : result str :=
  if decide (bf_period B > 0) then
    blocks ← mapM (Bifid_encrypt_block B) (Bifid_blocks B text);
    mret (concat blocks)
  else Bifid_encrypt_block B text.

Definition Bifid_decrypt (B : Bifid) (text : str) : result str :=
  if decide (bf_period B > 0) then
    blocks ← mapM (Bifid_decrypt_block B) (Bifid_blocks B text);
    mret (concat blocks)
  else Bifid_decrypt_block B text.

(** The square of the docstring of [Bifid], in lowercase, without period
    and with period 5 *)
Definition Bifid_square : Polybius :=
  {| contents := py "bgwkzqpndsioaxefclumthyvr"; side := 5 |}.

Definition Bifid_example : Bifid :=
  {| bf_polybius := Bifid_square; bf_period := 0 |}.

Definition Bifid_example_5 : Bifid :=
  {| bf_polybius := Bifid_square; bf_period := 5 |}.

(** * Properties *)

Lemma all_ascii_complete (c : ascii) : c ∈ all_ascii.
Proof.
  rewrite <- (ascii_nat_embedding c). unfold all_ascii.
  apply list_elem_of_In, in_map, in_seq.
  pose proof (nat_ascii_bounded c). lia.
Qed.

Lemma forall_ascii (P : ascii → bool) :
  forallb P all_ascii = true → ∀ c, P c = true.
Proof.
  intros H c. rewrite forallb_forall in H. apply H, list_elem_of_In, all_ascii_complete.
Qed.

Lemma dict_snoc {K V} `{Countable K} (l : list (K * V)) k v :
  dict (l ++ [(k, v)]) = <[k := v]> (dict l).
Proof. unfold dict. by rewrite foldl_app. Qed.

Lemma dict_list_to_map {K V} `{Countable K} (l : list (K * V)) :
  dict l = list_to_map (reverse l).
Proof.
  induction l as [|[k v] l IH] using rev_ind; [done|].
  by rewrite dict_snoc, reverse_snoc, IH.
Qed.

Lemma dict_lookup_Some {K V} `{Countable K} (l : list (K * V)) k v :
  NoDup l.*1 → (k, v) ∈ l → dict l !! k = Some v.
Proof.
  intros Hnd Hin. rewrite dict_list_to_map.
  apply elem_of_list_to_map_1.
  - by rewrite fmap_reverse, reverse_Permutation.
  - by apply elem_of_reverse.
Qed.

Lemma dict_lookup_None {K V} `{Countable K} (l : list (K * V)) k :
  k ∉ l.*1 → dict l !! k = None.
Proof.
  intros Hin. rewrite dict_list_to_map.
  apply not_elem_of_list_to_map_1. by rewrite fmap_reverse, elem_of_reverse.
Qed.

Lemma dict_zip_lookup {K V} `{Countable K} (ks : list K) (vs : list V) i k v :
  NoDup ks → length ks = length vs →
  ks !! i = Some k → vs !! i = Some v → dict (zip ks vs) !! k = Some v.
Proof.
  intros Hnd Hlen Hk Hv. apply dict_lookup_Some.
  - rewrite fst_zip; [done|lia].
  - apply list_elem_of_lookup. exists i. by apply lookup_zip_Some.
Qed.

(** Case operations on 8-bit characters *)
Lemma recase_facts (c v : ascii) :
  let e := if isupper c then upper v else lower v in
  (isupper c = true → islower e = false) ∧
  (isupper c = false → isupper e = false).
Proof.
  revert c v. 
  assert (H : forallb (λ v, negb (islower (upper v)) && negb (isupper (lower v))) all_ascii = true)
    by (vm_compute; reflexivity).
  intros c v; simpl. pose proof (forall_ascii _ H v) as Hv. simpl in Hv.
  apply andb_prop in Hv as [H1 H2]. apply negb_true_iff in H1, H2.
  destruct (isupper c); split; congruence.
Qed.

Lemma recase_self (c : ascii) : (if isupper c then upper c else lower c) = c.
Proof.
  revert c.
  assert (H : forallb (λ c, bool_decide ((if isupper c then upper c else lower c) = c)) all_ascii = true)
    by (vm_compute; reflexivity).
  intros c. pose proof (forall_ascii _ H c) as Hc. by apply bool_decide_eq_true in Hc.
Qed.

Lemma substitute_absent (m : gmap ascii ascii) (c : ascii) :
  m !! lower c = None → substitute m c = c.
Proof. intros H. unfold substitute. rewrite H. simpl. apply recase_self. Qed.

(** *** Caesar *)

Lemma Caesar_mod (key : Z) : Caesar key = Caesar (key mod 26).
Proof.
  unfold Caesar.
  assert (E : map (λ c, chr (ord "a" + (ord c - ord "a" + key) mod 26)) ascii_lowercase
            = map (λ c, chr (ord "a" + (ord c - ord "a" + key mod 26) mod 26)) ascii_lowercase).
  { apply map_ext. intros c. rewrite Zplus_mod_idemp_r. reflexivity. }
  rewrite E. reflexivity.
Qed.

Lemma caesar_keys_complete (key : Z) : key mod 26 ∈ caesar_keys.
Proof.
  pose proof (Z.mod_pos_bound key 26 ltac:(lia)) as Hb.
  unfold caesar_keys. apply list_elem_of_In, in_map_iff.
  exists (Z.to_nat (key mod 26)). split; [lia|]. apply in_seq. lia.
Qed.

Lemma Caesar_roundtrip_char (key : Z) (c : ascii) :
  substitute (decrypt_mapping (Caesar key)) (substitute (encrypt_mapping (Caesar key)) c) = c.
Proof.
  rewrite Caesar_mod.
  assert (H : forallb (λ k, forallb (roundtrip_char (Caesar k)) all_ascii) caesar_keys = true)
    by (vm_compute; reflexivity).
  rewrite forallb_forall in H.
  specialize (H _ (proj1 (list_elem_of_In _ _) (caesar_keys_complete key))).
  pose proof (forall_ascii _ H c) as Hc. unfold roundtrip_char in Hc.
  apply bool_decide_eq_true in Hc. exact Hc.
Qed.

Lemma Caesar_roundtrip (key : Z) (text : str) :
  mono_decrypt (Caesar key) (mono_encrypt (Caesar key) text) = text.
Proof.
  unfold mono_decrypt, mono_encrypt. rewrite map_map.
  induction text as [|c text IH]; [reflexivity|].
  cbn [map]. rewrite Caesar_roundtrip_char, IH. reflexivity.
Qed.

Lemma Rot13_involution (text : str) :
  mono_encrypt Rot13 (mono_encrypt Rot13 text) = text.
Proof.
  unfold mono_encrypt. rewrite map_map.
  assert (H : forallb (λ c, bool_decide (substitute (encrypt_mapping Rot13)
                 (substitute (encrypt_mapping Rot13) c) = c)) all_ascii = true)
    by (vm_compute; reflexivity).
  induction text as [|c text IH]; [reflexivity|].
  cbn [map]. rewrite IH. f_equal.
  pose proof (forall_ascii _ H c) as Hc. apply bool_decide_eq_true in Hc. exact Hc.
Qed.

Lemma lower_facts (x : ascii) :
  lower (lower x) = lower x ∧ isupper (lower x) = false.
Proof.
  assert (H : forallb (λ x, bool_decide (lower (lower x) = lower x)
                            && negb (isupper (lower x))) all_ascii = true)
    by (vm_compute; reflexivity).
  pose proof (forall_ascii _ H x) as Hx.
  apply andb_prop in Hx as [H1 H2].
  apply bool_decide_eq_true in H1. apply negb_true_iff in H2. done.
Qed.

Lemma islower_facts (v : ascii) :
  islower v = true →
  lower v = v ∧ isupper v = false ∧ lower (upper v) = v ∧ isupper (upper v) = true.
Proof.
  assert (H : forallb (λ v, negb (islower v) ||
      (bool_decide (lower v = v) && negb (isupper v) &&
       bool_decide (lower (upper v) = v) && isupper (upper v))) all_ascii = true)
    by (vm_compute; reflexivity).
  pose proof (forall_ascii _ H v) as Hv. cbv beta in Hv. intros Hl. rewrite Hl in Hv.
  cbn [negb orb] in Hv.
  repeat (apply andb_prop in Hv as [Hv ?]).
  apply bool_decide_eq_true in Hv. apply negb_true_iff in H2.
  apply bool_decide_eq_true in H1. done.
Qed.

Lemma isupper_facts (c : ascii) :
  (isupper c = true → upper (lower c) = c) ∧ (isupper c = false → lower c = c).
Proof.
  assert (H : forallb (λ c, if isupper c then bool_decide (upper (lower c) = c)
                            else bool_decide (lower c = c)) all_ascii = true)
    by (vm_compute; reflexivity).
  pose proof (forall_ascii _ H c) as Hc. cbv beta in Hc.
  destruct (isupper c); apply bool_decide_eq_true in Hc; split; congruence.
Qed.

(** An involutive table on lowercase characters gives an involutive cipher
    on the texts over its keys. *)
Lemma substitute_involution_on (m : gmap ascii ascii) (c v : ascii) :
  lower c = c → isupper c = false → lower v = v → isupper v = false →
  m !! c = Some v → m !! v = Some c →
  substitute m (substitute m c) = c.
Proof.
  intros Hc Hu Hv Hvu H1 H2. unfold substitute.
  rewrite Hc, H1, Hu. simpl. rewrite !Hv, H2, Hvu. simpl. done.
Qed.

(** *** Atbash *)

Lemma Atbash_lookup (alphabet : str) (i : nat) (c : ascii) :
  NoDup (map lower alphabet) →
  map lower alphabet !! i = Some c →
  encrypt_mapping (Atbash alphabet) !! c
  = map lower alphabet !! (length alphabet - S i)%nat.
Proof.
  intros Hnd Hi. cbn [Atbash encrypt_mapping].
  set (a := map lower alphabet) in *.
  assert (Hlen : length a = length alphabet) by apply length_map.
  assert (Hlt : (i < length a)%nat) by (eapply lookup_lt_Some; eauto).
  destruct (a !! (length alphabet - S i)%nat) as [v|] eqn:Hv.
  - eapply dict_zip_lookup; eauto.
    + by rewrite length_reverse.
    + rewrite reverse_lookup by done. by rewrite Hlen.
  - apply lookup_ge_None in Hv. lia.
Qed.

Lemma Atbash_involution (alphabet : str) (text : str) :
  NoDup (map lower alphabet) →
  Forall (λ c, c ∈ map lower alphabet) text →
  mono_encrypt (Atbash alphabet) (mono_encrypt (Atbash alphabet) text) = text.
Proof.
  intros Hnd Htext. unfold mono_encrypt. rewrite map_map.
  induction Htext as [|c text Hc _ IH]; [done|].
  cbn [map]. rewrite IH. f_equal.
  assert (Hlen : length (map lower alphabet) = length alphabet) by apply length_map.
  assert (Hlow : ∀ x, x ∈ map lower alphabet → lower x = x ∧ isupper x = false).
  { intros x Hx. apply list_elem_of_In, in_map_iff in Hx as (y & <- & _). apply lower_facts. }
  apply list_elem_of_lookup in Hc as [i Hi].
  assert (Hlt : (i < length alphabet)%nat) by (rewrite <- Hlen; eapply lookup_lt_Some; eauto).
  destruct (map lower alphabet !! (length alphabet - S i)%nat) as [v|] eqn:Hv;
    [|apply lookup_ge_None in Hv; lia].
  assert (Hvin : v ∈ map lower alphabet) by (apply list_elem_of_lookup; eauto).
  destruct (Hlow c) as [? ?]; [apply list_elem_of_lookup; eauto|].
  destruct (Hlow v) as [? ?]; [done|].
  apply (substitute_involution_on _ c v); try done.
  - by rewrite (Atbash_lookup _ i).
  - rewrite (Atbash_lookup _ (length alphabet - S i)%nat) by done.
    rewrite <- Hi. f_equal. lia.
Qed.

Lemma Atbash_default_involution (text : str) :
  mono_encrypt (Atbash ascii_lowercase) (mono_encrypt (Atbash ascii_lowercase) text)
  = text.
Proof.
  unfold mono_encrypt. rewrite map_map.
  assert (H : forallb (λ c, bool_decide
       (substitute (encrypt_mapping (Atbash ascii_lowercase))
          (substitute (encrypt_mapping (Atbash ascii_lowercase)) c) = c)) all_ascii = true)
    by (vm_compute; reflexivity).
  induction text as [|c text IH]; [reflexivity|].
  cbn [map]. rewrite IH. f_equal.
  pose proof (forall_ascii _ H c) as Hc. apply bool_decide_eq_true in Hc. exact Hc.
Qed.

(** *** Kama Sutra *)

Lemma KamaSutra_mapping_fold (key : str) :
  KamaSutra_mapping key = foldl (KamaSutra_step key) ∅ (seq 0 (length key)).
Proof. reflexivity. Qed.

Lemma KamaSutra_fold_other (key : str) (idxs : list nat) (m : gmap ascii ascii) (k : ascii) :
  (∀ j, j ∈ idxs → key !! j ≠ Some k) →
  foldl (KamaSutra_step key) m idxs !! k = m !! k.
Proof.
  revert m. induction idxs as [|j idxs IH]; intros m Hk; [done|].
  cbn [foldl]. rewrite IH by (intros; apply Hk; by right).
  unfold KamaSutra_step.
  destruct (key !! j) as [kj|] eqn:Hj; [|done].
  destruct (key !! Z.to_nat _) as [vj|]; [|done].
  apply lookup_insert_ne. intros ->. apply (Hk j); [by left|done].
Qed.

Lemma KamaSutra_fold_at (key : str) (idxs : list nat) (m : gmap ascii ascii)
      (i : nat) (k : ascii) :
  NoDup key → NoDup idxs → key !! i = Some k → i ∈ idxs →
  foldl (KamaSutra_step key) m idxs !! k
  = key !! Z.to_nat ((Z.of_nat i + len key / 2) mod len key).
Proof.
  intros Hnd. revert m. induction idxs as [|j idxs IH]; intros m Hidx Hi Hin.
  - by apply elem_of_nil in Hin.
  - apply NoDup_cons in Hidx as [Hj Hidx]. cbn [foldl].
    apply elem_of_cons in Hin as [<-|Hin]; [|by apply IH].
    rewrite KamaSutra_fold_other.
    + unfold KamaSutra_step. rewrite Hi.
      assert (Hlt : (i < length key)%nat) by (eapply lookup_lt_Some; eauto).
      destruct (key !! Z.to_nat _) as [v|] eqn:Hv.
      * apply lookup_insert_eq.
      * apply lookup_ge_None in Hv. unfold len in Hv.
        assert (Hpos : 0 < Z.of_nat (length key)) by lia.
        pose proof (Z.mod_pos_bound (Z.of_nat i + Z.of_nat (length key) / 2) _ Hpos).
        lia.
    + intros j' Hj' Hk. assert (j' = i) by apply (NoDup_lookup key j' i k Hnd Hk Hi).
      by subst.
Qed.

Lemma KamaSutra_lookup (key : str) (i : nat) (k : ascii) :
  NoDup key → key !! i = Some k →
  KamaSutra_mapping key !! k
  = key !! Z.to_nat ((Z.of_nat i + len key / 2) mod len key).
Proof.
  intros Hnd Hi. rewrite KamaSutra_mapping_fold.
  apply KamaSutra_fold_at; [done|apply NoDup_seq|done|].
  apply elem_of_seq. apply lookup_lt_Some in Hi. lia.
Qed.

Lemma KamaSutra_lookup_None (key : str) (k : ascii) :
  k ∉ key → KamaSutra_mapping key !! k = None.
Proof.
  intros Hk. rewrite KamaSutra_mapping_fold, KamaSutra_fold_other; [done|].
  intros j _ Hj. apply Hk. apply list_elem_of_lookup. eauto.
Qed.

(** The table exchanges the two halves of a key of even length. *)
Lemma KamaSutra_mapping_swap (key : str) (k : ascii) :
  NoDup key → Z.even (len key) = true → k ∈ key →
  ∃ v, v ∈ key ∧ KamaSutra_mapping key !! k = Some v
       ∧ KamaSutra_mapping key !! v = Some k.
Proof.
  intros Hnd Heven Hk. apply list_elem_of_lookup in Hk as [i Hi].
  assert (Hlt : (i < length key)%nat) by (eapply lookup_lt_Some; eauto).
  set (n := len key) in *. assert (Hn : n = Z.of_nat (length key)) by done.
  assert (Hhalf : n = 2 * (n / 2)).
  { apply Zeven_bool_iff, Zeven_div2 in Heven. rewrite Z.div2_div in Heven. lia. }
  assert (Hpos : 0 < n) by lia.
  pose proof (Z.mod_pos_bound (Z.of_nat i + n / 2) n Hpos) as Hb.
  set (i' := Z.to_nat ((Z.of_nat i + n / 2) mod n)) in *.
  destruct (key !! i') as [v|] eqn:Hv; [|apply lookup_ge_None in Hv; lia].
  exists v. split; [apply list_elem_of_lookup; eauto|]. split.
  - rewrite (KamaSutra_lookup key i) by done. done.
  - rewrite (KamaSutra_lookup key i') by done. fold n.
    rewrite <- Hi. f_equal. unfold i'. rewrite Z2Nat.id by lia.
    rewrite Zplus_mod_idemp_l.
    replace (Z.of_nat i + n / 2 + n / 2) with (Z.of_nat i + 1 * n) by lia.
    rewrite Z.mod_add by lia. rewrite Z.mod_small by lia. lia.
Qed.

Lemma KamaSutra_involution (key : str) (text : str) :
  key ≡ₚ ascii_lowercase →
  mono_encrypt (KamaSutra key) (mono_encrypt (KamaSutra key) text) = text.
Proof.
  intros Hperm. unfold mono_encrypt. rewrite map_map.
  assert (Hnd : NoDup key).
  { rewrite Hperm. refine (bool_decide_unpack _ _). vm_compute. exact I. }
  assert (Heven : Z.even (len key) = true).
  { unfold len. by rewrite Hperm. }
  assert (Hlow : ∀ x, x ∈ key → islower x = true).
  { intros x. rewrite Hperm. revert x. apply Forall_forall.
    refine (bool_decide_unpack _ _). vm_compute. exact I. }
  induction text as [|c text IH]; [reflexivity|].
  cbn [map]. rewrite IH. f_equal. clear IH.
  cbn [KamaSutra encrypt_mapping].
  destruct (decide (lower c ∈ key)) as [Hin|Hout].
  - destruct (KamaSutra_mapping_swap key (lower c)) as (v & Hv & H1 & H2); try done.
    destruct (islower_facts v (Hlow v Hv)) as (Hv1 & Hv2 & Hv3 & Hv4).
    destruct (isupper_facts c) as [Hc1 Hc2].
    unfold substitute at 2. rewrite H1. simpl.
    unfold substitute. destruct (isupper c) eqn:Hc.
    + rewrite Hv3, H2, Hv4. simpl. by apply Hc1.
    + rewrite !Hv1, H2, Hv2. simpl. by rewrite !Hc2.
  - rewrite (substitute_absent _ c) by (by apply KamaSutra_lookup_None).
    apply substitute_absent. by apply KamaSutra_lookup_None.
Qed.

(** ** Lists without duplicates built by [append_new] *)

Lemma append_new_elem_of (m s : str) (x : ascii) :
  x ∈ append_new m s ↔ x ∈ m ∨ x ∈ s.
Proof.
  revert m. induction s as [|c s IH]; intros m; cbn [append_new].
  - rewrite elem_of_nil. tauto.
  - destruct (decide (c ∈ m)) as [Hc|Hc]; rewrite IH, elem_of_cons.
    + split; [tauto|]. intros [?|[->|?]]; tauto.
    + rewrite elem_of_app, list_elem_of_singleton. tauto.
Qed.

Lemma append_new_NoDup (m s : str) : NoDup m → NoDup (append_new m s).
Proof.
  revert m. induction s as [|c s IH]; intros m Hm; cbn [append_new]; [done|].
  destruct (decide (c ∈ m)) as [Hc|Hc]; apply IH; [done|].
  apply NoDup_app. split; [done|]. split; [|apply NoDup_singleton].
  intros x Hx ->%list_elem_of_singleton. done.
Qed.

(** ** [index] and [getitem] *)

Lemma index_from_lookup (s : str) (c : ascii) (k : Z) (i : nat) :
  NoDup s → s !! i = Some c → index_from c s k = Ok (k + Z.of_nat i).
Proof.
  revert k i. induction s as [|d s IH]; intros k i Hnd Hi; [done|].
  apply NoDup_cons in Hnd as [Hd Hnd]. cbn [index_from].
  destruct i as [|i]; cbn in Hi.
  - injection Hi as ->. rewrite decide_True by done. f_equal. lia.
  - rewrite decide_False.
    + rewrite (IH (k + 1) i) by done. f_equal. lia.
    + intros ->. apply Hd. apply list_elem_of_lookup. eauto.
Qed.

Lemma index_lookup (s : str) (c : ascii) (i : nat) :
  NoDup s → s !! i = Some c → index s c = Ok (Z.of_nat i).
Proof. intros. unfold index. by rewrite (index_from_lookup s c 0 i). Qed.

Lemma index_from_absent (s : str) (c : ascii) (k : Z) :
  c ∉ s → ∃ e, index_from c s k = Raise e.
Proof.
  revert k. induction s as [|d s IH]; intros k Hc; cbn [index_from]; [eauto|].
  apply not_elem_of_cons in Hc as [Hne Hc].
  rewrite decide_False by done. by apply IH.
Qed.

Lemma getitem_lookup {A} (s : list A) (i : nat) (x : A) :
  s !! i = Some x → getitem s (Z.of_nat i) = Ok x.
Proof.
  intros Hi. pose proof (lookup_lt_Some _ _ _ Hi) as Hlt. unfold getitem.
  assert (E1 : (Z.of_nat i <? 0) = false) by (apply Z.ltb_ge; lia).
  assert (E2 : (Z.of_nat (length s) <=? Z.of_nat i) = false) by (apply Z.leb_gt; lia).
  cbv zeta. rewrite !E1, E2. cbn [orb]. by rewrite Nat2Z.id, Hi.
Qed.

(** ** Coordinate squares *)

Lemma Polybius_new_wf (seed alphabet : str) (p : Polybius) :
  Polybius_new seed alphabet = Ok p →
  Polybius_wf p ∧ contents p = append_new [] (seed ++ alphabet).
Proof.
  unfold Polybius_new. intros H.
  destruct (decide _) as [Hsq|]; [|done].
  injection H as <-. cbn [contents side]. split; [|done].
  split; [apply append_new_NoDup, NoDup_nil_2|]. split; [done|].
  apply Z.sqrt_nonneg.
Qed.

Lemma Polybius_coords_char (p : Polybius) (x : ascii) :
  Polybius_wf p → x ∈ contents p →
  ∃ r c, Polybius_coords p x = Ok (r, c)
         ∧ 0 <= r < side p ∧ 0 <= c < side p
         ∧ Polybius_char p (r, c) = Ok x.
Proof.
  intros (Hnd & Hsq & Hpos) Hx. apply list_elem_of_lookup in Hx as [i Hi].
  pose proof (lookup_lt_Some _ _ _ Hi) as Hlt. unfold len in Hsq.
  assert (HL : 0 < side p) by nia.
  exists (Z.of_nat i / side p), (Z.of_nat i mod side p).
  pose proof (Z.mod_pos_bound (Z.of_nat i) (side p) HL) as Hm.
  pose proof (Z.div_mod (Z.of_nat i) (side p) ltac:(lia)) as Hdm.
  assert (Hd : 0 <= Z.of_nat i / side p < side p).
  { split; [apply Z.div_pos; lia|]. apply Z.div_lt_upper_bound; nia. }
  split; [unfold Polybius_coords; by rewrite (index_lookup _ _ i)|].
  split; [done|]. split; [done|].
  unfold Polybius_char. rewrite decide_True by done.
  replace (Z.to_nat _) with i by lia. by rewrite Hi.
Qed.

Lemma Polybius_char_coords (p : Polybius) (r c : Z) :
  Polybius_wf p → 0 <= r < side p → 0 <= c < side p →
  ∃ x, Polybius_char p (r, c) = Ok x ∧ x ∈ contents p
       ∧ Polybius_coords p x = Ok (r, c).
Proof.
  intros (Hnd & Hsq & Hpos) Hr Hc. unfold len in Hsq.
  unfold Polybius_char. rewrite decide_True by done.
  destruct (contents p !! Z.to_nat (r * side p + c)) as [x|] eqn:Hx;
    [|apply lookup_ge_None in Hx; nia].
  exists x. split; [done|]. split; [apply list_elem_of_lookup; eauto|].
  unfold Polybius_coords. rewrite (index_lookup _ _ _ Hnd Hx).
  rewrite Z2Nat.id by nia. f_equal. f_equal.
  - rewrite Z.div_add_l by lia. rewrite Z.div_small by lia. lia.
  - rewrite Z.add_comm, Z.mod_add by lia. apply Z.mod_small. lia.
Qed.

Lemma Polybius_coords_absent (p : Polybius) (x : ascii) :
  x ∉ contents p → Polybius_coords p x = Raise KeyError.
Proof.
  intros Hx. unfold Polybius_coords, index.
  by destruct (index_from_absent _ _ 0 Hx) as [e ->].
Qed.

(** ** TwoSquare *)

Lemma pair_ind {A} (P : list A → Prop) :
  P [] → (∀ a, P [a]) → (∀ a b l, P l → P (a :: b :: l)) → ∀ l, P l.
Proof.
  intros H0 H1 H2 l. enough (P l ∧ ∀ a, P (a :: l)) by tauto.
  induction l as [|b l [IH1 IH2]]; [auto|]. split; [apply IH2|].
  intros a. by apply H2.
Qed.

Lemma TwoSquare_new_inv (keys : Polybius * Polybius) (h : bool) (C : TwoSquare) :
  TwoSquare_new keys h = Ok C →
  ts_keys C = keys ∧ ts_horizontal C = h
  ∧ ∀ x, x ∈ contents keys.1 ↔ x ∈ contents keys.2.
Proof.
  unfold TwoSquare_new. destruct (decide _) as [Heq|]; [|done].
  intros [= <-]. split; [done|]. split; [done|]. intros x.
  rewrite <- (elem_of_list_to_set (C:=gset ascii) x (contents keys.1)).
  rewrite Heq. apply elem_of_list_to_set.
Qed.

Lemma same_side (p q : Polybius) :
  Polybius_wf p → Polybius_wf q →
  (∀ x, x ∈ contents p ↔ x ∈ contents q) → side p = side q.
Proof.
  intros (Hp & Hsp & Hp0) (Hq & Hsq & Hq0) Hpq.
  assert (Hlen : length (contents p) = length (contents q)).
  { apply Permutation_length. by apply NoDup_Permutation. }
  unfold len in *. nia.
Qed.

#[local] Arguments Polybius_char : simpl never.
#[local] Arguments Polybius_coords : simpl never.

Section TwoSquare_pair.
Context (C : TwoSquare).
Hypothesis wf1 : Polybius_wf (ts_keys C).1.
Hypothesis wf2 : Polybius_wf (ts_keys C).2.
Hypothesis sides : side (ts_keys C).1 = side (ts_keys C).2.

Lemma TwoSquare_pair_involution (a b : ascii) :
  a ∈ contents (ts_keys C).1 → b ∈ contents (ts_keys C).2 →
  ∃ x y, TwoSquare_pair C (a, b) = Ok [x; y]
         ∧ x ∈ contents (ts_keys C).1 ∧ y ∈ contents (ts_keys C).2
         ∧ TwoSquare_pair C (x, y) = Ok [a; b].
Proof.
  intros Ha Hb.
  destruct (Polybius_coords_char _ a wf1 Ha) as (r1 & c1 & Ea & Hr1 & Hc1 & Ea').
  destruct (Polybius_coords_char _ b wf2 Hb) as (r2 & c2 & Eb & Hr2 & Hc2 & Eb').
  unfold TwoSquare_pair at 1. rewrite Ea, Eb. cbn.
  destruct (ts_horizontal C) eqn:Hh.
  - destruct (decide (r1 = r2)) as [->|Hne].
    + exists a, b. repeat split; try done.
      unfold TwoSquare_pair. rewrite Ea, Eb. cbn. rewrite ?Hh. by rewrite decide_True.
    + destruct (Polybius_char_coords _ r2 c1 wf1) as (x & Ex & Hx & Ex'); [lia..|].
      destruct (Polybius_char_coords _ r1 c2 wf2) as (y & Ey & Hy & Ey'); [lia..|].
      exists x, y. rewrite Ex, Ey. cbn. repeat split; try done.
      unfold TwoSquare_pair. rewrite Ex', Ey'. cbn. rewrite ?Hh.
      rewrite decide_False by done. by rewrite Ea', Eb'.
  - destruct (decide (c1 = c2)) as [->|Hne].
    + exists a, b. repeat split; try done.
      unfold TwoSquare_pair. rewrite Ea, Eb. cbn. rewrite ?Hh. by rewrite decide_True.
    + destruct (Polybius_char_coords _ r1 c2 wf1) as (x & Ex & Hx & Ex'); [lia..|].
      destruct (Polybius_char_coords _ r2 c1 wf2) as (y & Ey & Hy & Ey'); [lia..|].
      exists x, y. rewrite Ex, Ey. cbn. repeat split; try done.
      unfold TwoSquare_pair. rewrite Ex', Ey'. cbn. rewrite ?Hh.
      rewrite decide_False by done. by rewrite Ea', Eb'.
Qed.

Lemma TwoSquare_encrypt_cons2 (a b : ascii) (text : str) :
  TwoSquare_encrypt C (a :: b :: text)
  = (ab ← TwoSquare_pair C (a, b);
     rest ← TwoSquare_encrypt C text;
     mret (ab ++ rest)).
Proof.
  unfold TwoSquare_encrypt. cbn [pairwise mapM].
  assert (Hlen : len (a :: b :: text) mod 2 = len text mod 2).
  { unfold len. cbn [length]. rewrite !Nat2Z.inj_succ.
    replace (Z.succ (Z.succ (Z.of_nat (length text))))
      with (Z.of_nat (length text) + 1 * 2) by lia.
    apply Z.mod_add. lia. }
  rewrite Hlen.
  assert (Hlast : len text mod 2 = 1 → last (a :: b :: text) = last text).
  { destruct text; [done|]. done. }
  destruct (decide (len text mod 2 = 1)) as [Hodd|Hev];
    [rewrite (Hlast Hodd)|];
    (destruct (TwoSquare_pair C (a, b)) as [ab|e]; [|done]; cbn;
     destruct (mapM (TwoSquare_pair C) (pairwise text)) as [cs|e]; [|done]; cbn;
     by rewrite <- app_assoc).
Qed.

Lemma TwoSquare_encrypt_involution (text : str) :
  Forall (λ c, c ∈ contents (ts_keys C).1) text →
  (∀ x, x ∈ contents (ts_keys C).1 ↔ x ∈ contents (ts_keys C).2) →
  ∃ cipher, TwoSquare_encrypt C text = Ok cipher
            ∧ Forall (λ c, c ∈ contents (ts_keys C).1) cipher
            ∧ TwoSquare_encrypt C cipher = Ok text.
Proof.
  intros Htext Hsame. induction text as [|a|a b text IH] using pair_ind.
  - exists []. done.
  - exists [a]. done.
  - apply Forall_cons in Htext as [Ha Htext].
    apply Forall_cons in Htext as [Hb Htext].
    destruct (IH Htext) as (rest & E1 & Hrest & E2).
    destruct (TwoSquare_pair_involution a b) as (x & y & Exy & Hx & Hy & Eab);
      [done|by apply Hsame|].
    exists (x :: y :: rest). rewrite !TwoSquare_encrypt_cons2.
    rewrite Exy, E1, Eab, E2. cbn. split; [done|]. split; [|done].
    apply Forall_cons. split; [done|]. apply Forall_cons. split; [|done].
    by apply Hsame.
Qed.
End TwoSquare_pair.

Lemma TwoSquare_involution (seed1 alphabet1 seed2 alphabet2 : str)
      (k1 k2 : Polybius) (horizontal : bool) (C : TwoSquare) (text : str) :
  Polybius_new seed1 alphabet1 = Ok k1 →
  Polybius_new seed2 alphabet2 = Ok k2 →
  TwoSquare_new (k1, k2) horizontal = Ok C →
  Forall (λ c, c ∈ contents k1) text →
  ∃ cipher, TwoSquare_encrypt C text = Ok cipher
            ∧ TwoSquare_encrypt C cipher = Ok text.
Proof.
  intros H1 H2 HC Htext.
  apply Polybius_new_wf in H1 as [wf1 _]. apply Polybius_new_wf in H2 as [wf2 _].
  apply TwoSquare_new_inv in HC as (Hk & _ & Hsame). cbn [fst snd] in Hsame.
  destruct (TwoSquare_encrypt_involution C) with (text := text)
    as (cipher & E1 & _ & E2); rewrite ?Hk; cbn [fst snd]; try done.
  - by apply same_side.
  - eauto.
Qed.

(** ** Playfair *)

Lemma single_letter_Some (alphabet s : str) (c : ascii) :
  single_letter alphabet s = Some c → s = [c] ∧ c ∈ alphabet.
Proof.
  destruct s as [|x [|y s]]; cbn; try done.
  destruct (decide (x ∈ alphabet)); [|done]. by intros [= <-].
Qed.

Lemma ascii_lowercase_NoDup : NoDup ascii_lowercase.
Proof. refine (bool_decide_unpack _ _). vm_compute. exact I. Qed.

Lemma ascii_lowercase_islower (c : ascii) : c ∈ ascii_lowercase → islower c = true.
Proof.
  revert c. apply Forall_forall. refine (bool_decide_unpack _ _). vm_compute. exact I.
Qed.

Lemma Playfair_new_wf (key breaker padding : str) (omitted : list (ascii * str))
      (P : Playfair) :
  Playfair_new key breaker padding omitted = Ok P → Playfair_wf P.
Proof.
  unfold Playfair_new.
  set (om := dict _). set (alphabet := filter _ ascii_lowercase).
  destruct (bool_decide (len alphabet ≠ 25)) eqn:Hlen; [done|]. cbn [orb].
  destruct (existsb _ _); [done|].
  destruct (single_letter alphabet breaker) as [b|] eqn:Hb; [|done].
  destruct (single_letter alphabet padding) as [p|] eqn:Hp; [|done].
  set (key' := filter _ (map lower key)).
  destruct (Polybius_new key' alphabet) as [pb|] eqn:Hpb; [|done].
  cbv [mbind mret result_bind result_ret]. intros [= <-]. unfold Playfair_wf.
  cbn [pf_alphabet pf_omitted pf_breaker pf_padding pf_polybius].
  apply bool_decide_eq_false in Hlen. assert (Hlen' : len alphabet = 25)
    by (destruct (decide (len alphabet = 25)); [done|by exfalso; apply Hlen]).
  apply single_letter_Some in Hb as [_ Hb]. apply single_letter_Some in Hp as [_ Hp].
  apply Polybius_new_wf in Hpb as [Hwf Hcont].
  assert (Hnd : NoDup alphabet) by apply NoDup_filter, ascii_lowercase_NoDup.
  assert (Hsame : ∀ c, c ∈ contents pb ↔ c ∈ alphabet).
  { intros c. rewrite Hcont, append_new_elem_of, elem_of_nil, elem_of_app.
    unfold key'. rewrite list_elem_of_filter. tauto. }
  split; [done|]. split.
  { intros c [Hc Hl]%list_elem_of_filter. split; [done|].
    by apply islower_facts, ascii_lowercase_islower. }
  split; [done|]. split; [done|]. split; [done|]. split; [|done].
  destruct Hwf as (Hndc & Hsq & Hpos).
  assert (length (contents pb) = length alphabet)
    by (apply Permutation_length; by apply NoDup_Permutation).
  unfold len in *. nia.
Qed.

Lemma mapM_Ok_Forall {A B} (f : A → result B) (l : list A) :
  Forall (λ x, ∃ y, f x = Ok y) l → ∃ ys, mapM f l = Ok ys.
Proof.
  induction 1 as [|x l [y Hy] _ [ys IH]]; [by exists []|].
  exists (y :: ys). cbn. by rewrite Hy, IH.
Qed.

Lemma join_generated_Raised {A} (f : A → result str) (ys : list A) (e : exn) :
  is_Raise (join_generated f (ys, Raised e)).
Proof.
  unfold join_generated, is_Raise. cbn.
  destruct (mapM f ys); cbn; eauto.
Qed.

Lemma join_generated_Exhausted {A} (f : A → result str) (ys : list A) :
  Forall (λ x, ∃ y, f x = Ok y) ys → is_Ok (join_generated f (ys, Exhausted)).
Proof.
  intros [parts H]%mapM_Ok_Forall. unfold join_generated, is_Ok. cbn.
  rewrite H. cbn. eauto.
Qed.

Lemma is_Ok_not_Raise {A} (r : result A) : is_Ok r → ¬ is_Raise r.
Proof. intros [a ->] [e ?]. done. Qed.

Lemma cipher_pairs_loop_identical (ps : list (str * str)) :
  Exists (λ ab, ab.1 = ab.2) ps →
  ∃ ys, cipher_pairs_loop ps = (ys, Raised (ValueError "Invalid ciphertext!")).
Proof.
  induction ps as [|[a b] ps IH]; intros H; [by apply Exists_nil in H|].
  cbn [cipher_pairs_loop]. destruct (decide (a = b)) as [|Hne]; [eauto|].
  apply Exists_cons in H as [H|H]; [done|].
  destruct (IH H) as [ys ->]. eauto.
Qed.

Lemma cipher_pairs_loop_distinct (ps : list (str * str)) :
  ¬ Exists (λ ab, ab.1 = ab.2) ps → cipher_pairs_loop ps = (ps, Exhausted).
Proof.
  induction ps as [|[a b] ps IH]; intros H; [done|].
  cbn [cipher_pairs_loop]. rewrite decide_False by (intros ?; apply H; by left).
  rewrite IH; [done|]. intros ?; apply H; by right.
Qed.

Lemma Playfair_polyb_total (P : Playfair) (decrypt : bool) (a b : ascii) :
  Playfair_wf P → a ∈ pf_alphabet P → b ∈ pf_alphabet P →
  ∃ s, Playfair_polyb P decrypt ([a], [b]) = Ok s.
Proof.
  intros (_ & _ & _ & _ & Hwf & Hside & Hsame) Ha Hb.
  apply Hsame in Ha, Hb.
  destruct (Polybius_coords_char _ a Hwf Ha) as (r1 & c1 & Ea & Hr1 & Hc1 & _).
  destruct (Polybius_coords_char _ b Hwf Hb) as (r2 & c2 & Eb & Hr2 & Hc2 & _).
  rewrite Hside in *.
  assert (Hchar : ∀ r c, 0 <= r < 5 → 0 <= c < 5 →
                         ∃ x, Polybius_char (pf_polybius P) (r, c) = Ok x).
  { intros r c Hr Hc.
    destruct (Polybius_char_coords _ r c Hwf) as (x & Hx & _); rewrite ?Hside; eauto. }
  assert (Hmod : ∀ z, 0 <= z mod 5 < 5) by (intros; apply Z.mod_pos_bound; lia).
  unfold Playfair_polyb. cbn [fst snd Polybius_coords_str]. rewrite Ea, Eb. cbn.
  destruct (decide (r1 ≠ r2 ∧ c1 ≠ c2)).
  - destruct (Hchar r1 c2) as [x ->]; [done..|].
    destruct (Hchar r2 c1) as [y ->]; [done..|]. cbn. eauto.
  - destruct (decide (r1 = r2)); [|destruct (decide (c1 = c2))]; destruct decrypt;
      match goal with
      | |- ∃ s, Polybius_char _ (?r, ?c) ≫= _ = _ =>
          destruct (Hchar r c) as [x ->]; [done..|]
      end; cbn;
      match goal with
      | |- ∃ s, Polybius_char _ (?r, ?c) ≫= _ = _ =>
          destruct (Hchar r c) as [y ->]; [done..|]
      end; cbn; eauto.
Qed.

Lemma pairwise_Forall {A} (Q : A → Prop) (l : list A) :
  Forall Q l → Forall (λ ab, Q ab.1 ∧ Q ab.2) (pairwise l).
Proof.
  induction l as [|a|a b l IH] using pair_ind; intros H; cbn; [done..|].
  apply Forall_cons in H as [Ha H]. apply Forall_cons in H as [Hb H].
  apply Forall_cons. auto.
Qed.

Lemma omit_alphabet (P : Playfair) (text : str) :
  Playfair_wf P → Forall (λ c, c ∈ pf_alphabet P) text →
  map (omit P) text = map (λ c, [c]) text.
Proof.
  intros (_ & Hom & _) H. induction H as [|c text Hc _ IH]; [done|].
  cbn [map]. rewrite IH. f_equal. unfold omit. by rewrite (proj1 (Hom c Hc)).
Qed.

Lemma pairwise_map {A B} (f : A → B) (l : list A) :
  pairwise (map f l) = map (λ ab, (f ab.1, f ab.2)) (pairwise l).
Proof.
  induction l as [|a|a b l IH] using pair_ind; cbn; [done..|]. by rewrite IH.
Qed.

(** C6 (Playfair decryption errors): [decrypt] raises on every ciphertext
    of odd length and on every ciphertext with a digraph of two identical
    letters (after the omitted letters are mapped); on a ciphertext over the
    25-letter alphabet of the cipher it raises in these two cases only, and
    returns a plaintext otherwise. *)
Theorem Playfair_decrypt_errors
        (key breaker padding : str) (omitted : list (ascii * str))
        (P : Playfair) (text : str) :
  Playfair_new key breaker padding omitted = Ok P →
  let identical := Exists (λ ab, ab.1 = ab.2) (pairwise (map (omit P) text)) in
  (len text mod 2 ≠ 0 →
   Playfair_decrypt P text = Raise (ValueError "Ciphertext of uneven length!"))
  ∧ (identical → is_Raise (Playfair_decrypt P text))
  ∧ (Forall (λ c, c ∈ pf_alphabet P) text →
     (is_Raise (Playfair_decrypt P text) ↔ len text mod 2 ≠ 0 ∨ identical)
     ∧ (¬ (len text mod 2 ≠ 0 ∨ identical) → is_Ok (Playfair_decrypt P text))).
Proof.
  intros HP identical. apply Playfair_new_wf in HP as Hwf.
  assert (Hodd : len text mod 2 ≠ 0 →
                 Playfair_decrypt P text = Raise (ValueError "Ciphertext of uneven length!")).
  { intros H. unfold Playfair_decrypt, Playfair_cipher_pairs.
    by rewrite decide_True. }
  assert (Hident : identical → is_Raise (Playfair_decrypt P text)).
  { intros H. unfold Playfair_decrypt, Playfair_cipher_pairs.
    destruct (decide _); [apply join_generated_Raised|].
    destruct (cipher_pairs_loop_identical _ H) as [ys ->].
    apply join_generated_Raised. }
  split; [done|]. split; [done|]. intros Htext.
  assert (Hok : ¬ (len text mod 2 ≠ 0 ∨ identical) → is_Ok (Playfair_decrypt P text)).
  { intros Hn. unfold Playfair_decrypt, Playfair_cipher_pairs.
    rewrite decide_False by tauto.
    rewrite cipher_pairs_loop_distinct by tauto.
    apply join_generated_Exhausted.
    rewrite (omit_alphabet P text Hwf Htext), pairwise_map.
    apply Forall_map. eapply Forall_impl; [apply pairwise_Forall, Htext|].
    intros [a b] [Ha Hb]. cbn [fst snd] in *.
    by apply Playfair_polyb_total. }
  split; [|done]. split.
  - intros Hr. destruct (decide (len text mod 2 ≠ 0)) as [|He]; [by left|].
    destruct (decide identical) as [|Hni]; [by right|].
    exfalso. eapply is_Ok_not_Raise; [|exact Hr]. apply Hok. tauto.
  - intros [H|H]; [|by apply Hident]. rewrite Hodd by done. by eexists.
Qed.

(** The loop [while b + b in text] ends within [length text] rounds. *)
Lemma replace_double_cons2 (b x y : ascii) (rest : str) :
  replace_double b (x :: y :: rest)
  = if bool_decide (x = b ∧ y = b) then b :: replace_double b rest
    else x :: replace_double b (y :: rest).
Proof. reflexivity. Qed.

Lemma has_double_cons2 (b x y : ascii) (rest : str) :
  has_double b (x :: y :: rest)
  = bool_decide (x = b ∧ y = b) || has_double b (y :: rest).
Proof. reflexivity. Qed.

Lemma replace_double_length (b : ascii) (text : str) :
  has_double b text = true →
  (length (replace_double b text) < length text)%nat.
Proof.
  enough (H : (length (replace_double b text) <= length text)%nat
              ∧ (has_double b text = true →
                 (length (replace_double b text) < length text)%nat)) by tauto.
  remember (length text) as n eqn:Hn. revert text Hn.
  induction n as [n IH] using lt_wf_ind. intros text ->.
  destruct text as [|x [|y rest]]; [cbn; split; [lia|done]..|].
  rewrite replace_double_cons2, has_double_cons2.
  destruct (bool_decide (x = b ∧ y = b)) eqn:Hxy; cbn [orb length].
  - destruct (IH (length rest) ltac:(cbn; lia) rest eq_refl) as [IH1 _].
    split; [lia|]. intros _. lia.
  - destruct (IH (length (y :: rest)) ltac:(cbn; lia) (y :: rest) eq_refl) as [IH1 IH2].
    cbn [length] in IH1, IH2. split; [lia|]. intros H. specialize (IH2 H). lia.
Qed.

Lemma collapse_breakers_done (fuel : nat) (b : ascii) (text : str) :
  (length text <= fuel)%nat → has_double b (collapse_breakers fuel b text) = false.
Proof.
  revert text. induction fuel as [|fuel IH]; intros text Hlen.
  - destruct text; [done|cbn in Hlen; lia].
  - cbn [collapse_breakers]. destruct (has_double b text) eqn:Hd; [|done].
    apply IH. apply replace_double_length in Hd. lia.
Qed.

Lemma Playfair_plain_letters (P : Playfair) (text : str) :
  Playfair_wf P →
  Playfair_plain P text = Playfair_letters P text ++ [pf_padding P].
Proof.
  intros (_ & Hal & _ & Hpad & _). unfold Playfair_plain, Playfair_letters.
  change (map lower ?l) with (lower <$> l).
  rewrite fmap_app, filter_app. f_equal. cbn [fmap list_fmap].
  rewrite (proj2 (Hal _ Hpad)). rewrite filter_cons_True by done. done.
Qed.

Lemma plain_pairs_loop_spec (breaker padding : ascii) (letters : str) :
  (spec_leftover letters ≠ Some padding →
   plain_pairs_loop breaker None (letters ++ [padding])
   = (spec_pairs breaker padding letters, Exhausted))
  ∧ (∀ b, spec_leftover (b :: letters) ≠ Some padding →
          plain_pairs_loop breaker (Some b) (letters ++ [padding])
          = (spec_pairs breaker padding (b :: letters), Exhausted)).
Proof.
  remember (length letters) as n eqn:Hn. revert letters Hn.
  induction n as [n IH] using lt_wf_ind. intros letters ->.
  assert (IHN : ∀ l, (length l < length letters)%nat →
     spec_leftover l ≠ Some padding →
     plain_pairs_loop breaker None (l ++ [padding])
     = (spec_pairs breaker padding l, Exhausted)).
  { intros l Hl. by apply (IH (length l) Hl l eq_refl). }
  assert (IHS : ∀ l b, (length l < length letters)%nat →
     spec_leftover (b :: l) ≠ Some padding →
     plain_pairs_loop breaker (Some b) (l ++ [padding])
     = (spec_pairs breaker padding (b :: l), Exhausted)).
  { intros l b Hl. by apply (IH (length l) Hl l eq_refl). }
  clear IH. split.
  - intros Hlast. destruct letters as [|a [|b rest]].
    + done.
    + cbn. rewrite !decide_False by (intros ->; by apply Hlast). done.
    + cbn [app plain_pairs_loop spec_pairs]. cbn [spec_leftover] in Hlast.
      destruct (decide (a = b)) as [->|Hne].
      * rewrite IHS; [done|cbn; lia|done].
      * rewrite IHN; [done|cbn; lia|done].
  - intros b Hlast. destruct letters as [|c rest].
    + cbn. rewrite !decide_False by (intros ->; by apply Hlast). done.
    + cbn [app plain_pairs_loop spec_pairs]. cbn [spec_leftover] in Hlast.
      destruct (decide (c = b)) as [->|Hne].
      * rewrite decide_True in Hlast by done. rewrite decide_True by done.
        rewrite IHS; [done|cbn; lia|done].
      * rewrite decide_False in Hlast by done. rewrite decide_False by done.
        rewrite IHN; [done|cbn; lia|done].
Qed.

(** When the letter left over is the padding letter, the loop runs off the
    end of its iterator. *)
Lemma plain_pairs_loop_leak (breaker padding : ascii) (letters : str) :
  (spec_leftover letters = Some padding →
   (plain_pairs_loop breaker None (letters ++ [padding])).2
   = Raised StopIteration)
  ∧ (∀ b, spec_leftover (b :: letters) = Some padding →
          (plain_pairs_loop breaker (Some b) (letters ++ [padding])).2
          = Raised StopIteration).
Proof.
  remember (length letters) as n eqn:Hn. revert letters Hn.
  induction n as [n IH] using lt_wf_ind. intros letters ->.
  assert (IHN : ∀ l, (length l < length letters)%nat →
     spec_leftover l = Some padding →
     (plain_pairs_loop breaker None (l ++ [padding])).2 = Raised StopIteration).
  { intros l Hl. by apply (IH (length l) Hl l eq_refl). }
  assert (IHS : ∀ l b, (length l < length letters)%nat →
     spec_leftover (b :: l) = Some padding →
     (plain_pairs_loop breaker (Some b) (l ++ [padding])).2
     = Raised StopIteration).
  { intros l b Hl. by apply (IH (length l) Hl l eq_refl). }
  clear IH. split.
  - intros Hlast. destruct letters as [|a [|b rest]].
    + done.
    + injection Hlast as ->. cbn. by rewrite !decide_True.
    + cbn [app plain_pairs_loop]. cbn [spec_leftover] in Hlast.
      destruct (decide (a = b)) as [->|Hne].
      * specialize (IHS rest b ltac:(cbn; lia) Hlast).
        destruct (plain_pairs_loop breaker (Some b) (rest ++ [padding])). done.
      * specialize (IHN rest ltac:(cbn; lia) Hlast).
        destruct (plain_pairs_loop breaker None (rest ++ [padding])). done.
  - intros b Hlast. destruct letters as [|c rest].
    + injection Hlast as ->. cbn. by rewrite !decide_True.
    + cbn [app plain_pairs_loop]. cbn [spec_leftover] in Hlast.
      destruct (decide (c = b)) as [->|Hne].
      * rewrite decide_True in Hlast by done.
        specialize (IHS rest b ltac:(cbn; lia) Hlast).
        destruct (plain_pairs_loop breaker (Some b) (rest ++ [padding])). done.
      * rewrite decide_False in Hlast by done.
        specialize (IHN rest ltac:(cbn; lia) Hlast).
        destruct (plain_pairs_loop breaker None (rest ++ [padding])). done.
Qed.

Lemma spec_pairs_Forall (Q : ascii → Prop) (breaker padding : ascii) (letters : str) :
  Q breaker → Q padding → Forall Q letters →
  Forall (λ ab, Q ab.1 ∧ Q ab.2) (spec_pairs breaker padding letters).
Proof.
  intros Hb Hp. remember (length letters) as n eqn:Hn. revert letters Hn.
  induction n as [n IH] using lt_wf_ind. intros letters -> Hl.
  destruct letters as [|a [|b rest]]; cbn [spec_pairs]; [done| |].
  - apply Forall_cons in Hl as [Ha _]. by repeat constructor.
  - apply Forall_cons in Hl as [Ha Hl]. pose proof Hl as Hl'.
    apply Forall_cons in Hl' as [Hb' Hrest].
    destruct (decide (a = b)); constructor; try done.
    + by apply (IH (length (b :: rest)) ltac:(cbn; lia) (b :: rest) eq_refl).
    + by apply (IH (length rest) ltac:(cbn; lia) rest eq_refl).
Qed.

(** The digraphs of [__plain_pairs] and the rule of the spec. The rule is
    applied to [Playfair_letters]: the letters that remain once the omitted
    letters are mapped and a run of breakers is reduced to a single one.
    Unless the letter left over for the final digraph is the padding letter
    itself, the digraphs that [encrypt] enciphers are those of the rule: a
    pair of two identical letters is broken up by the breaker and pairing
    resumes at the second letter, and a last single letter is completed by
    the padding letter; the enciphering of these digraphs succeeds and is
    what [encrypt] returns. *)
Lemma Playfair_plain_pairs_spec
        (key breaker padding : str) (omitted : list (ascii * str))
        (P : Playfair) (text : str) :
  Playfair_new key breaker padding omitted = Ok P →
  spec_leftover (Playfair_letters P text) ≠ Some (pf_padding P) →
  let digraphs :=
    spec_pairs (pf_breaker P) (pf_padding P) (Playfair_letters P text) in
  Playfair_plain_pairs P text = (digraphs, Exhausted)
  ∧ ∃ parts, mapM (Playfair_polyb P false) (map (λ ab, ([ab.1], [ab.2])) digraphs)
             = Ok parts
             ∧ Playfair_encrypt P text = Ok (concat parts).
Proof.
  intros HP Hlast digraphs. apply Playfair_new_wf in HP as Hwf.
  assert (E : Playfair_plain_pairs P text = (digraphs, Exhausted)).
  { unfold Playfair_plain_pairs. rewrite Playfair_plain_letters by done.
    by apply plain_pairs_loop_spec. }
  split; [done|].
  destruct (mapM_Ok_Forall (Playfair_polyb P false)
              (map (λ ab, ([ab.1], [ab.2])) digraphs)) as [parts Hparts].
  { apply Forall_map. destruct Hwf as (? & ? & Hb & Hp & ?).
    eapply Forall_impl.
    - apply (spec_pairs_Forall (λ c, c ∈ pf_alphabet P)); [done..|].
      unfold Playfair_letters. apply Forall_forall. intros c Hc.
      by apply list_elem_of_filter in Hc as [Hc _].
    - intros [a b] [Ha Hb']. by apply Playfair_polyb_total. }
  exists parts. split; [done|].
  unfold Playfair_encrypt. rewrite E. unfold join_generated. cbn [fst snd].
  rewrite Hparts. done.
Qed.

(** When the letter left over is the padding letter itself, the generator
    ends on a [StopIteration] and [encrypt] raises instead of returning. *)
Lemma Playfair_plain_pairs_leak
      (key breaker padding : str) (omitted : list (ascii * str))
      (P : Playfair) (text : str) :
  Playfair_new key breaker padding omitted = Ok P →
  spec_leftover (Playfair_letters P text) = Some (pf_padding P) →
  (Playfair_plain_pairs P text).2 = Raised StopIteration
  ∧ is_Raise (Playfair_encrypt P text).
Proof.
  intros HP Hleft. apply Playfair_new_wf in HP as Hwf.
  assert (E : (Playfair_plain_pairs P text).2 = Raised StopIteration).
  { unfold Playfair_plain_pairs. rewrite Playfair_plain_letters by done.
    by apply plain_pairs_loop_leak. }
  split; [done|]. unfold Playfair_encrypt.
  destruct (Playfair_plain_pairs P text) as [ps e]. cbn [snd] in E. subst e.
  apply join_generated_Raised.
Qed.

(** ** Slices *)

Lemma slice_nonneg {A} (s : list A) (lo hi : Z) :
  0 <= lo <= hi → hi <= len s →
  slice s lo hi = take (Z.to_nat hi - Z.to_nat lo) (drop (Z.to_nat lo) s).
Proof.
  intros Hlo Hhi. unfold slice, clamp.
  assert (E1 : (lo <? 0) = false) by (apply Z.ltb_ge; lia).
  assert (E2 : (hi <? 0) = false) by (apply Z.ltb_ge; lia).
  rewrite E1, E2. rewrite !Z.min_l by lia. f_equal. lia.
Qed.

(** ** Columns: [text[i::n]] and [zip] of the columns *)

Lemma every_app_ge {A} (n k : nat) (l rest : list A) :
  (length l <= k)%nat → every n k (l ++ rest) = every n (k - length l) rest.
Proof.
  revert k. induction l as [|x l IH]; intros k Hk; cbn [length app].
  - by rewrite Nat.sub_0_r.
  - destruct k as [|k]; [cbn in Hk; lia|]. cbn [every length] in *.
    apply IH. lia.
Qed.

Lemma every_app_row {A} (n i : nat) (row rest : list A) (x : A) :
  length row = n → row !! i = Some x →
  every n i (row ++ rest) = x :: every n i rest.
Proof.
  intros Hlen Hi. pose proof (lookup_lt_Some _ _ _ Hi) as Hlt.
  assert (G : ∀ (l : list A) k, l !! k = Some x →
              every n k (l ++ rest) = x :: every n (n - 1) (drop (S k) l ++ rest)).
  { induction l as [|y l IH]; intros k Hk; [done|].
    destruct k as [|k]; cbn in Hk.
    - injection Hk as ->. done.
    - cbn [app every drop]. by apply IH. }
  rewrite (G row i Hi). f_equal. rewrite every_app_ge by (rewrite length_drop; lia).
  f_equal. rewrite length_drop. lia.
Qed.

Lemma map_seq_zip_with_cons {A} (f g : nat → list A) (row : list A) (s : nat) :
  (∀ i x, row !! i = Some x → f (s + i)%nat = x :: g (s + i)%nat) →
  map f (seq s (length row)) = zip_with cons row (map g (seq s (length row))).
Proof.
  revert s. induction row as [|x row IH]; intros s H; [done|].
  cbn [length seq map zip_with]. f_equal.
  - rewrite <- (Nat.add_0_r s). by apply H.
  - apply IH. intros i y Hi. replace (S s + i)%nat with (s + S i)%nat by lia.
    by apply H.
Qed.

Lemma columns_of_app_row {A} (n : nat) (row rest : list A) :
  length row = n →
  columns_of n (row ++ rest) = zip_with cons row (columns_of n rest).
Proof.
  intros <-. unfold columns_of, slice_step.
  apply (map_seq_zip_with_cons (λ i, every (length row) i (row ++ rest))
           (λ i, every (length row) i rest) row 0).
  intros i x Hi. by apply every_app_row.
Qed.

Lemma columns_of_length {A} (n : nat) (text : list A) :
  length (columns_of n text) = n.
Proof. unfold columns_of. by rewrite length_map, length_seq. Qed.

Lemma mapM_head_zip_with_cons {A} (row : list A) (cols : list (list A)) :
  length row = length cols →
  mapM head (zip_with cons row cols) = Some row
  ∧ map tail (zip_with cons row cols) = cols.
Proof.
  revert cols. induction row as [|x row IH]; intros [|c cols] Hlen; try done.
  cbn in Hlen. destruct (IH cols ltac:(lia)) as [IH1 IH2].
  cbn. rewrite IH1, IH2. done.
Qed.

Lemma split_row {A} (n R : nat) (text : list A) :
  length text = (n * S R)%nat →
  ∃ row rest, text = row ++ rest ∧ length row = n ∧ length rest = (n * R)%nat.
Proof.
  intros Hlen. exists (take n text), (drop n text).
  rewrite take_drop, length_take, length_drop. split; [done|]. split; lia.
Qed.

Lemma columns_of_Forall_length {A} (n R : nat) (text : list A) :
  length text = (n * R)%nat →
  Forall (λ c, length c = R) (columns_of n text).
Proof.
  revert text. induction R as [|R IH]; intros text Hlen.
  - rewrite Nat.mul_0_r in Hlen. apply nil_length_inv in Hlen as ->.
    unfold columns_of. apply Forall_map, Forall_forall. intros i _. done.
  - destruct (split_row n R text Hlen) as (row & rest & -> & Hrow & Hrest).
    rewrite columns_of_app_row by done. specialize (IH rest Hrest).
    assert (Hl : length row = length (columns_of n rest))
      by (by rewrite columns_of_length).
    revert Hl IH. generalize (columns_of n rest). clear.
    induction row as [|x row IHr]; intros [|c cols] Hl Hc; try done.
    apply Forall_cons in Hc as [Hc1 Hc2]. cbn. constructor; [cbn; lia|].
    apply IHr; [cbn in Hl; lia|done].
Qed.

Lemma zip_star_go_columns {A} (n R : nat) (text : list A) :
  length text = (n * R)%nat →
  concat (zip_star_go R (columns_of n text)) = text.
Proof.
  revert text. induction R as [|R IH]; intros text Hlen.
  - rewrite Nat.mul_0_r in Hlen. by apply nil_length_inv in Hlen as ->.
  - destruct (split_row n R text Hlen) as (row & rest & -> & Hrow & Hrest).
    rewrite columns_of_app_row by done. cbn [zip_star_go].
    destruct (mapM_head_zip_with_cons row (columns_of n rest)) as [-> ->];
      [by rewrite columns_of_length|].
    cbn [concat]. by rewrite IH.
Qed.

Lemma zip_star_columns {A} (n R : nat) (text : list A) :
  (1 <= n)%nat → length text = (n * R)%nat →
  concat (zip_star (columns_of n text)) = text.
Proof.
  intros Hn Hlen. pose proof (columns_of_Forall_length n R text Hlen) as Hf.
  pose proof (columns_of_length n text) as Hl.
  unfold zip_star. destruct (columns_of n text) as [|c cols] eqn:E; [cbn in Hl; lia|].
  apply Forall_cons in Hf as [-> _]. rewrite <- E. by apply zip_star_go_columns.
Qed.

(** ** Cutting a concatenation back into its pieces *)

Lemma chunks_concat {A} (R : nat) (ls : list (list A)) :
  Forall (λ c, length c = R) ls →
  map (λ i, take R (drop (i * R) (concat ls))) (seq 0 (length ls)) = ls.
Proof.
  induction 1 as [|l ls Hl _ IH]; [done|].
  cbn [length seq map concat]. f_equal.
  - rewrite Nat.mul_0_l, drop_0. by rewrite take_app_length'.
  - rewrite <- fmap_S_seq. change (map ?f (S <$> ?l)) with (map f (map S l)).
    rewrite map_map. rewrite <- IH at 2. apply map_ext. intros i.
    f_equal. replace (S i * R)%nat with (length l + i * R)%nat by lia.
    by rewrite drop_app_add.
Qed.

Lemma concat_length_uniform {A} (R : nat) (ls : list (list A)) :
  Forall (λ c, length c = R) ls → length (concat ls) = (length ls * R)%nat.
Proof.
  induction 1 as [|l ls Hl _ IH]; [done|]. cbn. rewrite length_app, IH. lia.
Qed.

(** ** Dictionaries built from [zip] *)

Lemma dict_zip_map {V} (ks : str) (g : ascii → V) (k : ascii) :
  NoDup ks → k ∈ ks → dict (zip ks (map g ks)) !! k = Some (g k).
Proof.
  intros Hnd [i Hi]%list_elem_of_lookup.
  apply (dict_zip_lookup ks (map g ks) i); [done|by rewrite length_map|done|].
  change (map g ks) with (g <$> ks). by rewrite list_lookup_fmap, Hi.
Qed.

Lemma dict_zip_repr {V} (ks : str) (vs : list V) (d : V) :
  NoDup ks → length ks = length vs →
  vs = map (λ k, default d (dict (zip ks vs) !! k)) ks.
Proof.
  intros Hnd Hlen. apply list_eq. intros i.
  change (map ?f ks) with (f <$> ks). rewrite list_lookup_fmap.
  destruct (ks !! i) as [k|] eqn:Hk; cbn.
  - destruct (vs !! i) as [v|] eqn:Hv.
    + by rewrite (dict_zip_lookup ks vs i k v).
    + apply lookup_ge_None in Hv. apply lookup_lt_Some in Hk. lia.
  - apply lookup_ge_None. apply lookup_ge_None in Hk. lia.
Qed.

Lemma mapM_dict_get {V} (d : gmap ascii V) (g : ascii → V) (l : str) :
  Forall (λ k, d !! k = Some (g k)) l → mapM (dict_get d) l = Ok (map g l).
Proof.
  induction 1 as [|k l Hk _ IH]; [done|].
  change (mapM (dict_get d) (k :: l))
    with (y ← dict_get d k; ys ← mapM (dict_get d) l; mret (y :: ys)).
  assert (E : dict_get d k = Ok (g k)) by (unfold dict_get; by rewrite Hk).
  rewrite E, IH. done.
Qed.

(** ** [rstrip] *)

Lemma rstrip_replicate (pad : ascii) (k : nat) : rstrip pad (replicate k pad) = [].
Proof. induction k as [|k IH]; [done|]. cbn. rewrite IH. by rewrite decide_True. Qed.

Lemma rstrip_app_pad (pad : ascii) (s : str) (k : nat) :
  rstrip pad (s ++ replicate k pad) = rstrip pad s.
Proof.
  induction s as [|c s IH]; cbn [app rstrip]; [apply rstrip_replicate|].
  by rewrite IH.
Qed.

Lemma rstrip_spec (pad : ascii) (s : str) :
  ∃ k, s = rstrip pad s ++ replicate k pad ∧ last (rstrip pad s) ≠ Some pad.
Proof.
  induction s as [|c s (k & IH1 & IH2)]; [by exists 0%nat|].
  cbn [rstrip]. destruct (rstrip pad s) as [|r rs] eqn:E.
  - destruct (decide (c = pad)) as [->|Hne].
    + exists (S k). split; [|done]. cbn. by rewrite IH1 at 1.
    + exists k. split; [by rewrite IH1 at 1|]. cbn. congruence.
  - exists k. split; [by rewrite IH1 at 1|]. done.
Qed.

(** ** Column *)

Lemma count_le_1_NoDup (key : str) :
  (∀ c, c ∈ key → count key c <= 1) → NoDup key.
Proof.
  induction key as [|c key IH]; intros H; [constructor|].
  assert (Hcount : ∀ d, count (c :: key) d
                        = (if decide (c = d) then 1 else 0) + count key d).
  { intros d. unfold count, len. rewrite filter_cons.
    destruct (decide (c = d)); cbn [length]; lia. }
  assert (Hpos : ∀ d, d ∈ key → 1 <= count key d).
  { intros d Hd. unfold count, len.
    assert (d ∈ filter (λ x, x = d) key) by (by apply list_elem_of_filter).
    destruct (filter (λ x, x = d) key); [by apply elem_of_nil in H0|cbn; lia]. }
  assert (Hnn : ∀ d, 0 <= count key d) by (intros; unfold count, len; lia).
  constructor.
  - intros Hc. specialize (H c ltac:(by left)). rewrite Hcount in H.
    rewrite decide_True in H by done. specialize (Hpos c Hc). lia.
  - apply IH. intros d Hd. specialize (H d ltac:(by right)). rewrite Hcount in H.
    destruct (decide (c = d)); specialize (Hnn d); lia.
Qed.

Lemma Column_new_inv (key pad : str) (C : Column) :
  Column_new key pad = Ok C →
  col_key C = key ∧ NoDup key ∧ (1 <= length key)%nat ∧ pad = [col_pad C].
Proof.
  unfold Column_new. destruct (decide (len key < 1)) as [|Hlen]; [done|].
  destruct (existsb _ key) eqn:Hex; [done|].
  destruct pad as [|p [|? ?]]; try done. intros [= <-]. cbn.
  split; [done|]. split; [|unfold len in Hlen; split; [lia|done]].
  apply count_le_1_NoDup. intros c Hc.
  destruct (decide (count key c <= 1)) as [|Hgt]; [done|].
  assert (existsb (λ c, bool_decide (count key c > 1)) key = true); [|congruence].
  apply existsb_exists. exists c. split; [by apply list_elem_of_In|].
  apply bool_decide_eq_true. lia.
Qed.

Lemma sorted_Permutation (key : str) : sorted key ≡ₚ key.
Proof. apply merge_sort_Permutation. Qed.

Section Column_rectangle.
Context (C : Column).
Hypothesis key_NoDup : NoDup (col_key C).
Hypothesis key_nonempty : (1 <= length (col_key C))%nat.

Local Abbreviation n := (length (col_key C)).

(** Encryption of a text whose length is a multiple of the key length. *)
Lemma Column_cipher_of_rectangle (text : str) (R : nat) :
  length text = (n * R)%nat →
  ∃ g : ascii → str,
    columns_of n text = map g (col_key C)
    ∧ mapM (dict_get (dict (zip (col_key C) (columns_of n text)))) (sorted (col_key C))
      = Ok (map g (sorted (col_key C)))
    ∧ Forall (λ k, length (g k) = R) (sorted (col_key C)).
Proof.
  intros Hlen.
  set (d := dict (zip (col_key C) (columns_of n text))).
  exists (λ k, default [] (d !! k)).
  assert (Hrepr : columns_of n text = map (λ k, default [] (d !! k)) (col_key C)).
  { apply dict_zip_repr; [done|]. by rewrite columns_of_length. }
  assert (Hin : ∀ k, k ∈ col_key C → d !! k = Some (default [] (d !! k))).
  { intros k Hk. unfold d at 1. rewrite Hrepr. by rewrite dict_zip_map. }
  split; [done|]. split.
  - apply mapM_dict_get, Forall_forall. intros k Hk. apply Hin.
    by rewrite <- (sorted_Permutation (col_key C)).
  - pose proof (columns_of_Forall_length n R text Hlen) as Hf.
    rewrite Hrepr in Hf. rewrite Forall_map in Hf.
    rewrite sorted_Permutation. exact Hf.
Qed.

Lemma Column_decrypt_rectangle (text : str) (R : nat) :
  length text = (n * R)%nat →
  ∃ cipher,
    mapM (dict_get (dict (zip (col_key C) (columns_of n text)))) (sorted (col_key C))
    = Ok cipher
    ∧ Column_decrypt C (concat cipher) = Ok (rstrip (col_pad C) text).
Proof.
  intros Hlen.
  destruct (Column_cipher_of_rectangle text R Hlen) as (g & Hcols & Hparts & Hlens).
  exists (map g (sorted (col_key C))). split; [done|].
  set (parts := map g (sorted (col_key C))).
  assert (Hplen : length parts = n).
  { unfold parts. rewrite length_map. apply Permutation_length, sorted_Permutation. }
  assert (Hpf : Forall (λ c, length c = R) parts).
  { unfold parts. by apply Forall_map. }
  assert (Hclen : length (concat parts) = (n * R)%nat).
  { rewrite (concat_length_uniform R) by done. by rewrite Hplen. }
  unfold Column_decrypt.
  assert (Hn : len (col_key C) = Z.of_nat n) by done.
  assert (Hlz : len (concat parts) = Z.of_nat n * Z.of_nat R) by (unfold len; lia).
  rewrite Hn, Hlz.
  rewrite decide_False by (rewrite Z.mul_comm, Z.mod_mul by lia; lia).
  rewrite (Z.mul_comm (Z.of_nat n)), Z.div_mul by lia.
  assert (Hchunks :
    map (λ i, slice (concat parts) (Z.of_nat i * Z.of_nat R)
                    ((Z.of_nat i + 1) * Z.of_nat R)) (seq 0 n) = parts).
  { transitivity (map (λ i, take R (drop (i * R) (concat parts))) (seq 0 n));
      [|rewrite <- Hplen; by apply chunks_concat].
    apply map_ext_in. intros i Hi%in_seq.
    rewrite slice_nonneg by (unfold len; nia).
    f_equal; [nia|f_equal; nia]. }
  rewrite Hchunks. unfold parts.
  rewrite (mapM_dict_get _ g).
  - cbn. rewrite <- Hcols. by rewrite (zip_star_columns n R).
  - apply Forall_forall. intros k Hk. apply dict_zip_map.
    + by rewrite sorted_Permutation.
    + by rewrite sorted_Permutation.
Qed.

Lemma Column_roundtrip (text : str) :
  ∃ cipher, Column_encrypt C text = Ok cipher
            ∧ Column_decrypt C cipher = Ok (rstrip (col_pad C) text).
Proof.
  unfold Column_encrypt.
  assert (Hn : len (col_key C) = Z.of_nat n) by done. rewrite Hn.
  set (padded := if decide (len text mod Z.of_nat n ≠ 0)
                 then text ++ replicate (Z.to_nat (Z.of_nat n - len text mod Z.of_nat n))
                                        (col_pad C)
                 else text).
  assert (Hpad : ∃ k R, padded = text ++ replicate k (col_pad C)
                        ∧ length padded = (n * R)%nat).
  { pose proof (Z.div_mod (len text) (Z.of_nat n) ltac:(lia)) as Hdm.
    pose proof (Z.mod_pos_bound (len text) (Z.of_nat n) ltac:(lia)) as Hb.
    assert (0 <= len text / Z.of_nat n) by (apply Z.div_pos; unfold len; lia).
    unfold padded. destruct (decide _) as [Hne|He].
    - eexists _, (Z.to_nat (len text / Z.of_nat n + 1)). split; [done|].
      rewrite length_app, length_replicate. unfold len in *. nia.
    - exists 0%nat, (Z.to_nat (len text / Z.of_nat n)). split; [by rewrite app_nil_r|].
      assert (len text mod Z.of_nat n = 0) by (destruct (decide (len text mod Z.of_nat n = 0)); [done|by exfalso; apply He]).
      unfold len in *. nia. }
  destruct Hpad as (k & R & Hk & HR).
  destruct (Column_decrypt_rectangle padded R HR) as (cipher & E1 & E2).
  exists (concat cipher). unfold columns_of in E1. rewrite E1. cbn.
  split; [done|]. rewrite E2, Hk. by rewrite rstrip_app_pad.
Qed.
End Column_rectangle.

(** ** Rail fence *)

Lemma cycle_nth_Ok {A} (l : list A) (t : nat) :
  l ≠ [] → ∃ x, cycle_nth l t = Ok x ∧ l !! (t mod length l)%nat = Some x.
Proof.
  intros Hl. unfold cycle_nth.
  destruct (l !! (t mod length l)%nat) as [x|] eqn:E; [eauto|].
  apply lookup_ge_None in E. destruct l; [done|].
  pose proof (Nat.mod_upper_bound t (length (a :: l))). cbn [length] in *. lia.
Qed.

Lemma dealt_length (indices : list nat) (k t : nat) (text : str) :
  length (dealt indices k t text) = k.
Proof.
  revert t. induction text as [|c text IH]; intros t; cbn [dealt].
  - apply length_replicate.
  - destruct (indices !! _); [rewrite length_alter|]; apply IH.
Qed.

Lemma dealt_period (indices : list nat) (k t : nat) (text : str) :
  dealt indices k (t + length indices) text = dealt indices k t text.
Proof.
  revert t. induction text as [|c text IH]; intros t; cbn [dealt]; [done|].
  replace ((t + length indices) mod length indices)%nat
    with (t mod length indices)%nat.
  - change (S (t + length indices)) with (S t + length indices)%nat.
    by rewrite IH.
  - destruct indices as [|i indices]; [done|].
    rewrite <- (Nat.mul_1_l (length (i :: indices))) at 2.
    by rewrite Nat.Div0.mod_add.
Qed.

Lemma zip_with_app_insert (rails D : list str) (i : nat) (r : str) (c : ascii) :
  rails !! i = Some r →
  zip_with app (<[i := r ++ [c]]> rails) D
  = zip_with app rails (alter (cons c) i D).
Proof.
  revert D i. induction rails as [|r0 rails IH]; intros [|d D] i Hi; try done.
  - by destruct i.
  - destruct i as [|i]; cbn in *.
    + injection Hi as ->. by rewrite <- app_assoc.
    + f_equal. by apply IH.
Qed.

Lemma zip_with_app_nil (k : nat) (D : list str) :
  length D = k → zip_with app (replicate k []) D = D.
Proof.
  revert D. induction k as [|k IH]; intros [|d D] Hl; try done.
  cbn. f_equal. apply IH. cbn in Hl. lia.
Qed.

Section RailFence_deal.
Context (indices : list nat) (k : nat).
Hypothesis indices_nonempty : indices ≠ [].
Hypothesis indices_valid : Forall (λ i, (i < k)%nat) indices.

Lemma deal_dealt (rails : list str) (t : nat) (text : str) :
  length rails = k →
  deal indices rails t text = Ok (zip_with app rails (dealt indices k t text)).
Proof.
  revert rails t. induction text as [|c text IH]; intros rails t Hlen.
  - cbn [deal dealt]. f_equal. subst k. clear.
    induction rails as [|r rails IH]; [done|]. cbn. by rewrite app_nil_r, <- IH.
  - cbn [deal dealt].
    destruct (cycle_nth_Ok indices t indices_nonempty) as (i & -> & Hi).
    rewrite Hi. cbn.
    assert (Hik : (i < k)%nat).
    { rewrite Forall_forall in indices_valid. apply indices_valid.
      apply list_elem_of_lookup. eauto. }
    destruct (rails !! i) as [r|] eqn:Hr; [|apply lookup_ge_None in Hr; lia].
    rewrite IH by (by rewrite length_insert).
    f_equal. by apply zip_with_app_insert.
Qed.

Lemma dealt_concat_length (t : nat) (text : str) :
  length (concat (dealt indices k t text)) = length text.
Proof.
  revert t. induction text as [|c text IH]; intros t; cbn [dealt length].
  - clear. induction k as [|k' IH]; [done|]. cbn. exact IH.
  - destruct (cycle_nth_Ok indices t indices_nonempty) as (i & _ & Hi).
    rewrite Hi.
    assert (Hik : (i < k)%nat).
    { rewrite Forall_forall in indices_valid. apply indices_valid.
      apply list_elem_of_lookup. eauto. }
    rewrite <- (IH (S t)). rewrite <- (dealt_length indices k (S t) text) in Hik.
    revert Hik. generalize (dealt indices k (S t) text). clear. intros D.
    revert i. induction D as [|d D IHD]; intros i Hi'; [cbn in Hi'; lia|].
    destruct i as [|i]; cbn [alter list_alter concat].
    + by rewrite !length_app.
    + rewrite !length_app. cbn [length] in Hi'.
      change (list_alter (cons c) i D) with (alter (cons c) i D).
      rewrite IHD by lia. lia.
Qed.

Lemma read_dealt (t : nat) (text : str) :
  read_rails indices (dealt indices k t text) t (length text) = Ok text.
Proof.
  revert t. induction text as [|c text IH]; intros t; [done|].
  cbn [length read_rails dealt].
  destruct (cycle_nth_Ok indices t indices_nonempty) as (i & -> & Hi).
  rewrite Hi. cbn.
  assert (Hik : (i < k)%nat).
  { rewrite Forall_forall in indices_valid. apply indices_valid.
    apply list_elem_of_lookup. eauto. }
  pose proof (dealt_length indices k (S t) text) as Hl.
  destruct (dealt indices k (S t) text !! i) as [d|] eqn:Hd;
    [|apply lookup_ge_None in Hd; lia].
  rewrite list_lookup_alter_eq, Hd. cbn.
  replace (<[i := d]> (alter (cons c) i (dealt indices k (S t) text)))
    with (dealt indices k (S t) text).
  - by rewrite IH.
  - apply list_eq. intros j. destruct (decide (i = j)) as [<-|Hne].
    + rewrite list_lookup_insert_eq by (rewrite length_alter; lia). done.
    + rewrite list_lookup_insert_ne by done. by rewrite list_lookup_alter_ne.
Qed.
End RailFence_deal.

(** *** Three rails *)

Lemma four_ind {A} (P : list A → Prop) :
  P [] → (∀ a, P [a]) → (∀ a b, P [a; b]) → (∀ a b c, P [a; b; c]) →
  (∀ a b c d l, P l → P (a :: b :: c :: d :: l)) → ∀ l, P l.
Proof.
  intros H0 H1 H2 H3 H4 l.
  remember (length l) as n eqn:Hn. revert l Hn.
  induction n as [n IH] using lt_wf_ind. intros l ->.
  destruct l as [|a [|b [|c [|d l]]]]; auto.
  apply H4. apply (IH (length l)); [cbn; lia|done].
Qed.

Lemma ceil_periods_3 (m : Z) : ceil (periods R3 m) = - ((- m) / 4).
Proof.
  unfold ceil, periods, Qceiling, Qfloor. cbn.
  rewrite Z.mul_1_r. destruct m; reflexivity.
Qed.

Lemma dealt_3_shape (text : str) :
  ∃ r0 r1 r2,
    dealt (zigzag 3) 3 0 text = [r0; r1; r2]
    ∧ len r0 = - ((- len text) / 4)
    ∧ len r1 = - ((- (len text - 1)) / 4) + - ((- (len text - 3)) / 4).
Proof.
  induction text as [|a|a b|a b c|a b c d text IH] using four_ind;
    try (do 3 eexists; split; [reflexivity|]; split; reflexivity).
  destruct IH as (r0 & r1 & r2 & E & H0 & H1).
  exists (a :: r0), (b :: d :: r1), (c :: r2).
  split.
  - change (dealt (zigzag 3) 3 0 (a :: b :: c :: d :: text))
      with (alter (cons a) 0%nat (alter (cons b) 1%nat (alter (cons c) 2%nat
             (alter (cons d) 1%nat (dealt (zigzag 3) 3 (0 + length (zigzag 3)) text))))).
    rewrite dealt_period, E. reflexivity.
  - unfold len in *. cbn [length]. rewrite !Nat2Z.inj_succ.
    split.
    + replace (- Z.succ (Z.succ (Z.succ (Z.succ (Z.of_nat (length text))))))
        with (- Z.of_nat (length text) + (-1) * 4) by lia.
      rewrite Z.div_add by lia. lia.
    + replace (- (Z.succ (Z.succ (Z.succ (Z.succ (Z.of_nat (length text))))) - 1))
        with (- (Z.of_nat (length text) - 1) + (-1) * 4) by lia.
      replace (- (Z.succ (Z.succ (Z.succ (Z.succ (Z.of_nat (length text))))) - 3))
        with (- (Z.of_nat (length text) - 3) + (-1) * 4) by lia.
      rewrite !Z.div_add by lia. lia.
Qed.

Lemma RailFence_3_roundtrip_aux (text : str) :
  ∃ cipher, RailFence_encrypt R3 text = Ok cipher
            ∧ RailFence_decrypt R3 cipher = Ok text.
Proof.
  assert (Hne : zigzag 3 ≠ []) by done.
  assert (Hv : Forall (λ i, (i < 3)%nat) (zigzag 3)).
  { refine (bool_decide_unpack _ _). vm_compute. exact I. }
  destruct (dealt_3_shape text) as (r0 & r1 & r2 & E & H0 & H1).
  pose proof (read_dealt (zigzag 3) 3 Hne Hv 0 text) as Hread.
  exists (r0 ++ r1 ++ r2). split.
  - unfold RailFence_encrypt. rewrite decide_False by done.
    change (rf_key R3) with 3. change (Z.to_nat 3) with 3%nat.
    rewrite (deal_dealt (zigzag 3) 3 Hne Hv) by done.
    rewrite zip_with_app_nil by apply dealt_length. rewrite E. cbn.
    by rewrite app_nil_r.
  - assert (Hlen : len (r0 ++ r1 ++ r2) = len text).
    { pose proof (dealt_concat_length (zigzag 3) 3 Hne Hv 0 text) as HE.
      rewrite E in HE. cbn [concat] in HE. rewrite app_nil_r in HE.
      unfold len. by rewrite HE. }
    set (ct := r0 ++ r1 ++ r2) in *.
    assert (He0 : ceil (periods R3 (len ct)) = len r0)
      by (rewrite ceil_periods_3, Hlen; lia).
    assert (He1 : ceil (periods R3 (len ct - 1))
                  + ceil (periods R3 (len ct - 1 - (rf_key R3 - 1 - 1) * 2))
                  = len r1).
    { rewrite !ceil_periods_3, Hlen. change (rf_key R3) with 3.
      replace (len text - 1 - (3 - 1 - 1) * 2) with (len text - 3) by lia. lia. }
    unfold RailFence_decrypt. rewrite decide_False by done.
    change (Z.to_nat (rf_key R3 - 2)) with 1%nat.
    cbn [seq map middle_rows]. change (1 + Z.of_nat 0) with 1.
    rewrite He0, <- Z.add_assoc, He1.
    assert (Hl : len ct = len r0 + len r1 + len r2).
    { unfold ct, len. rewrite !length_app. lia. }
    assert (S0 : slice_to ct (len r0) = r0).
    { unfold slice_to. rewrite slice_nonneg by (unfold len in *; lia).
      change (Z.to_nat 0) with 0%nat. rewrite drop_0, Nat.sub_0_r.
      unfold len. rewrite Nat2Z.id. unfold ct. apply take_app_length. }
    assert (S1 : slice ct (len r0) (len r0 + len r1) = r1).
    { rewrite slice_nonneg by (unfold len in *; lia).
      unfold len. rewrite Z2Nat.inj_add, !Nat2Z.id by lia.
      unfold ct. rewrite drop_app_length.
      replace (length r0 + length r1 - length r0)%nat with (length r1) by lia.
      apply take_app_length. }
    assert (S2 : slice_from ct (len r0 + len r1) = r2).
    { unfold slice_from. rewrite slice_nonneg by (unfold len in *; lia).
      rewrite take_ge by (rewrite length_drop; unfold len in *; lia).
      unfold len. rewrite Z2Nat.inj_add, !Nat2Z.id by lia.
      unfold ct. rewrite app_assoc, <- length_app. apply drop_app_length. }
    rewrite S0, S1, S2. cbn [app].
    change (rf_key R3) with 3. rewrite <- E.
    replace (length ct) with (length text) by (unfold len in Hlen; lia).
    exact Hread.
Qed.

(** ** Affine *)

Lemma index_from_elem (s : str) (c : ascii) (k : Z) :
  c ∈ s → ∃ i, index_from c s k = Ok i ∧ k <= i < k + len s.
Proof.
  revert k. induction s as [|d s IH]; intros k Hc; [by apply elem_of_nil in Hc|].
  cbn [index_from]. unfold len. cbn [length]. rewrite Nat2Z.inj_succ.
  destruct (decide (d = c)) as [|Hne]; [exists k; split; [done|lia]|].
  apply elem_of_cons in Hc as [->|Hc]; [done|].
  destruct (IH (k + 1) Hc) as (i & Hi & Hb). exists i. split; [done|].
  unfold len in Hb. lia.
Qed.

Lemma getitem_in_range {A} (s : list A) (j : Z) :
  0 <= j < len s → ∃ x, getitem s j = Ok x.
Proof.
  intros Hj. unfold len in Hj.
  destruct (s !! Z.to_nat j) as [x|] eqn:E; [|apply lookup_ge_None in E; lia].
  exists x. rewrite <- (Z2Nat.id j) by lia. by apply getitem_lookup.
Qed.

Lemma mmi_no_inverse (a m : Z) :
  Z.gcd a m ≠ 1 → mmi a m = Raise (ValueError "no multiplicative inverse").
Proof.
  intros Hg. unfold mmi.
  destruct (find _ _) as [x|] eqn:E; [|done]. exfalso. apply Hg.
  apply find_some in E as [Hin Hx]. apply bool_decide_eq_true in Hx.
  apply in_map_iff in Hin as (i & <- & Hi%in_seq).
  assert (Hm : 0 < m) by lia.
  pose proof (Z.div_mod (a * Z.of_nat i) m ltac:(lia)) as Hdm. rewrite Hx in Hdm.
  pose proof (Z.gcd_nonneg a m) as Hnn.
  destruct (Z.gcd_divide_l a m) as [u Hu]. destruct (Z.gcd_divide_r a m) as [v Hv].
  assert (Hdiv : (Z.gcd a m | 1)).
  { exists (u * Z.of_nat i - v * (a * Z.of_nat i / m)).
    rewrite Z.mul_sub_distr_r.
    replace (u * Z.of_nat i * Z.gcd a m) with (a * Z.of_nat i) by (rewrite Hu at 1; ring).
    replace (v * (a * Z.of_nat i / m) * Z.gcd a m)
      with (m * (a * Z.of_nat i / m)) by (rewrite Hv at 1; ring).
    lia. }
  apply Z.divide_1_r_nonneg in Hdiv; lia.
Qed.

Lemma mmi_inverse (a m : Z) :
  2 <= m → Z.gcd a m = 1 → ∃ x, mmi a m = Ok x ∧ 0 <= x < m ∧ (a * x) mod m = 1.
Proof.
  intros Hm Hg. unfold mmi.
  destruct (find _ _) as [x|] eqn:E.
  - apply find_some in E as [Hin Hx]. apply bool_decide_eq_true in Hx.
    apply in_map_iff in Hin as (i & <- & Hi%in_seq). exists (Z.of_nat i).
    split; [done|]. split; [lia|done].
  - exfalso. destruct (Z.gcd_bezout a m 1 Hg) as (u & v & Huv).
    pose proof (Z.mod_pos_bound u m ltac:(lia)) as Hb.
    assert (Hin : In (u mod m) (map Z.of_nat (seq 0 (Z.to_nat m)))).
    { apply in_map_iff. exists (Z.to_nat (u mod m)). split; [lia|].
      apply in_seq. lia. }
    pose proof (find_none _ _ E _ Hin) as Hf. cbv beta in Hf.
    apply bool_decide_eq_false in Hf. apply Hf.
    rewrite Z.mul_mod_idemp_r by lia.
    replace (a * u) with (1 + (- v) * m) by lia.
    rewrite Z.mod_add by lia. apply Z.mod_small. lia.
Qed.

Lemma Affine_table_Ok (alphabet : str) (f : Z → Z) :
  ∃ table,
    mapM (λ c, i ← index alphabet c;
               v ← getitem alphabet (f i mod len alphabet);
               mret (c, v)) alphabet = Ok table.
Proof.
  apply mapM_Ok_Forall, Forall_forall. intros c Hc.
  destruct (index_from_elem alphabet c 0 Hc) as (i & Hi & Hb).
  assert (Hpos : 0 < len alphabet) by lia.
  destruct (getitem_in_range alphabet (f i mod len alphabet)) as [v Hv];
    [by apply Z.mod_pos_bound|].
  exists (c, v). unfold index. rewrite Hi. cbn. rewrite Hv. done.
Qed.

Lemma Affine_construction_aux (a b : Z) (alphabet : str) :
  (Z.gcd a (len alphabet) ≠ 1 →
   Affine (a, b) alphabet = Raise (ValueError "no multiplicative inverse"))
  ∧ (2 <= len alphabet → Z.gcd a (len alphabet) = 1 →
     is_Ok (Affine (a, b) alphabet)).
Proof.
  split.
  - intros Hg. unfold Affine. by rewrite mmi_no_inverse.
  - intros Hlen Hg. unfold Affine.
    destruct (mmi_inverse a (len alphabet) Hlen Hg) as (x & -> & _).
    destruct (Affine_table_Ok alphabet (λ i, x * (i - b))) as [dec Hdec].
    destruct (Affine_table_Ok alphabet (λ i, a * i + b)) as [enc Henc].
    cbn. rewrite Hdec. cbn. rewrite Henc. cbn. by eexists.
Qed.

(** ** Frequency analysis *)

Example frequency_analysis_mississipi :
  frequency_analysis (py "mississipi") 1
  = dict [(py "m", float_0_1); (py "i", float_0_4);
          (py "s", float_0_4); (py "p", float_0_1)].
Proof. vm_compute. reflexivity. Qed.

Lemma sum_counts_insert (m : gmap str Z) (g : str) (x : Z) :
  sum_counts (<[g := x]> m) = sum_counts m - default 0 (m !! g) + x.
Proof.
  assert (Hins : ∀ (m' : gmap str Z) y, m' !! g = None →
             sum_counts (<[g := y]> m') = y + sum_counts m').
  { intros m' y Hm'. unfold sum_counts.
    apply map_fold_insert_L; [intros; lia|done]. }
  destruct (m !! g) as [v|] eqn:E; cbn [default from_option id].
  - assert (E1 : sum_counts (<[g := x]> m) = x + sum_counts (delete g m)).
    { rewrite <- insert_delete_eq. apply Hins, lookup_delete_eq. }
    assert (E2 : sum_counts m = v + sum_counts (delete g m)).
    { rewrite <- (insert_delete_id m g v E) at 1. apply Hins, lookup_delete_eq. }
    lia.
  - rewrite Hins by done. lia.
Qed.

Lemma ngram_counts_loop (text : str) (ngram : Z) (idxs : list Z)
      (freqs : gmap str Z) (total : Z) :
  sum_counts freqs = total →
  let '(freqs', total') :=
    foldl (λ '(freqs, total) i,
             let gram := slice text i (i + ngram) in
             (<[gram := default 0 (freqs !! gram) + 1]> freqs, total + 1))
          (freqs, total) idxs in
  sum_counts freqs' = total' ∧ total' = total + len idxs.
Proof.
  revert freqs total. induction idxs as [|i idxs IH]; intros freqs total Hsum.
  - cbn. unfold len. cbn. lia.
  - cbn [foldl].
    specialize (IH (<[slice text i (i + ngram) :=
                       default 0 (freqs !! slice text i (i + ngram)) + 1]> freqs)
                   (total + 1)).
    destruct (foldl _ _ idxs) as [freqs' total'].
    destruct IH as [IH1 IH2]; [rewrite sum_counts_insert; lia|].
    split; [done|]. unfold len in *. cbn [length]. lia.
Qed.

Lemma ngram_counts_total (text : str) (ngram : Z) :
  0 < len text - ngram + 1 →
  sum_counts (ngram_counts text ngram).1 = (ngram_counts text ngram).2
  ∧ (ngram_counts text ngram).2 = len text - ngram + 1.
Proof.
  intros Hpos. unfold ngram_counts.
  pose proof (ngram_counts_loop text ngram (range (len text - ngram + 1)) ∅ 0) as H.
  destruct (foldl _ _ _) as [freqs total]. cbn [fst snd].
  destruct H as [H1 H2]; [done|]. split; [done|].
  rewrite H2. unfold len, range in *. rewrite length_map, length_seq. lia.
Qed.

Lemma sum_frequencies_fmap (m : gmap str Z) (total : Z) :
  sum_frequencies ((λ count, (Qc_of_Z count / Qc_of_Z total)%Qc) <$> m)
  = (Qc_of_Z (sum_counts m) / Qc_of_Z total)%Qc.
Proof.
  unfold sum_frequencies, sum_counts.
  induction m as [|g x m Hg IH] using map_ind.
  - rewrite fmap_empty, !map_fold_empty. unfold Qcdiv. rewrite Z2Qc_inj_0. ring.
  - rewrite fmap_insert.
    rewrite !map_fold_insert_L; [| |done| |by rewrite lookup_fmap, Hg].
    + rewrite IH, Z2Qc_inj_add. unfold Qcdiv. ring.
    + intros. lia.
    + intros. ring.
Qed.

Lemma exact_quotients_sum_to_1 (text : str) (ngram : Z) :
  0 < len text - ngram + 1 →
  sum_frequencies ((λ count, (Qc_of_Z count
                              / Qc_of_Z (ngram_counts text ngram).2)%Qc)
                     <$> (ngram_counts text ngram).1) = 1%Qc.
Proof.
  intros Hpos. destruct (ngram_counts_total text ngram Hpos) as [H1 H2].
  destruct (ngram_counts text ngram) as [freqs total]. cbn [fst snd] in *.
  rewrite sum_frequencies_fmap, H1. apply Qcmult_inv_r.
  rewrite <- Z2Qc_inj_0. intros Heq%Z2Qc_inj. lia.
Qed.

(** ** Properties stated by the specification *)

(** C1 (round trip of every cipher): the claim fails for the keyword cipher
    built from an uppercase key. With the key "SECRET" of the class
    docstring the letter a is enciphered as s, and s is deciphered as x: the
    constructor lowercases [self.key] but builds both tables from [key]. *)
Theorem Keyword_uppercase_key_roundtrip_fails :
  mono_encrypt (Keyword (py "SECRET")) (py "a") = py "s"
  ∧ mono_decrypt (Keyword (py "SECRET")) (py "s") = py "x"
  ∧ mono_decrypt (Keyword (py "SECRET")) (mono_encrypt (Keyword (py "SECRET")) (py "a"))
    ≠ py "a".
Proof.
  split; [vm_compute; reflexivity|]. split; [vm_compute; reflexivity|].
  vm_compute. discriminate.
Qed.

(** C2 (reciprocal ciphers): encrypting twice gives the text back, for
    Atbash over any duplicate-free alphabet (and on every text for the
    default alphabet), for Rot13 on every text, for Kama Sutra with a key
    that is a permutation of the 26 letters on every text, and for TwoSquare
    in both arrangements on every text over the alphabet of its squares. *)
Theorem reciprocal_ciphers :
  (∀ alphabet text : str,
      NoDup (map lower alphabet) →
      Forall (λ c, c ∈ map lower alphabet) text →
      mono_encrypt (Atbash alphabet) (mono_encrypt (Atbash alphabet) text) = text)
  ∧ (∀ text : str,
        mono_encrypt (Atbash ascii_lowercase)
                     (mono_encrypt (Atbash ascii_lowercase) text) = text)
  ∧ (∀ text : str, mono_encrypt Rot13 (mono_encrypt Rot13 text) = text)
  ∧ (∀ key text : str,
        key ≡ₚ ascii_lowercase →
        mono_encrypt (KamaSutra key) (mono_encrypt (KamaSutra key) text) = text)
  ∧ (∀ (seed1 alphabet1 seed2 alphabet2 : str) (k1 k2 : Polybius)
       (horizontal : bool) (C : TwoSquare) (text : str),
        Polybius_new seed1 alphabet1 = Ok k1 →
        Polybius_new seed2 alphabet2 = Ok k2 →
        TwoSquare_new (k1, k2) horizontal = Ok C →
        Forall (λ c, c ∈ contents k1) text →
        ∃ cipher, TwoSquare_encrypt C text = Ok cipher
                  ∧ TwoSquare_encrypt C cipher = Ok text).
Proof.
  split; [exact Atbash_involution|]. split; [exact Atbash_default_involution|].
  split; [exact Rot13_involution|]. split; [exact KamaSutra_involution|].
  exact TwoSquare_involution.
Qed.

Lemma reciprocal_ciphers_witness :
  mono_encrypt (Atbash (py "Zebra")) (mono_encrypt (Atbash (py "Zebra")) (py "bear"))
  = py "bear"
  ∧ mono_encrypt (KamaSutra (py "vqajflymsbckuhzdxtenorpwig"))
      (mono_encrypt (KamaSutra (py "vqajflymsbckuhzdxtenorpwig")) (py "Kama Sutra"))
    = py "Kama Sutra"
  ∧ ∃ cipher, TwoSquare_encrypt TwoSquare_example (py "helpme") = Ok cipher
              ∧ TwoSquare_encrypt TwoSquare_example cipher = Ok (py "helpme").
Proof.
  destruct reciprocal_ciphers as (HA & _ & _ & HK & HT).
  split; [|split].
  - apply HA; refine (bool_decide_unpack _ _); vm_compute; exact I.
  - apply HK. refine (bool_decide_unpack _ _). vm_compute. exact I.
  - apply (HT (py "example") (py "abcdefghiklmnopqrstuvwxyz")
              (py "keyword") (py "abcdefghiklmnopqrstuvwxyz")
              (Polybius_example "example") (Polybius_example "keyword") false).
    + vm_compute. reflexivity.
    + vm_compute. reflexivity.
    + vm_compute. reflexivity.
    + refine (bool_decide_unpack _ _). vm_compute. exact I.
Defined.

(** C3 (columnar transposition, worked example): with the key "CIPHER" and
    the pad x, "thisisanexample" is enciphered as "tapiaxsxxhnlieesmx", which
    is deciphered as "thisisanexample". *)
Theorem Column_CIPHER_example :
  Column_new (py "CIPHER") (py "x") = Ok Column_example
  ∧ Column_encrypt Column_example (py "thisisanexample")
    = Ok (py "tapiaxsxxhnlieesmx")
  ∧ Column_decrypt Column_example (py "tapiaxsxxhnlieesmx")
    = Ok (py "thisisanexample").
Proof. repeat split; vm_compute; reflexivity. Qed.

(** C4 (frequency analysis), as amended:
    [frequency_analysis("mississipi", 1)] is the table m: 0.1, i: 0.4,
    s: 0.4, p: 0.1 of binary64 numbers; and whenever the text has at least
    one window of length [ngram], the counts add up to the number of
    windows, each returned number is the binary64 quotient of a count by
    that number, and the quotients themselves, before they are rounded, sum
    to 1. *)
Theorem frequency_analysis_rounded_quotients (text : str) (ngram : Z) :
  0 < len text - ngram + 1 →
  frequency_analysis (py "mississipi") 1
  = dict [(py "m", float_0_1); (py "i", float_0_4);
          (py "s", float_0_4); (py "p", float_0_1)]
  ∧ (ngram_counts text ngram).2 = len text - ngram + 1
  ∧ sum_counts (ngram_counts text ngram).1 = (ngram_counts text ngram).2
  ∧ frequency_analysis text ngram
    = (λ count, float_div (float_of_int count)
                          (float_of_int (ngram_counts text ngram).2))
        <$> (ngram_counts text ngram).1
  ∧ sum_frequencies ((λ count, (Qc_of_Z count
                                / Qc_of_Z (ngram_counts text ngram).2)%Qc)
                       <$> (ngram_counts text ngram).1) = 1%Qc.
Proof.
  intros Hpos. destruct (ngram_counts_total text ngram Hpos) as [H1 H2].
  split; [exact frequency_analysis_mississipi|]. split; [done|]. split; [done|].
  split; [|by apply exact_quotients_sum_to_1].
  unfold frequency_analysis, frequency_analysis_with.
  by destruct (ngram_counts text ngram).
Qed.

Lemma frequency_analysis_rounded_quotients_witness :
  (ngram_counts (py "mississipi") 2).2 = 9
  ∧ sum_counts (ngram_counts (py "mississipi") 2).1 = 9.
Proof.
  destruct (frequency_analysis_rounded_quotients (py "mississipi") 2)
    as (_ & H2 & H3 & _); [vm_compute; reflexivity|].
  rewrite H3, H2. split; reflexivity.
Defined.

(** C4 as stated fails on "abcdefghij": each of the ten letters gets the
    binary64 number 0.1, which is above one tenth. The ten numbers sum to
    1 + 2^-54, not to 1; added up as Python adds floats, from left to right,
    they give 0.9999999999999999, not 1.0. *)
Lemma frequency_analysis_float_sum_counterexample :
  0 < len (py "abcdefghij") - 1 + 1
  ∧ (map_to_list (frequency_analysis (py "abcdefghij") 1)).*2
    = replicate 10 float_0_1
  ∧ float_sum (replicate 10 float_0_1) = float_below_1
  ∧ float_below_1 ≠ float_1
  ∧ float_of_int 1 = float_1
  ∧ sum_frequencies (float_value <$> frequency_analysis (py "abcdefghij") 1)
    ≠ 1%Qc.
Proof.
  split; [vm_compute; reflexivity|]. split; [vm_compute; reflexivity|].
  split; [vm_compute; reflexivity|]. split; [discriminate|].
  split; [vm_compute; reflexivity|].
  intros H. apply (f_equal this) in H. vm_compute in H. discriminate H.
Qed.

(** C5 (rail fence, three rails): for every text, of any length,
    [decrypt(encrypt(text))] is the text. *)
Theorem RailFence_3_roundtrip :
  RailFence_new 3 = Ok R3
  ∧ ∀ text : str,
      ∃ cipher, RailFence_encrypt R3 text = Ok cipher
                ∧ RailFence_decrypt R3 cipher = Ok text.
Proof. split; [reflexivity|exact RailFence_3_roundtrip_aux]. Qed.

Lemma Playfair_example_new :
  Playfair_new (py "playfair example") (py "x") (py "z") [("j"%char, py "i")]
  = Ok Playfair_example.
Proof. vm_compute. reflexivity. Qed.

Lemma Playfair_decrypt_errors_witness :
  Playfair_decrypt Playfair_example (py "abc")
  = Raise (ValueError "Ciphertext of uneven length!")
  ∧ is_Raise (Playfair_decrypt Playfair_example (py "abij"))
  ∧ is_Ok (Playfair_decrypt Playfair_example (py "bmod")).
Proof.
  split; [|split].
  - refine (proj1 (Playfair_decrypt_errors _ _ _ _ _ (py "abc")
                     Playfair_example_new) _).
    vm_compute. discriminate.
  - refine (proj1 (proj2 (Playfair_decrypt_errors _ _ _ _ _ (py "abij")
                            Playfair_example_new)) _).
    refine (bool_decide_unpack _ _). vm_compute. exact I.
  - refine (proj2 (proj2 (proj2 (Playfair_decrypt_errors _ _ _ _ _ (py "bmod")
                                   Playfair_example_new)) _) _).
    + refine (bool_decide_unpack _ _). vm_compute. exact I.
    + refine (bool_decide_unpack _ _). vm_compute. exact I.
Defined.

Lemma Playfair_plain_pairs_spec_witness :
  Playfair_plain_pairs Playfair_example (py "balloon")
  = (spec_pairs "x" "z" (py "balloon"), Exhausted).
Proof.
  refine (proj1 (Playfair_plain_pairs_spec _ _ _ _ _ (py "balloon")
                   Playfair_example_new _)).
  refine (bool_decide_unpack _ _). vm_compute. exact I.
Defined.

(** The digraphs of "balloon": ba lx lo on. *)
Example Playfair_balloon :
  Playfair_plain_pairs Playfair_example (py "balloon")
  = ([("b", "a"); ("l", "x"); ("l", "o"); ("o", "n")]%char, Exhausted)
  ∧ Playfair_encrypt Playfair_example (py "balloon") = Ok (py "dpyranqo").
Proof. split; vm_compute; reflexivity. Qed.

(** A run of breakers in the plaintext is reduced to one breaker before the
    pairing, it is not broken up: "xxab" is enciphered as the digraphs
    xa bz. *)
Example Playfair_doubled_breaker :
  Playfair_letters Playfair_example (py "xxab") = py "xab"
  ∧ Playfair_plain_pairs Playfair_example (py "xxab")
    = ([("x", "a"); ("b", "z")]%char, Exhausted)
  ∧ Playfair_encrypt Playfair_example (py "xxab") = Ok (py "eyht").
Proof. repeat split; vm_compute; reflexivity. Qed.

(** C7 (Playfair digraphs) at the plaintext "fez", with the key
    "playfair example", the breaker x and the padding z: [__plain_pairs]
    appends the padding letter, so the characters it pairs are "fezz"; after
    the digraph fe it takes the pair zz for a doubled letter, yields zx and
    asks the exhausted iterator for a further character. The
    [StopIteration] of that [next(plain)] leaves the generator, and
    [encrypt] ends in a [RuntimeError] instead of returning the
    encipherment of fe zz, the digraphs of the rule of the spec. On "fey",
    where the last letter is not the padding letter, the final digraph is
    completed by it. *)
Theorem Playfair_encrypt_padding_letter_last :
  Playfair_new (py "playfair example") (py "x") (py "z") [("j"%char, py "i")]
  = Ok Playfair_example
  ∧ Playfair_plain Playfair_example (py "fez") = py "fezz"
  ∧ Playfair_plain_pairs Playfair_example (py "fez")
    = ([("f", "e"); ("z", "x")]%char, Raised StopIteration)
  ∧ Playfair_encrypt Playfair_example (py "fez") = Raise RuntimeError
  ∧ spec_pairs (pf_breaker Playfair_example) (pf_padding Playfair_example)
               (Playfair_letters Playfair_example (py "fez"))
    = [("f", "e"); ("z", "z")]%char
  ∧ Playfair_plain_pairs Playfair_example (py "fey")
    = ([("f", "e"); ("y", "z")]%char, Exhausted)
  ∧ Playfair_encrypt Playfair_example (py "fey") = Ok (py "amfw").
Proof.
  split; [vm_compute; reflexivity|]. split; [vm_compute; reflexivity|].
  split; [vm_compute; reflexivity|]. split; [vm_compute; reflexivity|].
  split; [vm_compute; reflexivity|]. split; [vm_compute; reflexivity|].
  vm_compute. reflexivity.
Qed.

(** C8 (Affine construction): the constructor raises when [a] and the
    length of the alphabet have a common factor, so that a cipher that was
    constructed has a coprime [a] and no call of [encrypt] or [decrypt] is
    reached with another one; over an alphabet of at least two characters it
    succeeds for every coprime [a] and every [b]. For instance [a = 2] is
    refused for the 26 letters. *)
Theorem Affine_construction (a b : Z) (alphabet : str) :
  (Z.gcd a (len alphabet) ≠ 1 →
   Affine (a, b) alphabet = Raise (ValueError "no multiplicative inverse"))
  ∧ (is_Ok (Affine (a, b) alphabet) → Z.gcd a (len alphabet) = 1)
  ∧ (2 <= len alphabet → Z.gcd a (len alphabet) = 1 →
     is_Ok (Affine (a, b) alphabet))
  ∧ is_Raise (Affine (2, b) ascii_lowercase).
Proof.
  destruct (Affine_construction_aux a b alphabet) as [H1 H2].
  split; [done|]. split; [|split; [done|]].
  - intros [C HC]. destruct (decide (Z.gcd a (len alphabet) = 1)) as [|Hne]; [done|].
    rewrite (H1 Hne) in HC. done.
  - destruct (Affine_construction_aux 2 b ascii_lowercase) as [H _].
    rewrite H; [by eexists|]. vm_compute. discriminate.
Qed.

Lemma Affine_construction_witness :
  Affine (2, 8) ascii_lowercase = Raise (ValueError "no multiplicative inverse")
  ∧ is_Ok (Affine (5, 8) ascii_lowercase).
Proof.
  split.
  - refine (proj1 (Affine_construction 2 8 ascii_lowercase) _).
    vm_compute. discriminate.
  - refine (proj1 (proj2 (proj2 (Affine_construction 5 8 ascii_lowercase))) _ _).
    + vm_compute. discriminate.
    + vm_compute. reflexivity.
Defined.

(** The case functions on code points are those on 8-bit characters, where
    both are defined. *)
#[local] Instance ord_inj : Inj (=) (=) ord.
Proof.
  intros a b H. unfold ord in H. apply N2Z.inj in H.
  rewrite <- (ascii_N_embedding a), <- (ascii_N_embedding b). by rewrite H.
Qed.

Lemma code_case_ord (c : ascii) :
  code_isupper (ord c) = isupper c
  ∧ code_lower (ord c) = ord (lower c)
  ∧ code_upper (ord c) = ord (upper c).
Proof.
  revert c.
  assert (H : forallb (λ c, bool_decide (code_isupper (ord c) = isupper c
                                         ∧ code_lower (ord c) = ord (lower c)
                                         ∧ code_upper (ord c) = ord (upper c)))
                      all_ascii = true)
    by (vm_compute; reflexivity).
  intros c. pose proof (forall_ascii _ H c) as Hc.
  by apply bool_decide_eq_true in Hc.
Qed.

Lemma table_codes_lookup (m : gmap ascii ascii) (c : ascii) :
  table_codes m !! ord c = ord <$> m !! c.
Proof. unfold table_codes. by rewrite (lookup_kmap ord), lookup_fmap. Qed.

(** On 8-bit characters [substitute_code] is [substitute]. *)
Lemma substitute_code_ord (m : gmap ascii ascii) (c : ascii) :
  substitute_code (table_codes m) (ord c) = ord (substitute m c).
Proof.
  unfold substitute_code, substitute.
  destruct (code_case_ord c) as (Hu & Hl & _). rewrite Hu, Hl.
  rewrite table_codes_lookup.
  assert (E : default (ord c) (ord <$> m !! lower c)
              = ord (default c (m !! lower c)))
    by (by destruct (m !! lower c)).
  rewrite E.
  destruct (code_case_ord (default c (m !! lower c))) as (_ & Hl' & Hu').
  by destruct (isupper c).
Qed.

(** C9 (case and passthrough), as amended: for ASCII characters and tables of
    ASCII characters. At every position that holds an ASCII character, the
    character produced by [encrypt] (and by [decrypt]) is the table entry of
    the lowercased input character, uppercased when the input character is
    uppercase and lowercased otherwise, so that it is never of the opposite
    case; and a character whose lowercase form is not a key of the table is
    returned unchanged. *)
Theorem mono_case_and_passthrough
        (C : MonoalphabeticSubstitutionCipher) (text : str) (i : nat) (c : ascii) :
  text !! i = Some c →
  ord c < 128 →
  map_Forall (λ _ v, ord v < 128) (encrypt_mapping C) →
  map_Forall (λ _ v, ord v < 128) (decrypt_mapping C) →
  length (mono_encrypt C text) = length text
  ∧ length (mono_decrypt C text) = length text
  ∧ ∀ (mapping : gmap ascii ascii) (out : str),
      (mapping = encrypt_mapping C ∧ out = mono_encrypt C text)
      ∨ (mapping = decrypt_mapping C ∧ out = mono_decrypt C text) →
      ∃ e, out !! i = Some e
           ∧ ord e < 128
           ∧ (isupper c = true →
              e = upper (default c (mapping !! lower c)) ∧ islower e = false)
           ∧ (isupper c = false →
              e = lower (default c (mapping !! lower c)) ∧ isupper e = false)
           ∧ (mapping !! lower c = None → e = c).
Proof.
  intros Hi Hc He Hd. unfold mono_encrypt, mono_decrypt. rewrite !length_map.
  split; [done|]. split; [done|].
  assert (A : ∀ v, ord v < 128 → ord (upper v) < 128 ∧ ord (lower v) < 128).
  { assert (H : forallb (λ v, bool_decide (ord v < 128
                                            → ord (upper v) < 128
                                              ∧ ord (lower v) < 128))
                        all_ascii = true)
      by (vm_compute; reflexivity).
    intros v. pose proof (forall_ascii _ H v) as Hv.
    by apply bool_decide_eq_true in Hv. }
  assert (G : ∀ mapping : gmap ascii ascii,
             map_Forall (λ _ v, ord v < 128) mapping →
             ∃ e, map (substitute mapping) text !! i = Some e
                  ∧ ord e < 128
                  ∧ (isupper c = true →
                     e = upper (default c (mapping !! lower c)) ∧ islower e = false)
                  ∧ (isupper c = false →
                     e = lower (default c (mapping !! lower c)) ∧ isupper e = false)
                  ∧ (mapping !! lower c = None → e = c)).
  { intros mapping Hm. exists (substitute mapping c).
    change (map ?f text) with (f <$> text). rewrite list_lookup_fmap, Hi.
    split; [done|].
    pose proof (recase_facts c (default c (mapping !! lower c))) as [F1 F2].
    unfold substitute. split; [|split; [|split]].
    - assert (Hv : ord (default c (mapping !! lower c)) < 128).
      { destruct (mapping !! lower c) as [v|] eqn:E; [|done].
        exact (Hm _ _ E). }
      destruct (A _ Hv). by destruct (isupper c).
    - intros Hu. specialize (F1 Hu). rewrite Hu in *. done.
    - intros Hu. specialize (F2 Hu). rewrite Hu in *. done.
    - intros Hn. by apply substitute_absent. }
  intros mapping out [[-> ->]|[-> ->]]; by apply G.
Qed.

Lemma mono_case_and_passthrough_witness :
  ∃ e, mono_encrypt (Caesar 3) (py "Hi!") !! 0%nat = Some e
       ∧ e = upper (default "H"%char (encrypt_mapping (Caesar 3) !! lower "H"%char)).
Proof.
  assert (He : map_Forall (λ _ v, ord v < 128) (encrypt_mapping (Caesar 3))).
  { refine (bool_decide_unpack _ _). vm_compute. exact I. }
  assert (Hd : map_Forall (λ _ v, ord v < 128) (decrypt_mapping (Caesar 3))).
  { refine (bool_decide_unpack _ _). vm_compute. exact I. }
  destruct (mono_case_and_passthrough (Caesar 3) (py "Hi!") 0 "H"%char eq_refl
              eq_refl He Hd)
    as (_ & _ & H).
  destruct (H (encrypt_mapping (Caesar 3)) (mono_encrypt (Caesar 3) (py "Hi!")))
    as (e & He' & _ & Hup & _); [left; split; reflexivity|].
  exists e. split; [exact He'|]. apply Hup. reflexivity.
Defined.

(** C9 as stated fails on a text beyond ASCII. The titlecase letter U+01C5
    (code point 453) is not uppercase and its lowercase form, U+01C6 (454),
    is not a key of the tables of the Caesar cipher with key 3; the letter
    is absent from the tables, and [encrypt] and [decrypt] return it
    lowercased, not unchanged. *)
Lemma mono_titlecase_counterexample :
  code_isupper 453 = false
  ∧ table_codes (encrypt_mapping (Caesar 3)) !! 453 = None
  ∧ table_codes (encrypt_mapping (Caesar 3)) !! code_lower 453 = None
  ∧ table_codes (decrypt_mapping (Caesar 3)) !! 453 = None
  ∧ table_codes (decrypt_mapping (Caesar 3)) !! code_lower 453 = None
  ∧ encrypt_codes (Caesar 3) [453] = [454]
  ∧ decrypt_codes (Caesar 3) [453] = [454]
  ∧ encrypt_codes (Caesar 3) [453] ≠ [453]
  ∧ decrypt_codes (Caesar 3) [453] ≠ [453].
Proof.
  split; [reflexivity|]. split; [vm_compute; reflexivity|].
  split; [vm_compute; reflexivity|]. split; [vm_compute; reflexivity|].
  split; [vm_compute; reflexivity|]. split; [vm_compute; reflexivity|].
  split; [vm_compute; reflexivity|]. split; vm_compute; discriminate.
Qed.

(** C10 (columnar transposition, trailing pad characters): [decrypt]
    returns the padded text without any trailing pad character; a plaintext
    that ends with the pad character therefore comes back as a proper prefix
    of itself, shorter by all its trailing pad characters. *)
Theorem Column_decrypt_strips_padding
        (key pad : str) (C : Column) (text : str) :
  Column_new key pad = Ok C →
  last text = Some (col_pad C) →
  ∃ cipher plain k,
    Column_encrypt C text = Ok cipher
    ∧ Column_decrypt C cipher = Ok plain
    ∧ plain = rstrip (col_pad C) text
    ∧ last plain ≠ Some (col_pad C)
    ∧ text = plain ++ replicate (S k) (col_pad C)
    ∧ (length plain < length text)%nat
    ∧ plain ≠ text.
Proof.
  intros HC Hlast. apply Column_new_inv in HC as (Hkey & Hnd & Hne & _).
  rewrite <- Hkey in Hnd, Hne.
  destruct (Column_roundtrip C Hnd Hne text) as (cipher & E1 & E2).
  destruct (rstrip_spec (col_pad C) text) as (k & Hk & Hl).
  destruct k as [|k].
  { exfalso. apply Hl. cbn in Hk. rewrite app_nil_r in Hk. by rewrite <- Hk. }
  exists cipher, (rstrip (col_pad C) text), k.
  assert (Hlen : (length (rstrip (col_pad C) text) < length text)%nat).
  { rewrite Hk at 2. rewrite length_app, length_replicate. lia. }
  repeat split; try done. intros Heq. rewrite Heq in Hlen. lia.
Qed.

Lemma Column_decrypt_strips_padding_witness :
  ∃ cipher plain k,
    Column_encrypt Column_example (py "relax") = Ok cipher
    ∧ Column_decrypt Column_example cipher = Ok plain
    ∧ plain = rstrip "x" (py "relax")
    ∧ last plain ≠ Some "x"%char
    ∧ py "relax" = plain ++ replicate (S k) "x"%char
    ∧ (length plain < length (py "relax"))%nat
    ∧ plain ≠ py "relax".
Proof.
  apply (Column_decrypt_strips_padding (py "CIPHER") (py "x") Column_example
                                       (py "relax")).
  - vm_compute. reflexivity.
  - vm_compute. reflexivity.
Defined.

(** * Further properties *)

(** ** Caesar *)

Lemma Caesar_encrypt_decrypt_char (key : Z) (c : ascii) :
  substitute (encrypt_mapping (Caesar key)) (substitute (decrypt_mapping (Caesar key)) c) = c.
Proof.
  rewrite Caesar_mod.
  assert (H : forallb (λ k, let C := Caesar k in forallb (λ c, bool_decide
                (substitute (encrypt_mapping C)
                   (substitute (decrypt_mapping C) c) = c)) all_ascii)
                caesar_keys = true)
    by (vm_compute; reflexivity).
  rewrite forallb_forall in H.
  specialize (H _ (proj1 (list_elem_of_In _ _) (caesar_keys_complete key))).
  cbv zeta in H. pose proof (forall_ascii _ H c) as Hc. cbv beta in Hc.
  apply bool_decide_eq_true in Hc. exact Hc.
Qed.

(** X1: for every integer key, [decrypt] and [encrypt] of the Caesar cipher
    are inverse to each other on every text, whatever its characters and
    their case. *)
Theorem Caesar_inverse (key : Z) (text : str) :
  mono_decrypt (Caesar key) (mono_encrypt (Caesar key) text) = text
  ∧ mono_encrypt (Caesar key) (mono_decrypt (Caesar key) text) = text.
Proof.
  split; [apply Caesar_roundtrip|].
  unfold mono_decrypt, mono_encrypt. rewrite map_map.
  induction text as [|c text IH]; [reflexivity|].
  cbn [map]. rewrite Caesar_encrypt_decrypt_char, IH. reflexivity.
Qed.

Lemma Caesar_compose_char (k1 k2 : Z) (c : ascii) :
  substitute (encrypt_mapping (Caesar k2)) (substitute (encrypt_mapping (Caesar k1)) c)
  = substitute (encrypt_mapping (Caesar (k1 + k2))) c.
Proof.
  rewrite (Caesar_mod k1), (Caesar_mod k2), (Caesar_mod (k1 + k2)).
  rewrite Z.add_mod by lia. rewrite <- (Caesar_mod (k1 mod 26 + k2 mod 26)).
  assert (H : forallb (λ a, let Ca := encrypt_mapping (Caesar a) in
                forallb (λ b, let Cb := encrypt_mapping (Caesar b) in
                              let Cab := encrypt_mapping (Caesar (a + b)) in
                  forallb (λ c, bool_decide
                    (substitute Cb (substitute Ca c) = substitute Cab c)) all_ascii)
                caesar_keys) caesar_keys = true)
    by (vm_compute; reflexivity).
  rewrite forallb_forall in H.
  specialize (H _ (proj1 (list_elem_of_In _ _) (caesar_keys_complete k1))).
  cbv zeta in H. rewrite forallb_forall in H.
  specialize (H _ (proj1 (list_elem_of_In _ _) (caesar_keys_complete k2))).
  cbv zeta in H. pose proof (forall_ascii _ H c) as Hc. cbv beta in Hc.
  apply bool_decide_eq_true in Hc. exact Hc.
Qed.

Lemma Caesar_decrypt_char (key : Z) (c : ascii) :
  substitute (decrypt_mapping (Caesar key)) c
  = substitute (encrypt_mapping (Caesar (- key))) c.
Proof.
  rewrite <- (Caesar_roundtrip_char key (substitute (encrypt_mapping (Caesar (- key))) c)).
  f_equal. rewrite Caesar_compose_char.
  replace (- key + key) with 0 by lia.
  assert (H : forallb (λ c, bool_decide
                (c = substitute (encrypt_mapping (Caesar 0)) c)) all_ascii = true)
    by (vm_compute; reflexivity).
  pose proof (forall_ascii _ H c) as Hc. cbv beta in Hc.
  apply bool_decide_eq_true in Hc. exact Hc.
Qed.

(** X2: Caesar shifts compose by adding their keys, deciphering is
    enciphering with the opposite key, and the key matters modulo 26 only. *)
Theorem Caesar_compose (k1 k2 : Z) (text : str) :
  mono_encrypt (Caesar k2) (mono_encrypt (Caesar k1) text)
  = mono_encrypt (Caesar (k1 + k2)) text
  ∧ mono_decrypt (Caesar k1) text = mono_encrypt (Caesar (- k1)) text
  ∧ Caesar (k1 + 26 * k2) = Caesar k1.
Proof.
  split; [|split].
  - unfold mono_encrypt. rewrite map_map. apply map_ext. intros c.
    apply Caesar_compose_char.
  - unfold mono_decrypt, mono_encrypt. apply map_ext. intros c.
    apply Caesar_decrypt_char.
  - rewrite (Caesar_mod (k1 + 26 * k2)), (Caesar_mod k1). f_equal.
    rewrite Z.mul_comm. apply Z.mod_add. lia.
Qed.

(** ** Tables that are inverse to each other *)

Lemma dict_lookup_Some_inv {K V} `{Countable K} (l : list (K * V)) k v :
  dict l !! k = Some v → (k, v) ∈ l.
Proof.
  rewrite dict_list_to_map. intros Hl. apply elem_of_list_to_map_2 in Hl.
  by apply elem_of_reverse.
Qed.

Lemma islower_ascii_lowercase (c : ascii) : islower c = true → c ∈ ascii_lowercase.
Proof.
  assert (H : forallb (λ c, negb (islower c) || bool_decide (c ∈ ascii_lowercase))
                all_ascii = true) by (vm_compute; reflexivity).
  pose proof (forall_ascii _ H c) as Hc. cbv beta in Hc. intros Hl.
  rewrite Hl in Hc. cbn [negb orb] in Hc. by apply bool_decide_eq_true in Hc.
Qed.

(** Two tables over a set [A] of lowercase letters, the second undoing the
    first, give a cipher whose [decrypt] undoes [encrypt] on every text. *)
Lemma substitute_inverse_tables (A : str) (enc dec : gmap ascii ascii) (c : ascii) :
  (∀ k, k ∈ A → islower k = true) →
  (∀ k, k ∈ A → ∃ v, v ∈ A ∧ enc !! k = Some v ∧ dec !! v = Some k) →
  (∀ k, k ∉ A → enc !! k = None) →
  (∀ k, k ∉ A → dec !! k = None) →
  substitute dec (substitute enc c) = c.
Proof.
  intros HA Hinv Henc Hdec.
  destruct (decide (lower c ∈ A)) as [Hin|Hout].
  - destruct (Hinv _ Hin) as (v & Hv & H1 & H2).
    destruct (islower_facts v (HA v Hv)) as (Hv1 & Hv2 & Hv3 & Hv4).
    destruct (isupper_facts c) as [Hc1 Hc2].
    unfold substitute at 2. rewrite H1. simpl.
    unfold substitute. destruct (isupper c) eqn:Hc.
    + rewrite Hv3, H2, Hv4. simpl. by apply Hc1.
    + rewrite !Hv1, H2, Hv2. simpl. by rewrite !Hc2.
  - rewrite (substitute_absent enc c) by (by apply Henc).
    apply substitute_absent. by apply Hdec.
Qed.

Lemma dict_zip_inverse (ks vs : str) (k : ascii) :
  NoDup ks → NoDup vs → length ks = length vs → k ∈ ks →
  ∃ v, v ∈ vs ∧ dict (zip ks vs) !! k = Some v ∧ dict (zip vs ks) !! v = Some k.
Proof.
  intros Hk Hv Hlen [i Hi]%list_elem_of_lookup.
  destruct (vs !! i) as [v|] eqn:E;
    [|apply lookup_ge_None in E; apply lookup_lt_Some in Hi; lia].
  exists v. split; [apply list_elem_of_lookup; eauto|]. split.
  - by apply (dict_zip_lookup ks vs i).
  - by apply (dict_zip_lookup vs ks i).
Qed.

Lemma dict_zip_absent (ks vs : str) (k : ascii) :
  length ks = length vs → k ∉ ks → dict (zip ks vs) !! k = None.
Proof. intros Hlen Hk. apply dict_lookup_None. rewrite fst_zip; [done|lia]. Qed.

(** ** Keyword *)

Lemma Keyword_alphabet (key : str) :
  Forall (λ c, c ∈ ascii_lowercase) key →
  append_new [] (key ++ ascii_lowercase) ≡ₚ ascii_lowercase.
Proof.
  intros Hkey. apply NoDup_Permutation.
  - apply append_new_NoDup, NoDup_nil_2.
  - apply ascii_lowercase_NoDup.
  - intros c. rewrite append_new_elem_of, elem_of_nil, elem_of_app.
    rewrite Forall_forall in Hkey. split; [|tauto]. intros [[]|[?|?]]; auto.
Qed.

(** X3: a keyword made of lowercase letters gives a cipher whose [decrypt]
    and [encrypt] are inverse to each other on every text. *)
Theorem Keyword_lowercase_inverse (key text : str) :
  Forall (λ c, c ∈ ascii_lowercase) key →
  mono_decrypt (Keyword key) (mono_encrypt (Keyword key) text) = text
  ∧ mono_encrypt (Keyword key) (mono_decrypt (Keyword key) text) = text.
Proof.
  intros Hkey. pose proof (Keyword_alphabet key Hkey) as Hperm.
  unfold Keyword. set (m := append_new [] (key ++ ascii_lowercase)) in *.
  cbn [mono_encrypt mono_decrypt encrypt_mapping decrypt_mapping].
  assert (Hm : NoDup m) by (rewrite Hperm; apply ascii_lowercase_NoDup).
  assert (Hlen : length ascii_lowercase = length m) by (by rewrite Hperm).
  assert (Hin : ∀ c, c ∈ m ↔ c ∈ ascii_lowercase) by (intros; by rewrite Hperm).
  pose proof ascii_lowercase_NoDup as Ha.
  unfold mono_decrypt, mono_encrypt. cbn [encrypt_mapping decrypt_mapping].
  rewrite !map_map. split.
  - rewrite <- (map_id text) at 2. apply map_ext. intros c.
    apply (substitute_inverse_tables ascii_lowercase).
    + apply ascii_lowercase_islower.
    + intros k Hk. destruct (dict_zip_inverse ascii_lowercase m k)
        as (v & Hv & H1 & H2); try done. exists v. by rewrite <- Hin.
    + intros k Hk. by apply dict_zip_absent.
    + intros k Hk. apply dict_zip_absent; [done|]. by rewrite Hin.
  - rewrite <- (map_id text) at 2. apply map_ext. intros c.
    apply (substitute_inverse_tables ascii_lowercase).
    + apply ascii_lowercase_islower.
    + intros k Hk. destruct (dict_zip_inverse m ascii_lowercase k)
        as (v & Hv & H1 & H2); try done; [by rewrite Hin|]. by exists v.
    + intros k Hk. apply dict_zip_absent; [done|]. by rewrite Hin.
    + intros k Hk. by apply dict_zip_absent.
Qed.

Lemma Keyword_lowercase_inverse_witness :
  mono_decrypt (Keyword (py "secret")) (mono_encrypt (Keyword (py "secret")) (py "Attack!"))
  = py "Attack!".
Proof.
  refine (proj1 (Keyword_lowercase_inverse (py "secret") (py "Attack!") _)).
  refine (bool_decide_unpack _ _). vm_compute. exact I.
Defined.

(** ** Affine *)

Lemma mmi_Ok (a m x : Z) : mmi a m = Ok x → 0 <= x < m ∧ (a * x) mod m = 1.
Proof.
  unfold mmi. destruct (find _ _) as [y|] eqn:E; [|done]. intros [= <-].
  apply find_some in E as [Hin Hx]. apply bool_decide_eq_true in Hx.
  apply in_map_iff in Hin as (i & <- & Hi%in_seq). split; [lia|done].
Qed.

Lemma mapM_result_lookup {A B} (f : A → result B) (l : list A) (ys : list B)
      (i : nat) (x : A) :
  mapM f l = Ok ys → l !! i = Some x → ∃ y, ys !! i = Some y ∧ f x = Ok y.
Proof.
  revert ys i. induction l as [|x0 l IH]; intros ys i H Hi; [done|].
  change (mapM f (x0 :: l)) with (y ← f x0; k ← mapM f l; mret (y :: k)) in H.
  destruct (f x0) as [y0|] eqn:E0; [|done]. cbn in H.
  destruct (mapM f l) as [k|] eqn:El; [|done]. cbn in H. injection H as <-.
  destruct i as [|i]; cbn in Hi.
  - injection Hi as <-. exists y0. done.
  - by apply (IH k i).
Qed.

Lemma mapM_result_length {A B} (f : A → result B) (l : list A) (ys : list B) :
  mapM f l = Ok ys → length ys = length l.
Proof.
  revert ys. induction l as [|x0 l IH]; intros ys H.
  - by injection H as <-.
  - change (mapM f (x0 :: l)) with (y ← f x0; k ← mapM f l; mret (y :: k)) in H.
    destruct (f x0) as [y0|]; [|done]. cbn in H.
    destruct (mapM f l) as [k|]; [|done]. cbn in H. injection H as <-.
    cbn. f_equal. by apply IH.
Qed.

Section Affine_table.
Context (alphabet : str) (g : Z → Z) (table : list (ascii * ascii)).
Hypothesis alphabet_NoDup : NoDup alphabet.
Hypothesis table_Ok :
  mapM (λ c, i ← index alphabet c;
             v ← getitem alphabet (g i mod len alphabet);
             mret (c, v)) alphabet = Ok table.

Lemma Affine_table_entry (i : nat) (c : ascii) :
  alphabet !! i = Some c →
  ∃ v, alphabet !! Z.to_nat (g (Z.of_nat i) mod len alphabet) = Some v
       ∧ table !! i = Some (c, v).
Proof.
  intros Hi. destruct (mapM_result_lookup _ _ _ i c table_Ok Hi) as ([c' v] & Hy & Hf).
  rewrite (index_lookup alphabet c i alphabet_NoDup Hi) in Hf. cbn in Hf.
  unfold getitem in Hf. cbv zeta in Hf.
  pose proof (lookup_lt_Some _ _ _ Hi) as Hlt.
  assert (Hpos : 0 < len alphabet) by (unfold len; lia).
  pose proof (Z.mod_pos_bound (g (Z.of_nat i)) (len alphabet) Hpos) as Hb.
  assert (E1 : (g (Z.of_nat i) mod len alphabet <? 0) = false) by (apply Z.ltb_ge; lia).
  assert (E2 : (Z.of_nat (length alphabet) <=? g (Z.of_nat i) mod len alphabet) = false)
    by (apply Z.leb_gt; unfold len in *; lia).
  rewrite !E1, E2 in Hf. cbn [orb] in Hf.
  destruct (alphabet !! Z.to_nat _) as [w|] eqn:Ew; [|done].
  cbn in Hf. injection Hf as <- <-. eauto.
Qed.

Lemma Affine_table_fst : table.*1 = alphabet.
Proof.
  apply list_eq. intros i. rewrite list_lookup_fmap.
  destruct (alphabet !! i) as [c|] eqn:Hi.
  - destruct (Affine_table_entry i c Hi) as (v & _ & ->). done.
  - apply lookup_ge_None in Hi.
    pose proof (mapM_result_length _ _ _ table_Ok) as Hl.
    rewrite (proj2 (lookup_ge_None table i)); [done|lia].
Qed.

Lemma Affine_table_lookup (i : nat) (c : ascii) :
  alphabet !! i = Some c →
  dict table !! c = alphabet !! Z.to_nat (g (Z.of_nat i) mod len alphabet).
Proof.
  intros Hi. destruct (Affine_table_entry i c Hi) as (v & -> & Ht).
  apply dict_lookup_Some; [by rewrite Affine_table_fst|].
  apply list_elem_of_lookup. eauto.
Qed.

Lemma Affine_table_absent (c : ascii) : c ∉ alphabet → dict table !! c = None.
Proof. intros Hc. apply dict_lookup_None. by rewrite Affine_table_fst. Qed.
End Affine_table.

Lemma Affine_arith (a b x L i : Z) :
  1 < L → (a * x) mod L = 1 → 0 <= i < L →
  (x * ((a * i + b) mod L - b)) mod L = i
  ∧ (a * ((x * (i - b)) mod L) + b) mod L = i.
Proof.
  intros HL Hax Hi. split.
  - rewrite <- Z.mul_mod_idemp_r by lia. rewrite Zminus_mod_idemp_l.
    replace (a * i + b - b) with (a * i) by lia.
    rewrite Z.mul_mod_idemp_r by lia.
    replace (x * (a * i)) with ((a * x) * i) by ring.
    rewrite <- Z.mul_mod_idemp_l, Hax by lia.
    rewrite Z.mul_1_l. by apply Z.mod_small.
  - rewrite <- Z.add_mod_idemp_l by lia. rewrite Z.mul_mod_idemp_r by lia.
    rewrite Z.add_mod_idemp_l by lia.
    replace (a * (x * (i - b)) + b) with ((a * x) * (i - b) + b) by ring.
    rewrite <- Z.add_mod_idemp_l by lia.
    rewrite <- Z.mul_mod_idemp_l, Hax by lia.
    rewrite Z.mul_1_l, Z.add_mod_idemp_l by lia.
    replace (i - b + b) with i by lia. by apply Z.mod_small.
Qed.

(** X4: over a duplicate-free alphabet of lowercase letters, an Affine
    cipher that was constructed deciphers what it enciphers and enciphers
    what it deciphers, on every text. *)
Theorem Affine_inverse (a b : Z) (alphabet : str)
        (C : MonoalphabeticSubstitutionCipher) (text : str) :
  NoDup alphabet →
  Forall (λ c, islower c = true) alphabet →
  Affine (a, b) alphabet = Ok C →
  mono_decrypt C (mono_encrypt C text) = text
  ∧ mono_encrypt C (mono_decrypt C text) = text.
Proof.
  intros Hnd Hlow HC. unfold Affine in HC.
  destruct (mmi a (len alphabet)) as [x|] eqn:Hx; [|done].
  cbv [mbind mret result_bind result_ret] in HC.
  destruct (mapM _ alphabet) as [dec|] eqn:Hdec in HC; [|discriminate HC].
  destruct (mapM _ alphabet) as [enc|] eqn:Henc in HC; [|discriminate HC].
  injection HC as <-.
  apply mmi_Ok in Hx as [Hxb Hax].
  assert (HL : 1 < len alphabet).
  { destruct (decide (len alphabet = 1)) as [E|]; [|lia].
    rewrite E, Z.mod_1_r in Hax. done. }
  rewrite Forall_forall in Hlow.
  assert (Hidx : ∀ z, ∃ v, alphabet !! Z.to_nat (z mod len alphabet) = Some v).
  { intros z. pose proof (Z.mod_pos_bound z (len alphabet) ltac:(lia)) as Hb.
    destruct (alphabet !! Z.to_nat (z mod len alphabet)) as [v|] eqn:E; [eauto|].
    apply lookup_ge_None in E. unfold len in *. lia. }
  unfold mono_decrypt, mono_encrypt. cbn [encrypt_mapping decrypt_mapping].
  rewrite !map_map. split.
  - rewrite <- (map_id text) at 2. apply map_ext. intros c.
    apply (substitute_inverse_tables alphabet); [done| | |].
    + intros k [i Hi]%list_elem_of_lookup.
      pose proof (lookup_lt_Some _ _ _ Hi) as Hlt.
      destruct (Hidx (a * Z.of_nat i + b)) as [v Hv].
      exists v. split; [apply list_elem_of_lookup; eauto|]. split.
      * by rewrite (Affine_table_lookup alphabet (λ i, a * i + b) enc Hnd Henc i k Hi).
      * rewrite (Affine_table_lookup alphabet (λ i, x * (i - b)) dec Hnd Hdec _ v Hv).
        pose proof (Z.mod_pos_bound (a * Z.of_nat i + b) (len alphabet) ltac:(lia)).
        rewrite Z2Nat.id by lia.
        rewrite (proj1 (Affine_arith a b x (len alphabet) (Z.of_nat i) HL Hax
                          ltac:(unfold len; lia))).
        by rewrite Nat2Z.id.
    + intros k Hk. by apply (Affine_table_absent alphabet (λ i, a * i + b)).
    + intros k Hk. by apply (Affine_table_absent alphabet (λ i, x * (i - b))).
  - rewrite <- (map_id text) at 2. apply map_ext. intros c.
    apply (substitute_inverse_tables alphabet); [done| | |].
    + intros k [i Hi]%list_elem_of_lookup.
      pose proof (lookup_lt_Some _ _ _ Hi) as Hlt.
      destruct (Hidx (x * (Z.of_nat i - b))) as [v Hv].
      exists v. split; [apply list_elem_of_lookup; eauto|]. split.
      * by rewrite (Affine_table_lookup alphabet (λ i, x * (i - b)) dec Hnd Hdec i k Hi).
      * rewrite (Affine_table_lookup alphabet (λ i, a * i + b) enc Hnd Henc _ v Hv).
        pose proof (Z.mod_pos_bound (x * (Z.of_nat i - b)) (len alphabet) ltac:(lia)).
        rewrite Z2Nat.id by lia.
        rewrite (proj2 (Affine_arith a b x (len alphabet) (Z.of_nat i) HL Hax
                          ltac:(unfold len; lia))).
        by rewrite Nat2Z.id.
    + intros k Hk. by apply (Affine_table_absent alphabet (λ i, x * (i - b))).
    + intros k Hk. by apply (Affine_table_absent alphabet (λ i, a * i + b)).
Qed.

Lemma Affine_inverse_witness :
  ∃ C, Affine (5, 8) ascii_lowercase = Ok C
       ∧ mono_decrypt C (mono_encrypt C (py "Hello, World")) = py "Hello, World".
Proof.
  destruct (Affine (5, 8) ascii_lowercase) as [C|e] eqn:E;
    [|vm_compute in E; discriminate E].
  exists C. split; [reflexivity|].
  refine (proj1 (Affine_inverse 5 8 ascii_lowercase C (py "Hello, World") _ _ E)).
  - refine (bool_decide_unpack _ _). vm_compute. exact I.
  - refine (bool_decide_unpack _ _). vm_compute. exact I.
Defined.

(** ** Simple *)

(** X5: a Simple cipher whose dictionary maps a set of lowercase letters
    one-to-one onto the same set deciphers what it enciphers and enciphers
    what it deciphers, on every text. *)
Theorem Simple_permutation_inverse (key : list (ascii * ascii)) (text : str) :
  NoDup key.*1 → NoDup key.*2 → key.*1 ≡ₚ key.*2 →
  Forall (λ c, islower c = true) key.*1 →
  mono_decrypt (Simple key) (mono_encrypt (Simple key) text) = text
  ∧ mono_encrypt (Simple key) (mono_decrypt (Simple key) text) = text.
Proof.
  intros Hk Hv Hp Hlow. rewrite Forall_forall in Hlow.
  set (swapped := map (λ ab : ascii * ascii, (ab.2, ab.1)) key).
  assert (Hs1 : swapped.*1 = key.*2).
  { unfold swapped. change (map ?f ?l) with (f <$> l). rewrite <- list_fmap_compose.
    done. }
  assert (Hs2 : swapped.*2 = key.*1).
  { unfold swapped. change (map ?f ?l) with (f <$> l). rewrite <- list_fmap_compose.
    done. }
  assert (Henc : ∀ k v, (k, v) ∈ key → dict key !! k = Some v).
  { intros k v Hin. by apply dict_lookup_Some. }
  assert (Hdec : ∀ k v, (k, v) ∈ key → dict swapped !! v = Some k).
  { intros k v Hin. apply dict_lookup_Some; [by rewrite Hs1|].
    unfold swapped. apply list_elem_of_fmap. by exists (k, v). }
  unfold mono_decrypt, mono_encrypt, Simple. cbn [encrypt_mapping decrypt_mapping].
  fold swapped. rewrite !map_map. split.
  - rewrite <- (map_id text) at 2. apply map_ext. intros c.
    apply (substitute_inverse_tables key.*1); [done| | |].
    + intros k Hin. apply list_elem_of_fmap in Hin as ([k' v] & -> & Hin).
      exists v. split; [|split; [by apply Henc|by apply Hdec]].
      rewrite Hp. apply list_elem_of_fmap. by exists (k', v).
    + intros k Hin. by apply dict_lookup_None.
    + intros k Hin. apply dict_lookup_None. by rewrite Hs1, <- Hp.
  - rewrite <- (map_id text) at 2. apply map_ext. intros c.
    apply (substitute_inverse_tables key.*1); [done| | |].
    + intros v Hin. rewrite Hp in Hin.
      apply list_elem_of_fmap in Hin as ([k v'] & -> & Hin).
      exists k. split; [|split; [by apply Hdec|by apply Henc]].
      apply list_elem_of_fmap. by exists (k, v').
    + intros k Hin. apply dict_lookup_None. by rewrite Hs1, <- Hp.
    + intros k Hin. by apply dict_lookup_None.
Qed.

Lemma Simple_permutation_inverse_witness :
  mono_decrypt (Simple [("a", "b"); ("b", "c"); ("c", "a")]%char)
               (mono_encrypt (Simple [("a", "b"); ("b", "c"); ("c", "a")]%char)
                             (py "A cab!")) = py "A cab!".
Proof.
  refine (proj1 (Simple_permutation_inverse
                   [("a", "b"); ("b", "c"); ("c", "a")]%char (py "A cab!") _ _ _ _)).
  - refine (bool_decide_unpack _ _). vm_compute. exact I.
  - refine (bool_decide_unpack _ _). vm_compute. exact I.
  - refine (bool_decide_unpack _ _). vm_compute. exact I.
  - refine (bool_decide_unpack _ _). vm_compute. exact I.
Defined.

(** ** Column *)

Lemma count_cons (c d : ascii) (key : str) :
  count (c :: key) d = (if decide (c = d) then 1 else 0) + count key d.
Proof.
  unfold count, len. rewrite filter_cons.
  destruct (decide (c = d)); cbn [length]; lia.
Qed.

Lemma count_absent (key : str) (c : ascii) : c ∉ key → count key c = 0.
Proof.
  induction key as [|d key IH]; intros Hc; [done|].
  apply not_elem_of_cons in Hc as [Hne Hc]. rewrite count_cons, IH by done.
  by rewrite decide_False.
Qed.

Lemma NoDup_count (key : str) (c : ascii) : NoDup key → count key c <= 1.
Proof.
  induction 1 as [|d key Hd _ IH]; [done|]. rewrite count_cons.
  destruct (decide (d = c)) as [->|]; [|lia]. rewrite count_absent by done. lia.
Qed.

Lemma Column_unique_check (key : str) :
  existsb (λ c, bool_decide (count key c > 1)) key = false ↔ NoDup key.
Proof.
  split.
  - intros Hex. apply count_le_1_NoDup. intros c Hc.
    destruct (decide (count key c <= 1)) as [|Hgt]; [done|].
    assert (existsb (λ c, bool_decide (count key c > 1)) key = true); [|congruence].
    apply existsb_exists. exists c. split; [by apply list_elem_of_In|].
    apply bool_decide_eq_true. lia.
  - intros Hnd. destruct (existsb _ key) eqn:Hex; [|done].
    apply existsb_exists in Hex as (c & _ & Hc). apply bool_decide_eq_true in Hc.
    pose proof (NoDup_count key c Hnd). lia.
Qed.

(** X6: the constructor of Column checks, in this order, that the key is
    not empty, that no key character occurs twice, and that the pad is one
    character; it succeeds exactly when all three hold, and keeps the key
    and the pad as given. *)
Theorem Column_new_spec (key pad : str) :
  (key = [] → Column_new key pad = Raise (ValueError "Invalid key!"))
  ∧ (key ≠ [] → ¬ NoDup key →
     Column_new key pad = Raise (ValueError "Each key character must be unique!"))
  ∧ (key ≠ [] → NoDup key → length pad ≠ 1%nat →
     Column_new key pad = Raise (ValueError "pad must be one character!"))
  ∧ (∀ C, Column_new key pad = Ok C ↔
          key ≠ [] ∧ NoDup key ∧ pad = [col_pad C] ∧ col_key C = key).
Proof.
  assert (Hlen : key ≠ [] → ¬ len key < 1).
  { destruct key; [done|]. unfold len. cbn [length]. lia. }
  split; [|split; [|split]].
  - intros ->. reflexivity.
  - intros Hne Hdup. unfold Column_new. rewrite decide_False by auto.
    destruct (existsb _ key) eqn:Hex; [done|].
    by apply Column_unique_check in Hex.
  - intros Hne Hnd Hpad. unfold Column_new. rewrite decide_False by auto.
    rewrite (proj2 (Column_unique_check key) Hnd).
    by destruct pad as [|p [|? ?]].
  - intros C. split.
    + intros HC. apply Column_new_inv in HC as (Hk & Hnd & Hl & Hp).
      split; [by destruct key; [cbn in Hl; lia|]|done].
    + intros (Hne & Hnd & -> & <-). unfold Column_new.
      rewrite decide_False by auto.
      rewrite (proj2 (Column_unique_check _) Hnd). by destruct C.
Qed.

Lemma Column_new_spec_witness :
  Column_new (py "banana") (py "x")
  = Raise (ValueError "Each key character must be unique!")
  ∧ Column_new (py "CIPHER") (py "xx") = Raise (ValueError "pad must be one character!")
  ∧ Column_new [] (py "xx") = Raise (ValueError "Invalid key!").
Proof.
  split; [|split].
  - refine (proj1 (proj2 (Column_new_spec (py "banana") (py "x"))) _ _).
    + discriminate.
    + intros H. revert H. refine (bool_decide_unpack _ _). vm_compute. exact I.
  - refine (proj1 (proj2 (proj2 (Column_new_spec (py "CIPHER") (py "xx")))) _ _ _).
    + discriminate.
    + refine (bool_decide_unpack _ _). vm_compute. exact I.
    + cbn. lia.
  - refine (proj1 (Column_new_spec [] (py "xx")) _). reflexivity.
Defined.

Lemma rstrip_id (pad : ascii) (s : str) : last s ≠ Some pad → rstrip pad s = s.
Proof.
  intros Hl. destruct (rstrip_spec pad s) as ([|k] & Hk & _).
  - cbn in Hk. by rewrite app_nil_r in Hk.
  - exfalso. apply Hl. rewrite Hk. rewrite replicate_S_end, !app_assoc.
    by rewrite last_snoc.
Qed.

(** X7: a text that does not end with the pad character comes back
    unchanged from [decrypt] after [encrypt], whatever its length; in
    particular the pad characters added by [encrypt] are all removed. *)
Theorem Column_roundtrip_exact (key pad : str) (C : Column) (text : str) :
  Column_new key pad = Ok C →
  last text ≠ Some (col_pad C) →
  ∃ cipher, Column_encrypt C text = Ok cipher
            ∧ Column_decrypt C cipher = Ok text.
Proof.
  intros HC Hlast. apply Column_new_inv in HC as (Hkey & Hnd & Hne & _).
  rewrite <- Hkey in Hnd, Hne.
  destruct (Column_roundtrip C Hnd Hne text) as (cipher & E1 & E2).
  exists cipher. split; [done|]. by rewrite E2, rstrip_id.
Qed.

Lemma Column_roundtrip_exact_witness :
  ∃ cipher, Column_encrypt Column_example (py "attack at dawn") = Ok cipher
            ∧ Column_decrypt Column_example cipher = Ok (py "attack at dawn").
Proof.
  apply (Column_roundtrip_exact (py "CIPHER") (py "x") Column_example).
  - vm_compute. reflexivity.
  - vm_compute. discriminate.
Defined.

Lemma concat_zip_with_cons {A} (row : list A) (cols : list (list A)) :
  length row = length cols →
  concat (zip_with cons row cols) ≡ₚ row ++ concat cols.
Proof.
  revert cols. induction row as [|x row IH]; intros [|c cols] Hlen; try done.
  cbn [zip_with concat app]. rewrite IH by (cbn in Hlen; lia).
  cbn. constructor. rewrite !app_assoc. apply Permutation_app_tail.
  apply Permutation_app_comm.
Qed.

Lemma concat_columns_of {A} (n R : nat) (text : list A) :
  length text = (n * R)%nat → concat (columns_of n text) ≡ₚ text.
Proof.
  revert text. induction R as [|R IH]; intros text Hlen.
  - rewrite Nat.mul_0_r in Hlen. apply nil_length_inv in Hlen as ->.
    unfold columns_of, slice_step. cbn [every].
    induction (seq 0 n) as [|i l IHl]; [done|exact IHl].
  - destruct (split_row n R text Hlen) as (row & rest & -> & Hrow & Hrest).
    rewrite columns_of_app_row by done.
    rewrite concat_zip_with_cons by (by rewrite columns_of_length).
    by rewrite IH.
Qed.

Lemma concat_Permutation {A} (l k : list (list A)) : l ≡ₚ k → concat l ≡ₚ concat k.
Proof.
  induction 1 as [|x l k _ IH|x y l|l k m _ IH1 _ IH2]; cbn.
  - done.
  - by rewrite IH.
  - rewrite !app_assoc. apply Permutation_app_tail, Permutation_app_comm.
  - by rewrite IH1.
Qed.

(** X8: [encrypt] never fails on a constructed Column; the ciphertext is a
    rearrangement of the text followed by fewer pad characters than the key
    is long, and its length is a multiple of the key length. *)
Theorem Column_encrypt_permutation (key pad : str) (C : Column) (text : str) :
  Column_new key pad = Ok C →
  ∃ cipher k,
    Column_encrypt C text = Ok cipher
    ∧ cipher ≡ₚ text ++ replicate k (col_pad C)
    ∧ (k < length key)%nat
    ∧ len cipher mod len key = 0.
Proof.
  intros HC. apply Column_new_inv in HC as (Hkey & Hnd & Hne & _).
  rewrite <- Hkey in *. clear Hkey key pad.
  set (n := length (col_key C)).
  unfold Column_encrypt.
  assert (Hn : len (col_key C) = Z.of_nat n) by done. rewrite !Hn.
  set (padded := if decide (len text mod Z.of_nat n ≠ 0)
                 then text ++ replicate (Z.to_nat (Z.of_nat n - len text mod Z.of_nat n))
                                        (col_pad C)
                 else text).
  assert (Hpad : ∃ k R, padded = text ++ replicate k (col_pad C)
                        ∧ (k < n)%nat ∧ length padded = (n * R)%nat).
  { pose proof (Z.div_mod (len text) (Z.of_nat n) ltac:(lia)) as Hdm.
    pose proof (Z.mod_pos_bound (len text) (Z.of_nat n) ltac:(lia)) as Hb.
    assert (0 <= len text / Z.of_nat n) by (apply Z.div_pos; unfold len; lia).
    unfold padded. destruct (decide _) as [Hne'|He].
    - eexists _, (Z.to_nat (len text / Z.of_nat n + 1)). split; [done|].
      split; [lia|].
      rewrite length_app, length_replicate. unfold len in *. nia.
    - exists 0%nat, (Z.to_nat (len text / Z.of_nat n)). split; [by rewrite app_nil_r|].
      assert (len text mod Z.of_nat n = 0)
        by (destruct (decide (len text mod Z.of_nat n = 0)); [done|by exfalso; apply He]).
      split; [lia|]. unfold len in *. nia. }
  destruct Hpad as (k & R & Hk & Hkn & HR).
  destruct (Column_cipher_of_rectangle C Hnd padded R HR) as (g & Hcols & Hparts & Hlens).
  exists (concat (map g (sorted (col_key C)))), k.
  unfold columns_of in Hparts. rewrite Hparts. cbn.
  split; [done|].
  assert (Hperm : concat (map g (sorted (col_key C))) ≡ₚ padded).
  { rewrite <- (concat_columns_of n R padded HR). fold n in Hcols. rewrite Hcols.
    apply concat_Permutation. change (map g ?l) with (g <$> l).
    apply fmap_Permutation, sorted_Permutation. }
  split; [by rewrite Hperm, Hk|]. split; [done|].
  unfold len. rewrite (Permutation_length Hperm), HR.
  rewrite Nat2Z.inj_mul, Z.mul_comm. apply Z.mod_mul. lia.
Qed.

Lemma Column_encrypt_permutation_witness :
  ∃ cipher k,
    Column_encrypt Column_example (py "relax") = Ok cipher
    ∧ cipher ≡ₚ py "relax" ++ replicate k "x"%char
    ∧ (k < length (py "CIPHER"))%nat
    ∧ len cipher mod len (py "CIPHER") = 0.
Proof.
  apply (Column_encrypt_permutation (py "CIPHER") (py "x") Column_example).
  vm_compute. reflexivity.
Defined.

Lemma uncons_columns {A} (R : nat) (cols : list (list A)) :
  Forall (λ c, length c = S R) cols →
  ∃ row cols', cols = zip_with cons row cols'
               ∧ length row = length cols ∧ length cols' = length cols
               ∧ Forall (λ c, length c = R) cols'.
Proof.
  induction 1 as [|c cols Hc _ (row & cols' & -> & Hr & Hc' & Hf)].
  - by exists [], [].
  - destruct c as [|x c]; [done|]. exists (x :: row), (c :: cols').
    cbn. split; [done|]. split; [by rewrite Hr, length_zip_with|].
    split; [by rewrite Hc', length_zip_with|].
    constructor; [cbn in Hc; lia|done].
Qed.

Lemma uniform_columns_of {A} (R : nat) (cols : list (list A)) :
  Forall (λ c, length c = R) cols →
  ∃ T, length T = (length cols * R)%nat ∧ columns_of (length cols) T = cols.
Proof.
  revert cols. induction R as [|R IH]; intros cols Hf.
  - exists []. split; [by rewrite Nat.mul_0_r|]. unfold columns_of, slice_step. cbn [every].
    induction Hf as [|c cols Hc _ IHf]; [done|].
    apply nil_length_inv in Hc as ->. cbn [length seq map]. f_equal.
    rewrite <- IHf at 2. rewrite <- seq_shift, map_map. done.
  - destruct (uncons_columns R cols Hf) as (row & cols' & -> & Hr & Hc' & Hf').
    destruct (IH cols' Hf') as (T & HT & Hcols).
    exists (row ++ T). rewrite length_app, HT, Hc', <- Hr. split; [lia|].
    rewrite columns_of_app_row by done. rewrite Hr, <- Hc'. by rewrite Hcols.
Qed.

Lemma concat_chunks {A} (n R : nat) (l : list A) :
  length l = (n * R)%nat →
  concat (map (λ i, take R (drop (i * R) l)) (seq 0 n)) = l
  ∧ Forall (λ c, length c = R) (map (λ i, take R (drop (i * R) l)) (seq 0 n)).
Proof.
  revert l. induction n as [|n IH]; intros l Hlen.
  - apply nil_length_inv in Hlen as ->; [split; [done|constructor]].
  - cbn [seq map concat]. rewrite <- seq_shift, map_map.
    rewrite Nat.mul_0_l, drop_0.
    assert (E : map (λ i, take R (drop (S i * R) l)) (seq 0 n)
                = map (λ i, take R (drop (i * R) (drop R l))) (seq 0 n)).
    { apply map_ext. intros i. rewrite drop_drop. do 2 f_equal; lia. }
    rewrite E. destruct (IH (drop R l)) as [IH1 IH2]; [rewrite length_drop; lia|].
    rewrite IH1. split; [apply take_drop|].
    constructor; [rewrite length_take; lia|done].
Qed.

(** X9: on a constructed Column, [decrypt] raises ValueError exactly when
    the length of its argument is not a multiple of the key length.
    Otherwise it returns a text without trailing pad character, and when
    fewer characters were stripped than the key is long, [encrypt] of that
    text is the argument again. *)
Theorem Column_decrypt_spec (key pad : str) (C : Column) (cipher : str) :
  Column_new key pad = Ok C →
  (len cipher mod len key ≠ 0 →
   Column_decrypt C cipher = Raise (ValueError "Not a valid ciphertext."))
  ∧ (len cipher mod len key = 0 →
     ∃ plain, Column_decrypt C cipher = Ok plain
              ∧ last plain ≠ Some (col_pad C)
              ∧ (len cipher - len plain < len key →
                 Column_encrypt C plain = Ok cipher)).
Proof.
  intros HC. apply Column_new_inv in HC as (Hkey & Hnd & Hne & _).
  rewrite <- Hkey in *. clear Hkey key pad.
  split.
  { intros Hmod. unfold Column_decrypt. by rewrite decide_True. }
  intros Hmod.
  pose (n := length (col_key C)).
  assert (Hn : len (col_key C) = Z.of_nat n) by done.
  pose (R := Z.to_nat (len cipher / len (col_key C))).
  assert (HR : len cipher / len (col_key C) = Z.of_nat R).
  { unfold R. rewrite Z2Nat.id; [done|]. apply Z.div_pos; unfold len; lia. }
  assert (Hlen : length cipher = (n * R)%nat).
  { pose proof (Z.div_mod (len cipher) (len (col_key C)) ltac:(unfold len; lia)) as Hdm.
    rewrite Hmod, HR, Hn in Hdm. unfold len in Hdm. lia. }
  set (chunks := map (λ i, take R (drop (i * R) cipher)) (seq 0 n)).
  destruct (concat_chunks n R cipher Hlen) as [Hcat Hchunks]. fold chunks in Hcat, Hchunks.
  assert (Hsnd : NoDup (sorted (col_key C))) by (by rewrite sorted_Permutation).
  assert (Hslen : length (sorted (col_key C)) = n)
    by (apply Permutation_length, sorted_Permutation).
  assert (Hclen : length chunks = n) by (unfold chunks; by rewrite length_map, length_seq).
  set (d := dict (zip (sorted (col_key C)) chunks)).
  set (h := λ k, default [] (d !! k)).
  assert (Hrepr : chunks = map h (sorted (col_key C))).
  { apply dict_zip_repr; [done|lia]. }
  assert (Hd : ∀ k, k ∈ col_key C → d !! k = Some (h k)).
  { intros k Hk. unfold d at 1. rewrite Hrepr. apply dict_zip_map; [done|].
    by rewrite sorted_Permutation. }
  assert (Hh : Forall (λ c, length c = R) (map h (col_key C))).
  { rewrite Hrepr, Forall_map in Hchunks. rewrite sorted_Permutation in Hchunks.
    by apply Forall_map. }
  destruct (uniform_columns_of R (map h (col_key C)) Hh) as (T & HT & Hcols).
  rewrite length_map in HT, Hcols. fold n in HT, Hcols.
  assert (Hdec : Column_decrypt C cipher = Ok (rstrip (col_pad C) T)).
  { unfold Column_decrypt. rewrite decide_False by (intros Hx; by apply Hx).
    rewrite HR.
    assert (E : map (λ i, slice cipher (Z.of_nat i * Z.of_nat R)
                                ((Z.of_nat i + 1) * Z.of_nat R))
                    (seq 0 (length (col_key C))) = chunks).
    { unfold chunks. apply map_ext_in. intros i Hi%in_seq.
      rewrite slice_nonneg by (unfold len; nia).
      f_equal; [nia|f_equal; nia]. }
    rewrite E. fold d. rewrite (mapM_dict_get d h).
    - cbn. rewrite <- Hcols. by rewrite (zip_star_columns n R).
    - by apply Forall_forall. }
  exists (rstrip (col_pad C) T). split; [done|].
  destruct (rstrip_spec (col_pad C) T) as (k & Hk & Hlast). split; [done|].
  intros Hshort.
  assert (Hkn : (k < n)%nat).
  { apply (f_equal length) in Hk. rewrite length_app, length_replicate in Hk.
    unfold len in Hshort. lia. }
  assert (HlenT : length (rstrip (col_pad C) T) = (n * R - k)%nat).
  { apply (f_equal length) in Hk. rewrite length_app, length_replicate in Hk. lia. }
  unfold Column_encrypt. rewrite Hn.
  set (plain := rstrip (col_pad C) T) in *.
  assert (Hpadded :
    (if decide (len plain mod Z.of_nat n ≠ 0)
     then plain ++ replicate (Z.to_nat (Z.of_nat n - len plain mod Z.of_nat n)) (col_pad C)
     else plain) = T).
  { assert (HkR : (k <= n * R)%nat).
    { apply (f_equal length) in Hk. rewrite length_app, length_replicate in Hk. lia. }
    destruct (decide (k = 0%nat)) as [->|Hk0].
    - cbn in Hk. rewrite app_nil_r in Hk.
      rewrite decide_False; [done|]. intros Hx. apply Hx. unfold len.
      rewrite HlenT, Nat.sub_0_r, Nat2Z.inj_mul, Z.mul_comm. apply Z.mod_mul. lia.
    - assert (Hm : len plain mod Z.of_nat n = Z.of_nat n - Z.of_nat k).
      { unfold len. rewrite HlenT.
        destruct R as [|R']; [lia|].
        symmetry. apply (Z.mod_unique_pos _ _ (Z.of_nat R')); lia. }
      rewrite Hm, decide_True by lia.
      replace (Z.to_nat (Z.of_nat n - (Z.of_nat n - Z.of_nat k))) with k by lia.
      by rewrite <- Hk. }
  rewrite Hpadded. fold (columns_of (length (col_key C)) T). fold n. rewrite Hcols.
  rewrite (mapM_dict_get _ h).
  - cbn. by rewrite <- Hrepr, Hcat.
  - apply Forall_forall. intros k' Hk'. apply dict_zip_map; [done|].
    by rewrite <- (sorted_Permutation (col_key C)).
Qed.

Lemma Column_decrypt_spec_witness :
  Column_decrypt Column_example (py "lrexa")
  = Raise (ValueError "Not a valid ciphertext.")
  ∧ ∃ plain, Column_decrypt Column_example (py "lrexax") = Ok plain
             ∧ last plain ≠ Some "x"%char
             ∧ (len (py "lrexax") - len plain < len (py "CIPHER") →
                Column_encrypt Column_example plain = Ok (py "lrexax")).
Proof.
  split.
  - refine (proj1 (Column_decrypt_spec (py "CIPHER") (py "x") Column_example
                                       (py "lrexa") _) _).
    + vm_compute. reflexivity.
    + vm_compute. discriminate.
  - refine (proj2 (Column_decrypt_spec (py "CIPHER") (py "x") Column_example
                                       (py "lrexax") _) _).
    + vm_compute. reflexivity.
    + vm_compute. reflexivity.
Defined.

(** ** Rail fence, any number of rails *)

Lemma ceil_periods (C : RailFence) (m : Z) :
  2 <= rf_key C →
  ceil (periods C m) = residue_count ((rf_key C - 1) * 2) 0 m.
Proof.
  intros Hk. unfold ceil, periods, residue_count, Qceiling, Qfloor.
  destruct ((rf_key C - 1) * 2) as [|b|b] eqn:E; [lia| |lia].
  cbn. rewrite Z.mul_1_r. done.
Qed.

Lemma residue_count_0 (p r : Z) : 0 <= r < p → residue_count p r 0 = 0.
Proof.
  intros Hr. unfold residue_count. rewrite Z.sub_0_r, Z.div_small by done. done.
Qed.

Lemma residue_count_shift (p r m : Z) :
  residue_count p 0 (m - r) = residue_count p r m.
Proof. unfold residue_count. f_equal. f_equal. lia. Qed.

Lemma residue_count_succ (p r t : Z) :
  0 <= r < p → 0 <= t →
  residue_count p r (t + 1) - residue_count p r t
  = if decide (t mod p = r) then 1 else 0.
Proof.
  intros Hr Ht. unfold residue_count.
  pose proof (Z.div_mod (r - t) p ltac:(lia)) as Hdm.
  pose proof (Z.mod_pos_bound (r - t) p ltac:(lia)) as Hb.
  set (q := (r - t) / p) in *. set (s := (r - t) mod p) in *.
  destruct (decide (s = 0)) as [Hs|Hs].
  - assert (E : (r - (t + 1)) / p = q - 1).
    { symmetry. apply (Z.div_unique_pos _ _ _ (p - 1)); lia. }
    rewrite E. rewrite decide_True; [lia|].
    symmetry. apply (Z.mod_unique_pos _ _ (- q)); lia.
  - assert (E : (r - (t + 1)) / p = q).
    { symmetry. apply (Z.div_unique_pos _ _ _ (s - 1)); lia. }
    rewrite E. rewrite decide_False; [lia|].
    intros Hm. apply Hs.
    pose proof (Z.div_mod t p ltac:(lia)) as Hdt. rewrite Hm in Hdt.
    unfold s. replace (r - t) with ((- (t / p)) * p) by lia.
    apply Z.mod_mul. lia.
Qed.

Lemma zigzag_length (key : Z) :
  1 <= key → length (zigzag key) = (2 * Z.to_nat (key - 1))%nat.
Proof.
  intros Hk. unfold zigzag. rewrite length_app, length_reverse, !length_seq. lia.
Qed.

Lemma zigzag_lookup (key : Z) (j : nat) :
  2 <= key → (j < 2 * Z.to_nat (key - 1))%nat →
  zigzag key !! j
  = Some (if decide (j < Z.to_nat (key - 1))%nat then j
          else (2 * Z.to_nat (key - 1) - j)%nat).
Proof.
  intros Hk Hj. unfold zigzag. set (m := Z.to_nat (key - 1)) in *.
  destruct (decide (j < m)%nat) as [Hlt|Hge].
  - rewrite lookup_app_l by (by rewrite length_seq).
    by rewrite lookup_seq_lt.
  - rewrite lookup_app_r by (rewrite length_seq; lia). rewrite length_seq.
    rewrite reverse_lookup by (rewrite length_seq; lia). rewrite length_seq.
    rewrite lookup_seq_lt by lia. f_equal. lia.
Qed.

Lemma zigzag_valid (key : Z) :
  2 <= key → Forall (λ i, (i < Z.to_nat key)%nat) (zigzag key).
Proof.
  intros Hk. apply Forall_lookup. intros j i Hj.
  pose proof (lookup_lt_Some _ _ _ Hj) as Hlt. rewrite zigzag_length in Hlt by lia.
  rewrite zigzag_lookup in Hj by done. injection Hj as <-.
  destruct (decide _); lia.
Qed.

Lemma zigzag_nonempty (key : Z) : 2 <= key → zigzag key ≠ [].
Proof.
  intros Hk E. apply (f_equal length) in E. rewrite zigzag_length in E by lia.
  cbn in E. lia.
Qed.

(** The length of a rail after dealing, from a function [F] that counts the
    calls of [next] delivering that rail. *)
Lemma dealt_rail_len (indices : list nat) (k i : nat) (F : Z → Z) :
  (∀ t : nat, F (Z.of_nat t + 1) - F (Z.of_nat t)
              = if decide (indices !! (t mod length indices)%nat = Some i)
                then 1 else 0) →
  ∀ (text : str) (t : nat) (r : str),
    dealt indices k t text !! i = Some r →
    len r = F (Z.of_nat t + len text) - F (Z.of_nat t).
Proof.
  intros HF text. induction text as [|c text IH]; intros t r Hr; cbn [dealt] in Hr.
  - apply lookup_replicate in Hr as [-> _]. unfold len. cbn [length].
    change (Z.of_nat 0) with 0. rewrite Z.add_0_r. lia.
  - specialize (HF t).
    assert (Hlen : len (c :: text) = len text + 1) by (unfold len; cbn [length]; lia).
    rewrite Hlen.
    destruct (indices !! (t mod length indices)%nat) as [i0|] eqn:Hi0.
    + destruct (decide (i0 = i)) as [->|Hne].
      * rewrite list_lookup_alter_eq in Hr.
        destruct (dealt indices k (S t) text !! i) as [r'|] eqn:Hr'; [|done].
        injection Hr as <-. specialize (IH (S t) r' Hr').
        rewrite decide_True in HF by done.
        unfold len in *. cbn [length]. rewrite Nat2Z.inj_succ in *.
        replace (Z.of_nat t + (Z.of_nat (length text) + 1))
          with (Z.succ (Z.of_nat t) + Z.of_nat (length text)) by lia.
        unfold Z.succ in *. lia.
      * rewrite list_lookup_alter_ne in Hr by done.
        specialize (IH (S t) r Hr).
        rewrite decide_False in HF by congruence.
        rewrite Nat2Z.inj_succ in IH.
        replace (Z.of_nat t + (len text + 1))
          with (Z.succ (Z.of_nat t) + len text) by lia.
        unfold Z.succ in *. lia.
    + specialize (IH (S t) r Hr). rewrite decide_False in HF by done.
      rewrite Nat2Z.inj_succ in IH.
      replace (Z.of_nat t + (len text + 1))
        with (Z.succ (Z.of_nat t) + len text) by lia.
      unfold Z.succ in *. lia.
Qed.

Lemma dealt_concat_Permutation (indices : list nat) (k t : nat) (text : str) :
  indices ≠ [] → Forall (λ i, (i < k)%nat) indices →
  concat (dealt indices k t text) ≡ₚ text.
Proof.
  intros Hne Hv. revert t. induction text as [|c text IH]; intros t; cbn [dealt].
  - clear. induction k as [|k' IH]; [done|exact IH].
  - destruct (cycle_nth_Ok indices t Hne) as (i & _ & Hi). rewrite Hi.
    assert (Hik : (i < k)%nat).
    { rewrite Forall_forall in Hv. apply Hv, list_elem_of_lookup. eauto. }
    rewrite <- (IH (S t)) at 2.
    rewrite <- (dealt_length indices k (S t) text) in Hik.
    revert Hik. generalize (dealt indices k (S t) text). clear. intros D.
    revert i. induction D as [|d D IHD]; intros i Hi; [cbn in Hi; lia|].
    destruct i as [|i]; cbn [alter list_alter concat]; [done|].
    change (list_alter (cons c) i D) with (alter (cons c) i D).
    rewrite IHD by (cbn in Hi; lia). symmetry. apply Permutation_middle.
Qed.

(** The rows cut by the loop of [decrypt] are the middle rails when their
    lengths are what the loop computes. *)
Lemma middle_rows_concat (C : RailFence) (ct : str) (mids : list str) (idxs : list Z) :
  ∀ pre rest,
    ct = pre ++ concat mids ++ rest →
    Forall2 (λ i r, len r = ceil (periods C (len ct - i))
                            + ceil (periods C (len ct - i - (rf_key C - i - 1) * 2)))
            idxs mids →
    middle_rows C ct (len pre) idxs = (mids, len pre + len (concat mids)).
Proof.
  intros pre rest Hct Hf. revert pre Hct.
  induction Hf as [|i r idxs mids Hr _ IH]; intros pre Hct.
  - cbn. f_equal. unfold len. cbn. lia.
  - cbn [middle_rows]. rewrite <- Z.add_assoc, <- Hr.
    cbn [concat] in Hct. rewrite <- !app_assoc in Hct.
    assert (Hpre : len pre + len r = len (pre ++ r))
      by (unfold len; rewrite length_app; lia).
    rewrite Hpre, (IH (pre ++ r)) by (by rewrite <- app_assoc).
    rewrite <- Hpre. f_equal.
    + f_equal. rewrite slice_nonneg.
      * unfold len. rewrite Z2Nat.inj_add, !Nat2Z.id by lia.
        rewrite Hct, drop_app_length.
        replace (length pre + length r - length pre)%nat with (length r) by lia.
        apply take_app_length.
      * unfold len. lia.
      * rewrite Hct. unfold len. rewrite !length_app. lia.
    + cbn [concat]. unfold len. rewrite !length_app. lia.
Qed.

Lemma zigzag_hits (key : Z) (i t : nat) :
  2 <= key → (i < Z.to_nat (key - 1))%nat →
  (if decide (zigzag key !! (t mod length (zigzag key))%nat = Some i) then 1 else 0)
  = (if decide (Z.of_nat t mod ((key - 1) * 2) = Z.of_nat i) then 1 else 0)
    + (if decide (i ≠ 0%nat
                  ∧ Z.of_nat t mod ((key - 1) * 2) = (key - 1) * 2 - Z.of_nat i)
       then 1 else 0).
Proof.
  intros Hk Hi. rewrite zigzag_length by lia.
  set (m := Z.to_nat (key - 1)) in *.
  assert (Hp : (key - 1) * 2 = Z.of_nat (2 * m)) by lia. rewrite Hp.
  rewrite <- Nat2Z.inj_mod.
  pose proof (Nat.mod_upper_bound t (2 * m) ltac:(lia)) as Hj.
  set (j := (t mod (2 * m))%nat) in *.
  rewrite zigzag_lookup by done. fold m.
  destruct (decide (j < m)%nat) as [Hlt|Hge].
  - destruct (decide (j = i)) as [->|Hne].
    + rewrite decide_True by done. rewrite decide_True by done.
      rewrite decide_False by lia. done.
    + rewrite decide_False by congruence. rewrite decide_False by lia.
      rewrite decide_False by lia. done.
  - destruct (decide ((2 * m - j)%nat = i)) as [<-|Hne].
    + rewrite decide_True by done. rewrite decide_False by lia.
      rewrite decide_True by lia. done.
    + rewrite decide_False by congruence. rewrite decide_False by lia.
      rewrite decide_False by lia. done.
Qed.

Lemma RailFence_rail_lengths (key : Z) (text : str) (i : nat) (r : str) :
  2 <= key → (i < Z.to_nat (key - 1))%nat →
  dealt (zigzag key) (Z.to_nat key) 0 text !! i = Some r →
  len r = residue_count ((key - 1) * 2) (Z.of_nat i) (len text)
          + (if decide (i = 0%nat) then 0
             else residue_count ((key - 1) * 2) ((key - 1) * 2 - Z.of_nat i) (len text)).
Proof.
  intros Hk Hi Hr. set (p := (key - 1) * 2).
  assert (Hp : 0 < p) by (unfold p; lia).
  destruct (decide (i = 0%nat)) as [->|Hi0].
  - assert (HF : ∀ t : nat,
      residue_count p 0 (Z.of_nat t + 1) - residue_count p 0 (Z.of_nat t)
      = if decide (zigzag key !! (t mod length (zigzag key))%nat = Some 0%nat)
        then 1 else 0).
    { intros t. rewrite zigzag_hits by done. fold p.
      rewrite residue_count_succ by lia. change (Z.of_nat 0) with 0.
      rewrite (decide_False (P := _ ∧ _)) by (intros [? _]; done). lia. }
    rewrite (dealt_rail_len (zigzag key) (Z.to_nat key) 0
                            (residue_count p 0) HF text 0 r Hr).
    change (Z.of_nat 0) with 0. rewrite Z.add_0_l, residue_count_0 by lia. lia.
  - assert (HF : ∀ t : nat,
      (residue_count p (Z.of_nat i) (Z.of_nat t + 1)
       + residue_count p (p - Z.of_nat i) (Z.of_nat t + 1))
      - (residue_count p (Z.of_nat i) (Z.of_nat t)
         + residue_count p (p - Z.of_nat i) (Z.of_nat t))
      = if decide (zigzag key !! (t mod length (zigzag key))%nat = Some i)
        then 1 else 0).
    { intros t. rewrite zigzag_hits by done. fold p.
      pose proof (residue_count_succ p (Z.of_nat i) (Z.of_nat t)
                    ltac:(unfold p; lia) ltac:(lia)) as H1.
      pose proof (residue_count_succ p (p - Z.of_nat i) (Z.of_nat t)
                    ltac:(unfold p; lia) ltac:(lia)) as H2.
      destruct (decide (Z.of_nat t mod p = Z.of_nat i));
        destruct (decide (Z.of_nat t mod p = p - Z.of_nat i));
        destruct (decide (i ≠ 0%nat ∧ Z.of_nat t mod p = p - Z.of_nat i));
        try lia; tauto. }
    rewrite (dealt_rail_len (zigzag key) (Z.to_nat key) i
               (λ t, residue_count p (Z.of_nat i) t
                     + residue_count p (p - Z.of_nat i) t) HF text 0 r Hr).
    change (Z.of_nat 0) with 0. rewrite Z.add_0_l, !residue_count_0 by (unfold p; lia).
    lia.
Qed.

(** X10: for every constructed RailFence (any key of at least 1) and every
    text, [encrypt] returns a rearrangement of the text and [decrypt]
    returns the text from it: the row lengths computed by [decrypt] from the
    length alone are those of the rails. *)
Theorem RailFence_roundtrip (key : Z) (C : RailFence) (text : str) :
  RailFence_new key = Ok C →
  ∃ cipher, RailFence_encrypt C text = Ok cipher
            ∧ cipher ≡ₚ text
            ∧ RailFence_decrypt C cipher = Ok text.
Proof.
  unfold RailFence_new. destruct (decide (key < 1)) as [|Hk1]; [done|].
  intros [= <-].
  unfold RailFence_encrypt, RailFence_decrypt. cbn [rf_key].
  destruct (decide (key = 1)) as [->|Hk]; [by exists text|].
  assert (Hkey : 2 <= key) by lia.
  pose proof (zigzag_nonempty key Hkey) as Hne.
  pose proof (zigzag_valid key Hkey) as Hv.
  set (k := Z.to_nat key) in *. set (ind := zigzag key) in *.
  set (rails := dealt ind k 0 text).
  exists (concat rails).
  rewrite (deal_dealt ind k Hne Hv) by apply length_replicate.
  rewrite zip_with_app_nil by apply dealt_length. fold rails.
  split; [done|]. split; [by apply dealt_concat_Permutation|].
  pose proof (dealt_length ind k 0 text) as Hrl. fold rails in Hrl.
  pose proof (dealt_concat_length ind k Hne Hv 0 text) as Hcl. fold rails in Hcl.
  pose proof (read_dealt ind k Hne Hv 0 text) as Hread. fold rails in Hread.
  assert (Hlens : ∀ i r, (i < Z.to_nat (key - 1))%nat → rails !! i = Some r →
            len r = residue_count ((key - 1) * 2) (Z.of_nat i) (len text)
                    + (if decide (i = 0%nat) then 0
                       else residue_count ((key - 1) * 2)
                              ((key - 1) * 2 - Z.of_nat i) (len text))).
  { intros i r Hi Hr. by apply RailFence_rail_lengths. }
  clearbody rails.
  destruct rails as [|r0 rest]; [cbn in Hrl; lia|].
  induction rest as [|rl mids _] using rev_ind; [cbn in Hrl; lia|].
  assert (Hmids : length mids = Z.to_nat (key - 2)).
  { cbn [length] in Hrl. rewrite length_app in Hrl. cbn in Hrl. lia. }
  set (ct := concat (r0 :: mids ++ [rl])) in *.
  assert (Hct : ct = r0 ++ concat mids ++ rl).
  { unfold ct. cbn [concat]. rewrite concat_app. cbn [concat].
    by rewrite app_nil_r. }
  assert (Hlen : len ct = len text) by (unfold len; by rewrite Hcl).
  assert (H0 : ceil (periods {| rf_key := key |} (len ct)) = len r0).
  { rewrite ceil_periods by done. cbn [rf_key]. rewrite Hlen.
    rewrite (Hlens 0%nat r0) by (done || lia).
    rewrite decide_True by done. change (Z.of_nat 0) with 0. lia. }
  assert (Hf : Forall2 (λ i r, len r = ceil (periods {| rf_key := key |} (len ct - i))
                               + ceil (periods {| rf_key := key |} (len ct - i - (key - i - 1) * 2)))
                       (map (λ j, 1 + Z.of_nat j) (seq 0 (Z.to_nat (key - 2)))) mids).
  { apply Forall2_same_length_lookup_2.
    - by rewrite length_map, length_seq.
    - intros j i r Hj Hr.
      change (map ?f ?l) with (f <$> l) in Hj. rewrite list_lookup_fmap in Hj.
      pose proof (lookup_lt_Some _ _ _ Hr) as Hjlt.
      rewrite lookup_seq_lt in Hj by lia. cbn in Hj. injection Hj as <-.
      rewrite !ceil_periods by done. cbn [rf_key]. rewrite Hlen.
      rewrite !residue_count_shift.
      rewrite (Hlens (S j) r); [|lia|].
      + rewrite decide_False by done. rewrite Nat2Z.inj_succ.
        replace (1 + Z.of_nat j) with (Z.succ (Z.of_nat j)) by lia.
        f_equal. rewrite <- (residue_count_shift _ _ (len text - _)).
        unfold residue_count. f_equal. f_equal. lia.
      + change ((mids ++ [rl]) !! j = Some r). by rewrite lookup_app_l by lia. }
  rewrite H0.
  rewrite (middle_rows_concat {| rf_key := key |} ct mids _ r0 rl Hct Hf).
  assert (S0 : slice_to ct (len r0) = r0).
  { unfold slice_to. rewrite slice_nonneg.
    - change (Z.to_nat 0) with 0%nat. rewrite drop_0, Nat.sub_0_r.
      unfold len. rewrite Nat2Z.id, Hct. apply take_app_length.
    - unfold len. lia.
    - rewrite Hct. unfold len. rewrite !length_app. lia. }
  assert (S2 : slice_from ct (len r0 + len (concat mids)) = rl).
  { unfold slice_from. rewrite slice_nonneg.
    - rewrite take_ge by (rewrite length_drop; unfold len in *; lia).
      unfold len. rewrite Z2Nat.inj_add, !Nat2Z.id by lia.
      rewrite Hct, app_assoc, <- length_app. apply drop_app_length.
    - rewrite Hct. unfold len. rewrite !length_app. lia.
    - lia. }
  rewrite S0, S2.
  replace (length ct) with (length text) by (unfold len in Hlen; lia).
  exact Hread.
Qed.

Lemma RailFence_roundtrip_witness :
  ∃ cipher, RailFence_encrypt {| rf_key := 4 |} (py "WEAREDISCOVERED") = Ok cipher
            ∧ cipher ≡ₚ py "WEAREDISCOVERED"
            ∧ RailFence_decrypt {| rf_key := 4 |} cipher = Ok (py "WEAREDISCOVERED").
Proof.
  apply (RailFence_roundtrip 4). reflexivity.
Defined.

#[local] Arguments FourSquare_encrypt_pair : simpl never.
#[local] Arguments FourSquare_decrypt_pair : simpl never.

(** ** FourSquare *)

Lemma len_cons2_mod {A} (a b : A) (l : list A) :
  len (a :: b :: l) mod 2 = len l mod 2.
Proof.
  unfold len. cbn [length]. rewrite !Nat2Z.inj_succ.
  replace (Z.succ (Z.succ (Z.of_nat (length l))))
    with (Z.of_nat (length l) + 1 * 2) by lia.
  apply Z.mod_add. lia.
Qed.

Lemma pairwise_snoc_even {A} (l : list A) (c : A) :
  len l mod 2 = 0 → pairwise (l ++ [c]) = pairwise l.
Proof.
  induction l as [|a|a b l IH] using pair_ind; intros Hl; [done|done|].
  rewrite len_cons2_mod in Hl. cbn [app pairwise]. by rewrite IH.
Qed.

Section FourSquare_pairs.
Context (F : FourSquare).
Hypothesis wfA : Polybius_wf (fs_alphabet F).
Hypothesis wf1 : Polybius_wf (fs_keys F).1.
Hypothesis wf2 : Polybius_wf (fs_keys F).2.
Hypothesis side1 : side (fs_keys F).1 = side (fs_alphabet F).
Hypothesis side2 : side (fs_keys F).2 = side (fs_alphabet F).

Lemma FourSquare_pair_roundtrip (a b : ascii) :
  a ∈ contents (fs_alphabet F) → b ∈ contents (fs_alphabet F) →
  ∃ x y, FourSquare_encrypt_pair F (a, b) = Ok [x; y]
         ∧ x ∈ contents (fs_keys F).1 ∧ y ∈ contents (fs_keys F).2
         ∧ FourSquare_decrypt_pair F (x, y) = Ok [a; b].
Proof.
  intros Ha Hb.
  destruct (Polybius_coords_char _ a wfA Ha) as (x1 & y1 & Ea & Hx1 & Hy1 & Ea').
  destruct (Polybius_coords_char _ b wfA Hb) as (x2 & y2 & Eb & Hx2 & Hy2 & Eb').
  destruct (Polybius_char_coords _ x1 y2 wf1) as (x & Ex & Hx & Ex'); [lia..|].
  destruct (Polybius_char_coords _ x2 y1 wf2) as (y & Ey & Hy & Ey'); [lia..|].
  exists x, y. unfold FourSquare_encrypt_pair, FourSquare_decrypt_pair.
  rewrite Ea, Eb. cbn. rewrite Ex, Ey. cbn. repeat split; try done.
  rewrite Ex', Ey'. cbn. by rewrite Ea', Eb'.
Qed.

Lemma FourSquare_pair_roundtrip_back (x y : ascii) :
  x ∈ contents (fs_keys F).1 → y ∈ contents (fs_keys F).2 →
  ∃ a b, FourSquare_decrypt_pair F (x, y) = Ok [a; b]
         ∧ a ∈ contents (fs_alphabet F) ∧ b ∈ contents (fs_alphabet F)
         ∧ FourSquare_encrypt_pair F (a, b) = Ok [x; y].
Proof.
  intros Hx Hy.
  destruct (Polybius_coords_char _ x wf1 Hx) as (x1 & y1 & Ea & Hx1 & Hy1 & Ea').
  destruct (Polybius_coords_char _ y wf2 Hy) as (x2 & y2 & Eb & Hx2 & Hy2 & Eb').
  destruct (Polybius_char_coords _ x1 y2 wfA) as (a & Ex & Ha & Ex'); [lia..|].
  destruct (Polybius_char_coords _ x2 y1 wfA) as (b & Ey & Hb & Ey'); [lia..|].
  exists a, b. unfold FourSquare_encrypt_pair, FourSquare_decrypt_pair.
  rewrite Ea, Eb. cbn. rewrite Ex, Ey. cbn. repeat split; try done.
  rewrite Ex', Ey'. cbn. by rewrite Ea', Eb'.
Qed.

Lemma FourSquare_even_roundtrip (text : str) :
  len text mod 2 = 0 →
  Forall (λ c, c ∈ contents (fs_alphabet F)) text →
  ∃ cipher, mapM (FourSquare_encrypt_pair F) (pairwise text) = Ok cipher
            ∧ length (concat cipher) = length text
            ∧ FourSquare_decrypt F (concat cipher) = Ok text.
Proof.
  induction text as [|a|a b text IH] using pair_ind; intros Hlen Htext.
  - by exists [].
  - done.
  - rewrite len_cons2_mod in Hlen.
    apply Forall_cons in Htext as [Ha Htext].
    apply Forall_cons in Htext as [Hb Htext].
    destruct (IH Hlen Htext) as (rest & E1 & Hl & E2).
    destruct (FourSquare_pair_roundtrip a b Ha Hb) as (x & y & Exy & _ & _ & Eab).
    exists ([x; y] :: rest). cbn [pairwise].
    change (mapM ?f (?p :: ?l)) with (r ← f p; k ← mapM f l; mret (r :: k)).
    rewrite Exy, E1. cbn. split; [done|]. split; [by rewrite Hl|].
    unfold FourSquare_decrypt in *. cbn [pairwise].
    change (mapM ?f (?p :: ?l)) with (r ← f p; k ← mapM f l; mret (r :: k)).
    rewrite Eab. cbn.
    destruct (mapM (FourSquare_decrypt_pair F) (pairwise (concat rest))) as [ds|];
      [|done].
    cbn in *. by injection E2 as ->.
Qed.

Lemma FourSquare_even_roundtrip_back (cipher : str) :
  len cipher mod 2 = 0 →
  Forall (λ xy, xy.1 ∈ contents (fs_keys F).1 ∧ xy.2 ∈ contents (fs_keys F).2)
         (pairwise cipher) →
  ∃ plain, FourSquare_decrypt F cipher = Ok plain
           ∧ len plain mod 2 = 0
           ∧ mapM (FourSquare_encrypt_pair F) (pairwise plain)
             = Ok (map (λ xy, [xy.1; xy.2]) (pairwise cipher))
           ∧ concat (map (λ xy : ascii * ascii, [xy.1; xy.2]) (pairwise cipher)) = cipher.
Proof.
  induction cipher as [|x|x y cipher IH] using pair_ind; intros Hlen Hc.
  - by exists [].
  - done.
  - rewrite len_cons2_mod in Hlen. cbn [pairwise] in Hc.
    apply Forall_cons in Hc as [[Hx Hy] Hc]. cbn [fst snd] in Hx, Hy.
    destruct (IH Hlen Hc) as (rest & E1 & Hl & E2 & E3).
    destruct (FourSquare_pair_roundtrip_back x y Hx Hy) as (a & b & Eab & _ & _ & Exy).
    exists (a :: b :: rest). unfold FourSquare_decrypt in *. cbn [pairwise map].
    change (mapM ?f (?p :: ?l)) with (r ← f p; k ← mapM f l; mret (r :: k)).
    rewrite Eab, Exy, E2. cbn [fst snd concat].
    destruct (mapM (FourSquare_decrypt_pair F) (pairwise cipher)) as [ds|]; [|done].
    cbn in E1. injection E1 as <-. cbn. rewrite E3.
    by rewrite len_cons2_mod.
Qed.
End FourSquare_pairs.

(** X11: with three duplicate-free squares of one side and a padding
    character of the alphabet square, FourSquare deciphers what it
    enciphers: a text over the alphabet square comes back as it is when its
    length is even and with the padding character appended when it is odd.
    The ciphertext is as long as the padded text. *)
Theorem FourSquare_roundtrip (F : FourSquare) (p : ascii) (text : str) :
  Polybius_wf (fs_alphabet F) →
  Polybius_wf (fs_keys F).1 → Polybius_wf (fs_keys F).2 →
  side (fs_keys F).1 = side (fs_alphabet F) →
  side (fs_keys F).2 = side (fs_alphabet F) →
  fs_padding F = [p] → p ∈ contents (fs_alphabet F) →
  Forall (λ c, c ∈ contents (fs_alphabet F)) text →
  ∃ cipher,
    FourSquare_encrypt F text = Ok cipher
    ∧ len cipher = len text + len text mod 2
    ∧ FourSquare_decrypt F cipher
      = Ok (if decide (len text mod 2 = 1) then text ++ [p] else text).
Proof.
  intros wfA wf1 wf2 s1 s2 Hpad Hp Htext. unfold FourSquare_encrypt.
  rewrite Hpad.
  pose proof (Z.mod_pos_bound (len text) 2 ltac:(lia)) as Hb.
  set (padded := if decide (len text mod 2 = 1) then text ++ [p] else text).
  assert (Hlen : len padded = len text + len text mod 2).
  { unfold padded. destruct (decide _) as [->|Hne].
    - unfold len. rewrite length_app. cbn. lia.
    - lia. }
  assert (Heven : len padded mod 2 = 0).
  { rewrite Hlen. rewrite Z.add_mod_idemp_r by lia.
    replace (len text + len text) with (len text * 2) by lia.
    apply Z.mod_mul. lia. }
  assert (Hin : Forall (λ c, c ∈ contents (fs_alphabet F)) padded).
  { unfold padded. destruct (decide _); [|done].
    apply Forall_app. split; [done|]. by apply Forall_singleton. }
  destruct (FourSquare_even_roundtrip F wfA wf1 wf2 s1 s2 padded Heven Hin)
    as (cipher & E1 & Hl & E2).
  exists (concat cipher). rewrite E1. cbn. split; [done|].
  split; [|done]. unfold len in *. by rewrite Hl.
Qed.

Lemma FourSquare_example_wf :
  Polybius_wf (fs_alphabet FourSquare_example)
  ∧ Polybius_wf (fs_keys FourSquare_example).1
  ∧ Polybius_wf (fs_keys FourSquare_example).2.
Proof.
  unfold Polybius_wf. repeat split;
    try (refine (bool_decide_unpack _ _); vm_compute; exact I);
    try (vm_compute; reflexivity); try (vm_compute; discriminate).
Qed.

Lemma FourSquare_roundtrip_witness :
  ∃ cipher,
    FourSquare_encrypt FourSquare_example (py "hello") = Ok cipher
    ∧ len cipher = len (py "hello") + len (py "hello") mod 2
    ∧ FourSquare_decrypt FourSquare_example cipher
      = Ok (if decide (len (py "hello") mod 2 = 1) then py "hello" ++ ["x"%char]
            else py "hello").
Proof.
  apply (FourSquare_roundtrip FourSquare_example "x" (py "hello")).
  - apply FourSquare_example_wf.
  - apply FourSquare_example_wf.
  - apply FourSquare_example_wf.
  - vm_compute. reflexivity.
  - vm_compute. reflexivity.
  - reflexivity.
  - refine (bool_decide_unpack _ _). vm_compute. exact I.
  - refine (bool_decide_unpack _ _). vm_compute. exact I.
Defined.

(** X12: [FourSquare.decrypt] does not check the length of its argument: a
    last character without a partner is dropped. For a ciphertext of even
    length whose pairs lie in the two key squares, [decrypt] returns a text
    of even length that [encrypt] turns into the ciphertext again. *)
Theorem FourSquare_decrypt_spec (F : FourSquare) (cipher : str) (c : ascii) :
  Polybius_wf (fs_alphabet F) →
  Polybius_wf (fs_keys F).1 → Polybius_wf (fs_keys F).2 →
  side (fs_keys F).1 = side (fs_alphabet F) →
  side (fs_keys F).2 = side (fs_alphabet F) →
  len cipher mod 2 = 0 →
  Forall (λ xy, xy.1 ∈ contents (fs_keys F).1 ∧ xy.2 ∈ contents (fs_keys F).2)
         (pairwise cipher) →
  FourSquare_decrypt F (cipher ++ [c]) = FourSquare_decrypt F cipher
  ∧ ∃ plain, FourSquare_decrypt F cipher = Ok plain
             ∧ FourSquare_encrypt F plain = Ok cipher.
Proof.
  intros wfA wf1 wf2 s1 s2 Hlen Hc. split.
  - unfold FourSquare_decrypt. by rewrite pairwise_snoc_even.
  - destruct (FourSquare_even_roundtrip_back F wfA wf1 wf2 s1 s2 cipher Hlen Hc)
      as (plain & E1 & Hl & E2 & E3).
    exists plain. split; [done|]. unfold FourSquare_encrypt.
    rewrite decide_False by lia. rewrite E2. cbn. by rewrite E3.
Qed.

Lemma FourSquare_decrypt_spec_witness :
  FourSquare_decrypt FourSquare_example (py "fyghzs" ++ ["q"%char])
  = FourSquare_decrypt FourSquare_example (py "fyghzs")
  ∧ ∃ plain, FourSquare_decrypt FourSquare_example (py "fyghzs") = Ok plain
             ∧ FourSquare_encrypt FourSquare_example plain = Ok (py "fyghzs").
Proof.
  apply (FourSquare_decrypt_spec FourSquare_example (py "fyghzs") "q").
  - apply FourSquare_example_wf.
  - apply FourSquare_example_wf.
  - apply FourSquare_example_wf.
  - vm_compute. reflexivity.
  - vm_compute. reflexivity.
  - vm_compute. reflexivity.
  - refine (bool_decide_unpack _ _). vm_compute. exact I.
Defined.

(** ** Playfair: deciphering what was enciphered *)

Lemma mod5_up_down (c : Z) :
  0 <= c < 5 → 0 <= (c + 1) mod 5 < 5 ∧ ((c + 1) mod 5 - 1) mod 5 = c.
Proof.
  intros Hc.
  assert (H : c = 0 ∨ c = 1 ∨ c = 2 ∨ c = 3 ∨ c = 4) by lia.
  destruct H as [->|[->|[->|[->| ->]]]];
    (split; [apply Z.mod_pos_bound; lia|reflexivity]).
Qed.

Lemma mod5_up_inj (c d : Z) :
  0 <= c < 5 → 0 <= d < 5 → (c + 1) mod 5 = (d + 1) mod 5 → c = d.
Proof.
  intros Hc Hd E. rewrite <- (proj2 (mod5_up_down c Hc)), E.
  apply mod5_up_down, Hd.
Qed.

(** One digraph through [__polyb]: the result, and what [__polyb] with
    [decrypt=True] makes of it. *)
Lemma Playfair_polyb_digraph (P : Playfair) (a b : ascii) :
  Playfair_wf P → a ∈ pf_alphabet P → b ∈ pf_alphabet P →
  ∃ x y, Playfair_polyb P false ([a], [b]) = Ok [x; y]
         ∧ x ∈ pf_alphabet P ∧ y ∈ pf_alphabet P
         ∧ (a = b → x = y)
         ∧ (a ≠ b → x ≠ y ∧ Playfair_polyb P true ([x], [y]) = Ok [a; b]).
Proof.
  intros (_ & _ & _ & _ & Hwf & Hside & Hsame) Ha Hb.
  apply Hsame in Ha, Hb.
  destruct (Polybius_coords_char _ a Hwf Ha) as (r1 & c1 & Ea & Hr1 & Hc1 & Ea').
  destruct (Polybius_coords_char _ b Hwf Hb) as (r2 & c2 & Eb & Hr2 & Hc2 & Eb').
  rewrite Hside in *.
  assert (Hchar : ∀ r c, 0 <= r < 5 → 0 <= c < 5 →
            ∃ x, Polybius_char (pf_polybius P) (r, c) = Ok x
                 ∧ x ∈ pf_alphabet P
                 ∧ Polybius_coords (pf_polybius P) x = Ok (r, c)).
  { intros r c Hr Hc.
    destruct (Polybius_char_coords _ r c Hwf) as (x & Hx & Hin & Hco);
      rewrite ?Hside; try done.
    exists x. split; [done|]. split; [by apply Hsame|done]. }
  assert (Hab : a = b → r1 = r2 ∧ c1 = c2).
  { intros ->. rewrite Ea in Eb. by injection Eb. }
  assert (Hba : r1 = r2 → c1 = c2 → a = b).
  { intros -> ->. rewrite Ea' in Eb'. by injection Eb'. }
  pose proof (mod5_up_down r1 Hr1) as [Hr1u Hr1d].
  pose proof (mod5_up_down r2 Hr2) as [Hr2u Hr2d].
  pose proof (mod5_up_down c1 Hc1) as [Hc1u Hc1d].
  pose proof (mod5_up_down c2 Hc2) as [Hc2u Hc2d].
  unfold Playfair_polyb at 1. cbn [fst snd Polybius_coords_str]. rewrite Ea, Eb. cbn.
  destruct (decide (r1 ≠ r2 ∧ c1 ≠ c2)) as [[Hr Hc]|Hn].
  - destruct (Hchar r1 c2) as (x & Ex & Hx & Ex'); [done..|].
    destruct (Hchar r2 c1) as (y & Ey & Hy & Ey'); [done..|].
    exists x, y. rewrite Ex, Ey. cbn. repeat split; try done.
    + intros Heq. destruct (Hab Heq). done.
    + intros ->. rewrite Ex' in Ey'. injection Ey' as ?. done.
    + unfold Playfair_polyb. cbn [fst snd Polybius_coords_str].
      rewrite Ex', Ey'. cbn. rewrite decide_True by done.
      by rewrite Ea', Eb'.
  - destruct (decide (r1 = r2)) as [Hr|Hr].
    + destruct (Hchar r1 ((c1 + 1) mod 5)) as (x & Ex & Hx & Ex'); [done..|].
      destruct (Hchar r2 ((c2 + 1) mod 5)) as (y & Ey & Hy & Ey'); [done..|].
      exists x, y. rewrite Ex, Ey. cbn. repeat split; try done.
      * intros Heq. destruct (Hab Heq) as [_ ->]. rewrite <- Hr, Ex in Ey.
        by injection Ey.
      * intros ->. rewrite Ex' in Ey'. injection Ey' as _ E.
        apply mod5_up_inj in E; [|done..]. apply H. by apply Hba.
      * unfold Playfair_polyb. cbn [fst snd Polybius_coords_str].
        rewrite Ex', Ey'. cbn. rewrite decide_False by tauto.
        rewrite decide_True by done. rewrite Hc1d, Hc2d.
        by rewrite Ea', Eb'.
    + assert (Hc : c1 = c2) by (destruct (decide (c1 = c2)); [done|tauto]).
      rewrite decide_True by done.
      destruct (Hchar ((r1 + 1) mod 5) c1) as (x & Ex & Hx & Ex'); [done..|].
      destruct (Hchar ((r2 + 1) mod 5) c2) as (y & Ey & Hy & Ey'); [done..|].
      exists x, y. rewrite Ex, Ey. cbn. repeat split; try done.
      * intros Heq. destruct (Hab Heq) as [? _]. done.
      * intros ->. rewrite Ex' in Ey'. injection Ey' as E.
        apply mod5_up_inj in E; [|done..]. done.
      * unfold Playfair_polyb. cbn [fst snd Polybius_coords_str].
        rewrite Ex', Ey'. cbn.
        assert (Hne : (r1 + 1) mod 5 ≠ (r2 + 1) mod 5).
        { intros E. apply mod5_up_inj in E; done. }
        rewrite decide_False by tauto. rewrite decide_False by done.
        rewrite decide_True by done. rewrite Hr1d, Hr2d.
        by rewrite Ea', Eb'.
Qed.

Lemma Playfair_digraphs (P : Playfair) (ds : list (ascii * ascii)) :
  Playfair_wf P →
  Forall (λ ab, ab.1 ∈ pf_alphabet P ∧ ab.2 ∈ pf_alphabet P) ds →
  ∃ qs : list (ascii * ascii),
    mapM (Playfair_polyb P false) (map (λ ab, ([ab.1], [ab.2])) ds)
    = Ok (map (λ xy, [xy.1; xy.2]) qs)
    ∧ Forall (λ xy, xy.1 ∈ pf_alphabet P ∧ xy.2 ∈ pf_alphabet P) qs
    ∧ Forall2 (λ ab xy,
                 (ab.1 = ab.2 → xy.1 = xy.2)
                 ∧ (ab.1 ≠ ab.2 →
                    xy.1 ≠ xy.2
                    ∧ Playfair_polyb P true ([xy.1], [xy.2]) = Ok [ab.1; ab.2]))
              ds qs.
Proof.
  intros Hwf. induction 1 as [|[a b] ds [Ha Hb] _ (qs & E & Hqs & Hf)].
  - exists []. done.
  - cbn [fst snd] in Ha, Hb.
    destruct (Playfair_polyb_digraph P a b Hwf Ha Hb)
      as (x & y & Exy & Hx & Hy & Heq & Hne).
    exists ((x, y) :: qs). cbn [map fst snd].
    change (mapM ?f (?p :: ?l)) with (r ← f p; k ← mapM f l; mret (r :: k)).
    rewrite Exy, E. split; [done|]. split; [by constructor|].
    constructor; [|done]. done.
Qed.

Lemma pairwise_concat_pairs {A} (qs : list (A * A)) :
  pairwise (concat (map (λ xy, [xy.1; xy.2]) qs)) = qs
  ∧ len (concat (map (λ xy : A * A, [xy.1; xy.2]) qs)) mod 2 = 0.
Proof.
  induction qs as [|[x y] qs [IH1 IH2]]; [done|].
  cbn [map concat app fst snd pairwise]. rewrite IH1.
  split; [done|]. unfold len in *. cbn [length]. rewrite !Nat2Z.inj_succ.
  replace (Z.succ (Z.succ (Z.of_nat (length (concat (map (λ xy : A * A, [xy.1; xy.2]) qs))))))
    with (Z.of_nat (length (concat (map (λ xy : A * A, [xy.1; xy.2]) qs))) + 1 * 2) by lia.
  by rewrite Z.mod_add by lia.
Qed.

Lemma cipher_pairs_loop_Forall (Q : str * str → Prop) (ps : list (str * str)) :
  Forall Q ps → Forall Q (cipher_pairs_loop ps).1.
Proof.
  induction 1 as [|[a b] ps Hp _ IH]; [done|].
  cbn [cipher_pairs_loop]. destruct (decide (a = b)); [done|].
  destruct (cipher_pairs_loop ps) as [ys e]. cbn in *. by constructor.
Qed.

Section Playfair_enciphered.
Context (P : Playfair) (text : str).
Hypothesis wf : Playfair_wf P.
Hypothesis no_leftover_padding :
  spec_leftover (Playfair_letters P text) ≠ Some (pf_padding P).

Local Abbreviation digraphs :=
  (spec_pairs (pf_breaker P) (pf_padding P) (Playfair_letters P text)).

Lemma Playfair_encrypt_decrypt :
  ∃ qs : list (ascii * ascii),
    Playfair_encrypt P text = Ok (concat (map (λ xy, [xy.1; xy.2]) qs))
    ∧ (Forall (λ ab, ab.1 ≠ ab.2) digraphs →
       Playfair_decrypt P (concat (map (λ xy, [xy.1; xy.2]) qs))
       = Ok (concat (map (λ ab, [ab.1; ab.2]) digraphs)))
    ∧ (Exists (λ ab, ab.1 = ab.2) digraphs →
       Playfair_decrypt P (concat (map (λ xy, [xy.1; xy.2]) qs))
       = Raise (ValueError "Invalid ciphertext!")).
Proof.
  pose proof wf as (_ & _ & Hbr & Hpad & _).
  assert (Hletters : Forall (λ c, c ∈ pf_alphabet P) (Playfair_letters P text)).
  { unfold Playfair_letters. apply Forall_forall. intros c Hc.
    by apply list_elem_of_filter in Hc as [? _]. }
  pose proof (spec_pairs_Forall (λ c, c ∈ pf_alphabet P) _ _ _ Hbr Hpad Hletters) as Hds.
  destruct (Playfair_digraphs P digraphs wf Hds) as (qs & E & Hqs & Hf).
  exists qs.
  set (cipher := concat (map (λ xy : ascii * ascii, [xy.1; xy.2]) qs)).
  destruct (pairwise_concat_pairs qs) as [Hpw Heven]. fold cipher in Hpw, Heven.
  assert (Hcipher : Forall (λ c, c ∈ pf_alphabet P) cipher).
  { unfold cipher. apply Forall_concat, Forall_map.
    eapply Forall_impl; [exact Hqs|]. intros [x y] [Hx Hy]. by repeat constructor. }
  assert (Hpairs : pairwise (map (omit P) cipher) = map (λ xy, ([xy.1], [xy.2])) qs).
  { rewrite (omit_alphabet P cipher wf Hcipher), pairwise_map. by rewrite Hpw. }
  split; [|split].
  - unfold Playfair_encrypt, Playfair_plain_pairs.
    rewrite Playfair_plain_letters by done.
    rewrite (proj1 (plain_pairs_loop_spec _ _ _) no_leftover_padding).
    unfold join_generated. cbn [fst snd]. rewrite E. done.
  - intros Hdist. unfold Playfair_decrypt, Playfair_cipher_pairs.
    rewrite decide_False by (intros Hx; by apply Hx).
    rewrite Hpairs. rewrite cipher_pairs_loop_distinct.
    + unfold join_generated. cbn [fst snd].
      assert (Hm : mapM (Playfair_polyb P true) (map (λ xy, ([xy.1], [xy.2])) qs)
                   = Ok (map (λ ab, [ab.1; ab.2]) digraphs)).
      { clear -Hf Hdist. induction Hf as [|[a b] [x y] ds qs [_ H] _ IH]; [done|].
        apply Forall_cons in Hdist as [Hab Hdist]. cbn [fst snd] in *.
        destruct (H Hab) as [_ Hxy]. cbn [map fst snd].
        change (mapM ?f (?p :: ?l)) with (r ← f p; k ← mapM f l; mret (r :: k)).
        by rewrite Hxy, (IH Hdist). }
      by rewrite Hm.
    + intros Hex. apply Exists_exists in Hex as ([u v] & Hin & Huv).
      apply list_elem_of_fmap in Hin as ([x y] & [= -> ->] & Hin). cbn in Huv.
      injection Huv as ->.
      clear -Hf Hdist Hin. induction Hf as [|[a b] [x' y'] ds qs [_ H] _ IH];
        [by apply elem_of_nil in Hin|].
      apply Forall_cons in Hdist as [Hab Hdist]. cbn [fst snd] in *.
      apply elem_of_cons in Hin as [[= <- <-]|Hin]; [|by apply IH].
      by destruct (H Hab).
  - intros Hex. unfold Playfair_decrypt, Playfair_cipher_pairs.
    rewrite decide_False by (intros Hx; by apply Hx).
    rewrite Hpairs.
    set (ps := map (λ xy : ascii * ascii, ([xy.1], [xy.2])) qs).
    assert (Hid : Exists (λ ab : str * str, ab.1 = ab.2) ps).
    { unfold ps. clear -Hf Hex. induction Hf as [|[a b] [x y] ds qs [H _] _ IH];
        [by apply Exists_nil in Hex|].
      cbn [map fst snd] in *. apply Exists_cons in Hex as [Hab|Hex].
      - left. cbn in *. by rewrite (H Hab).
      - right. by apply IH. }
    destruct (cipher_pairs_loop_identical ps Hid) as [ys Hys].
    assert (Hok : Forall (λ ab, ∃ s, Playfair_polyb P true ab = Ok s) ys).
    { replace ys with (cipher_pairs_loop ps).1 by (by rewrite Hys).
      apply cipher_pairs_loop_Forall. unfold ps. apply Forall_map.
      eapply Forall_impl; [exact Hqs|]. intros [x y] [Hx Hy].
      by apply Playfair_polyb_total. }
    apply mapM_Ok_Forall in Hok as [parts Hparts].
    rewrite Hys. unfold join_generated. cbn [fst snd]. rewrite Hparts. done.
Qed.
End Playfair_enciphered.

(** X13: when the letter left for the final digraph is not the padding
    letter and no digraph consists of one letter twice, Playfair deciphers
    its own ciphertext to the digraphs that were enciphered: the letters of
    the text with the breaker between two equal letters of a pair and the
    padding letter after an unpaired last letter. *)
Theorem Playfair_roundtrip
        (key breaker padding : str) (omitted : list (ascii * str))
        (P : Playfair) (text : str) :
  Playfair_new key breaker padding omitted = Ok P →
  spec_leftover (Playfair_letters P text) ≠ Some (pf_padding P) →
  Forall (λ ab, ab.1 ≠ ab.2)
         (spec_pairs (pf_breaker P) (pf_padding P) (Playfair_letters P text)) →
  ∃ cipher,
    Playfair_encrypt P text = Ok cipher
    ∧ Playfair_decrypt P cipher
      = Ok (concat (map (λ ab, [ab.1; ab.2])
                        (spec_pairs (pf_breaker P) (pf_padding P)
                                    (Playfair_letters P text)))).
Proof.
  intros HP Hleft Hdist. apply Playfair_new_wf in HP as Hwf.
  destruct (Playfair_encrypt_decrypt P text Hwf Hleft) as (qs & E & Hd & _).
  eexists. split; [exact E|]. by apply Hd.
Qed.

Lemma Playfair_roundtrip_witness :
  ∃ cipher,
    Playfair_encrypt Playfair_example (py "Hide the gold") = Ok cipher
    ∧ Playfair_decrypt Playfair_example cipher
      = Ok (concat (map (λ ab, [ab.1; ab.2])
                        (spec_pairs (pf_breaker Playfair_example)
                                    (pf_padding Playfair_example)
                                    (Playfair_letters Playfair_example
                                                      (py "Hide the gold"))))).
Proof.
  apply (Playfair_roundtrip (py "playfair example") (py "x") (py "z")
                            [("j"%char, py "i")]).
  - vm_compute. reflexivity.
  - vm_compute. discriminate.
  - refine (bool_decide_unpack _ _). vm_compute. exact I.
Defined.

(** X14: [encrypt] can return a ciphertext that [decrypt] rejects. When a
    digraph consists of one letter twice (the breaker next to itself, as
    after "XX" with breaker "x": only the lowercase pair is collapsed),
    [__polyb] maps it to one letter twice, and [decrypt] raises ValueError
    on the result. *)
Theorem Playfair_encrypt_rejected
        (key breaker padding : str) (omitted : list (ascii * str))
        (P : Playfair) (text : str) :
  Playfair_new key breaker padding omitted = Ok P →
  spec_leftover (Playfair_letters P text) ≠ Some (pf_padding P) →
  Exists (λ ab, ab.1 = ab.2)
         (spec_pairs (pf_breaker P) (pf_padding P) (Playfair_letters P text)) →
  ∃ cipher,
    Playfair_encrypt P text = Ok cipher
    ∧ Playfair_decrypt P cipher = Raise (ValueError "Invalid ciphertext!").
Proof.
  intros HP Hleft Hex. apply Playfair_new_wf in HP as Hwf.
  destruct (Playfair_encrypt_decrypt P text Hwf Hleft) as (qs & E & _ & Hr).
  eexists. split; [exact E|]. by apply Hr.
Qed.

Lemma Playfair_encrypt_rejected_witness :
  ∃ cipher,
    Playfair_encrypt Playfair_example (py "XX") = Ok cipher
    ∧ Playfair_decrypt Playfair_example cipher
      = Raise (ValueError "Invalid ciphertext!").
Proof.
  apply (Playfair_encrypt_rejected (py "playfair example") (py "x") (py "z")
                                   [("j"%char, py "i")]).
  - vm_compute. reflexivity.
  - vm_compute. discriminate.
  - refine (bool_decide_unpack _ _). vm_compute. exact I.
Defined.

(** ** Bifid *)

Lemma range_step_0 (start stop : Z) :
  range_step start stop 0 = Raise (ValueError "range() arg 3 must not be zero").
Proof. reflexivity. Qed.

Lemma range_step_2 (n : nat) :
  range_step 0 (Z.of_nat (2 * n)) 2 = Ok (map (λ j, Z.of_nat (2 * j)) (seq 0 n)).
Proof.
  unfold range_step. rewrite decide_False by done. rewrite decide_True by done.
  replace ((Z.of_nat (2 * n) - 0 + 2 - 1) / 2) with (Z.of_nat n).
  - rewrite Nat2Z.id. f_equal. apply map_ext. intros j. lia.
  - apply (Z.div_unique_pos _ _ _ 1); lia.
Qed.

Lemma range_step_half (n : nat) :
  (0 < n)%nat →
  range_step 0 (Z.of_nat (2 * n)) (Z.of_nat (2 * n) / 2) = Ok [0; Z.of_nat n].
Proof.
  intros Hn.
  assert (E : Z.of_nat (2 * n) / 2 = Z.of_nat n).
  { symmetry. apply (Z.div_unique_pos _ _ _ 0); lia. }
  rewrite E. unfold range_step. rewrite decide_False by lia.
  rewrite decide_True by lia.
  replace ((Z.of_nat (2 * n) - 0 + Z.of_nat n - 1) / Z.of_nat n) with 2.
  - change (Z.to_nat 2) with 2%nat. cbn [seq map]. f_equal.
    repeat (f_equal; try lia).
  - apply (Z.div_unique_pos _ _ _ (Z.of_nat n - 1)); lia.
Qed.

Lemma mapM_result_app {A B} (f : A → result B) (l1 l2 : list A) :
  mapM f (l1 ++ l2) = (a ← mapM f l1; b ← mapM f l2; mret (a ++ b)).
Proof.
  induction l1 as [|x l1 IH].
  - cbn. by destruct (mapM f l2).
  - cbn [app].
    change (mapM f (x :: ?l)) with (y ← f x; k ← mapM f l; mret (y :: k)).
    rewrite IH. destruct (f x) as [y|]; [|done]. cbn.
    destruct (mapM f l1) as [a|]; [|done]. cbn.
    by destruct (mapM f l2).
Qed.

Lemma mapM_result_ext {A B} (f g : A → result B) (l : list A) :
  Forall (λ x, f x = g x) l → mapM f l = mapM g l.
Proof.
  induction 1 as [|x l Hx _ IH]; [done|].
  change (mapM ?h (x :: l)) with (y ← h x; k ← mapM h l; mret (y :: k)).
  by rewrite Hx, IH.
Qed.

Lemma mapM_result_map {A B C} (f : B → result C) (g : A → B) (l : list A) :
  mapM f (map g l) = mapM (λ x, f (g x)) l.
Proof.
  induction l as [|x l IH]; [done|]. cbn [map].
  change (mapM ?h (?y :: ?k)) with (z ← h y; r ← mapM h k; mret (z :: r)).
  by rewrite IH.
Qed.

(** [zip] applied to the unpacked coordinate pairs: the row of first
    coordinates and the row of second coordinates. *)
Lemma zip_star_tuples (cs : list (Z * Z)) :
  concat (zip_star (map coords_tuple cs)) = map fst cs ++ map snd cs.
Proof.
  destruct cs as [|c0 cs0]; [done|]. set (cs := c0 :: cs0).
  change (zip_star (map coords_tuple cs))
    with (zip_star_go 2 (map coords_tuple cs)).
  assert (H1 : mapM head (map coords_tuple cs) = Some (map fst cs)).
  { clear. induction cs as [|[r c] cs IH]; [done|].
    cbn [map coords_tuple fst]. cbn. cbn in IH. by rewrite IH. }
  assert (H2 : mapM head (map tail (map coords_tuple cs)) = Some (map snd cs)).
  { clear. induction cs as [|[r c] cs IH]; [done|].
    cbn [map coords_tuple snd]. cbn. cbn in IH. by rewrite IH. }
  cbn [zip_star_go]. rewrite H1, H2. cbn. by rewrite app_nil_r.
Qed.

Lemma zip_star_rows (rs cs : list Z) :
  length rs = length cs →
  zip_star [rs; cs] = map coords_tuple (zip rs cs).
Proof.
  unfold zip_star. revert cs. induction rs as [|r rs IH]; intros [|c cs] Hl; try done.
  cbn [length zip_star_go zip zip_with map]. cbn [mapM]. cbn.
  f_equal. apply IH. cbn in Hl. lia.
Qed.

Lemma slices_pairs {A} (flat : list A) (n : nat) :
  length flat = (2 * n)%nat →
  map (λ i, slice flat i (i + 2)) (map (λ j, Z.of_nat (2 * j)) (seq 0 n))
  = map (λ p, [p.1; p.2]) (pairwise flat).
Proof.
  revert flat. induction n as [|n IH]; intros flat Hl.
  - destruct flat; [done|cbn in Hl; lia].
  - destruct flat as [|a [|b flat]]; [cbn in Hl; lia..|].
    cbn [seq map pairwise fst snd]. f_equal.
    + rewrite slice_nonneg by (unfold len; cbn [length]; lia). reflexivity.
    + rewrite <- seq_shift, !map_map. rewrite <- (IH flat) by (cbn in Hl; lia).
      rewrite map_map. apply map_ext_in. intros j Hj%in_seq.
      cbn [length] in Hl.
      rewrite !slice_nonneg by (unfold len; cbn [length]; lia).
      replace (Z.to_nat (Z.of_nat (2 * S j))) with (S (S (2 * j))) by lia.
      cbn [drop]. f_equal; [lia|]. f_equal. lia.
Qed.

Lemma concat_pairwise {A} (flat : list A) :
  len flat mod 2 = 0 → concat (map (λ p, [p.1; p.2]) (pairwise flat)) = flat.
Proof.
  induction flat as [|a|a b flat IH] using pair_ind; intros Hl; [done|done|].
  cbn [pairwise map concat fst snd app]. do 2 f_equal. apply IH.
  unfold len in *. cbn [length] in Hl. rewrite !Nat2Z.inj_succ in Hl.
  replace (Z.succ (Z.succ (Z.of_nat (length flat))))
    with (Z.of_nat (length flat) + 1 * 2) in Hl by lia.
  by rewrite Z.mod_add in Hl by lia.
Qed.

Section Bifid_square.
Context (p : Polybius).
Hypothesis wf : Polybius_wf p.

Local Abbreviation in_square := (λ rc : Z * Z, 0 <= rc.1 < side p ∧ 0 <= rc.2 < side p).

Lemma coords_of_text (text : str) :
  Forall (λ c, c ∈ contents p) text →
  ∃ cs, mapM (Polybius_coords p) text = Ok cs
        ∧ length cs = length text
        ∧ Forall in_square cs
        ∧ mapM (Polybius_char p) cs = Ok text.
Proof.
  induction 1 as [|c text Hc _ (cs & E & Hl & Hin & E')]; [by exists []|].
  destruct (Polybius_coords_char p c wf Hc) as (r & k & Er & Hr & Hk & Er').
  exists ((r, k) :: cs).
  change (mapM ?h (?y :: ?l)) with (z ← h y; q ← mapM h l; mret (z :: q)).
  rewrite Er, E, Er', E'. cbn. split; [done|]. split; [by rewrite Hl|].
  split; [|done]. by constructor.
Qed.

Lemma chars_of_coords (cs : list (Z * Z)) :
  Forall in_square cs →
  ∃ xs, mapM (Polybius_char p) cs = Ok xs
        ∧ length xs = length cs
        ∧ Forall (λ c, c ∈ contents p) xs
        ∧ mapM (Polybius_coords p) xs = Ok cs.
Proof.
  induction 1 as [|[r k] cs [Hr Hk] _ (xs & E & Hl & Hin & E')]; [by exists []|].
  cbn [fst snd] in Hr, Hk.
  destruct (Polybius_char_coords p r k wf Hr Hk) as (x & Ex & Hx & Ex').
  exists (x :: xs).
  change (mapM ?h (?y :: ?l)) with (z ← h y; q ← mapM h l; mret (z :: q)).
  rewrite Ex, E, Ex', E'. cbn. split; [done|]. split; [by rewrite Hl|].
  split; [|done]. by constructor.
Qed.

Lemma mapM_char_tuple (cs : list (Z * Z)) :
  mapM (Polybius_char_tuple p) (map (λ rc, [rc.1; rc.2]) cs)
  = mapM (Polybius_char p) cs.
Proof.
  rewrite mapM_result_map. apply mapM_result_ext, Forall_forall.
  by intros [r k] _.
Qed.
End Bifid_square.

Lemma pairwise_length {A} (flat : list A) (n : nat) :
  length flat = (2 * n)%nat → length (pairwise flat) = n.
Proof.
  revert n. induction flat as [|a|a b flat IH] using pair_ind; intros n Hl.
  - cbn in *. lia.
  - cbn in Hl. lia.
  - destruct n as [|n]; [cbn in Hl; lia|]. cbn [pairwise length]. f_equal.
    apply IH. cbn in Hl. lia.
Qed.

Lemma concat_tuples_length (cs : list (Z * Z)) :
  length (concat (map coords_tuple cs)) = (2 * length cs)%nat.
Proof. induction cs as [|c cs IH]; [done|]. cbn in *. lia. Qed.

Lemma Bifid_decrypt_block_nil (B : Bifid) :
  Bifid_decrypt_block B [] = Raise (ValueError "range() arg 3 must not be zero").
Proof. reflexivity. Qed.

Lemma Bifid_encrypt_block_nil (B : Bifid) : Bifid_encrypt_block B [] = Ok [].
Proof. reflexivity. Qed.

(** What [__decrypt_block] computes on a block that is not empty: the
    flattened coordinates are cut into two halves, which are read as the
    rows and the columns. *)
Lemma Bifid_decrypt_block_eval (B : Bifid) (xs : str) (cs : list (Z * Z)) :
  mapM (Polybius_coords (bf_polybius B)) xs = Ok cs → cs ≠ [] →
  Bifid_decrypt_block B xs
  = mapM (Polybius_char (bf_polybius B))
         (zip (take (length cs) (concat (map coords_tuple cs)))
              (drop (length cs) (concat (map coords_tuple cs)))).
Proof.
  intros E Hne. unfold Bifid_decrypt_block. rewrite E.
  cbv [mbind result_bind]. cbv zeta.
  set (flat := concat (map coords_tuple cs)).
  pose proof (concat_tuples_length cs) as Hfl. fold flat in Hfl.
  set (n := length cs) in *.
  assert (Hn : (0 < n)%nat) by (destruct cs; [done|cbn; lia]).
  assert (Hlen : len flat = Z.of_nat (2 * n)) by (unfold len; by rewrite Hfl).
  rewrite Hlen, range_step_half by done.
  assert (Hhalf : Z.of_nat (2 * n) / 2 = Z.of_nat n).
  { symmetry. apply (Z.div_unique_pos _ _ _ 0); lia. }
  rewrite Hhalf. cbn [map].
  rewrite !slice_nonneg by (unfold len; lia).
  replace (Z.to_nat (0 + Z.of_nat n) - Z.to_nat 0)%nat with n by lia.
  replace (Z.to_nat (Z.of_nat n + Z.of_nat n) - Z.to_nat (Z.of_nat n))%nat
    with n by lia.
  change (Z.to_nat 0) with 0%nat. rewrite drop_0, Nat2Z.id.
  rewrite (take_ge (drop n flat)) by (rewrite length_drop; lia).
  rewrite zip_star_rows by (rewrite length_take, length_drop; lia).
  unfold coords_tuple. apply mapM_char_tuple.
Qed.

Section Bifid_blocks.
Context (B : Bifid).
Hypothesis wf : Polybius_wf (bf_polybius B).

Local Abbreviation sq := (bf_polybius B).

Lemma Bifid_decrypt_block_total (xs : str) :
  Forall (λ c, c ∈ contents sq) xs → xs ≠ [] →
  ∃ plain, Bifid_decrypt_block B xs = Ok plain.
Proof.
  intros Hxs Hne.
  destruct (coords_of_text sq wf xs Hxs) as (cs & E & Hl & Hin & _).
  assert (Hcs : cs ≠ []) by (destruct cs, xs; done).
  rewrite (Bifid_decrypt_block_eval B xs cs E Hcs).
  set (flat := concat (map coords_tuple cs)).
  assert (Hflat : Forall (λ z, 0 <= z < side sq) flat).
  { unfold flat. apply Forall_concat, Forall_map.
    eapply Forall_impl; [exact Hin|]. intros [r k] [Hr Hk]. cbn in *.
    apply Forall_cons; split; [done|]. apply Forall_cons; split; [done|].
    constructor. }
  destruct (chars_of_coords sq wf
              (zip (take (length cs) flat) (drop (length cs) flat)))
    as (plain & Ep & _); [|eauto].
  apply Forall_forall. intros [r k] Hrk.
  apply elem_of_zip_l in Hrk as Hr. apply elem_of_zip_r in Hrk as Hk.
  cbn [fst snd] in *. rewrite Forall_forall in Hflat. split.
  - apply Hflat. by apply (subseteq_take (length cs) flat).
  - apply Hflat. by apply (subseteq_drop (length cs) flat).
Qed.

Lemma Bifid_block_roundtrip (text : str) :
  Forall (λ c, lower c ∈ contents sq) text →
  ∃ cipher, Bifid_encrypt_block B text = Ok cipher
            ∧ length cipher = length text
            ∧ Forall (λ c, c ∈ contents sq) cipher
            ∧ (text ≠ [] → Bifid_decrypt_block B cipher = Ok (map lower text)).
Proof.
  intros Htext.
  assert (Hlow : Forall (λ c, c ∈ contents sq) (map lower text)) by (by apply Forall_map).
  destruct (coords_of_text sq wf _ Hlow) as (cs & E & Hl & Hin & E').
  rewrite length_map in Hl.
  unfold Bifid_encrypt_block. rewrite E.
  cbv [mbind result_bind]. cbv zeta. rewrite zip_star_tuples.
  set (flat := map fst cs ++ map snd cs).
  set (n := length cs) in *.
  assert (Hfl : length flat = (2 * n)%nat).
  { unfold flat. rewrite length_app, !length_map. fold n. lia. }
  assert (Hlen : len flat = Z.of_nat (2 * n)) by (unfold len; by rewrite Hfl).
  rewrite Hlen, range_step_2.
  rewrite <- (mapM_result_map (Polybius_char_tuple sq) (λ i, slice flat i (i + 2))).
  rewrite (slices_pairs flat n Hfl), mapM_char_tuple.
  assert (Hflat : Forall (λ z, 0 <= z < side sq) flat).
  { unfold flat. apply Forall_app. split; apply Forall_map;
      (eapply Forall_impl; [exact Hin|]); by intros [r k] [Hr Hk]. }
  destruct (chars_of_coords sq wf (pairwise flat)) as (xs & Ex & Hxl & Hxs & Ex').
  { eapply Forall_impl; [apply pairwise_Forall, Hflat|]. by intros [r k]. }
  exists xs. split; [done|].
  rewrite (pairwise_length flat n Hfl) in Hxl.
  split; [lia|]. split; [done|]. intros Hne.
  assert (Hps : pairwise flat ≠ []).
  { intros Hnil. apply (f_equal length) in Hnil.
    rewrite (pairwise_length flat n Hfl) in Hnil. destruct text; [done|].
    cbn in *. lia. }
  rewrite (Bifid_decrypt_block_eval B xs _ Ex' Hps).
  unfold coords_tuple. rewrite concat_pairwise
    by (rewrite Hlen, Nat2Z.inj_mul, Z.mul_comm; apply Z.mod_mul; lia).
  rewrite (pairwise_length flat n Hfl). unfold flat.
  rewrite take_app_length' by (by rewrite length_map).
  rewrite drop_app_length' by (by rewrite length_map).
  change (map fst cs) with (cs.*1). change (map snd cs) with (cs.*2).
  by rewrite zip_fst_snd.
Qed.
End Bifid_blocks.

Lemma mapM_result_Forall2 {A B} (f : A → result B) (R : A → B → Prop) (l : list A) :
  Forall (λ x, ∃ y, f x = Ok y ∧ R x y) l →
  ∃ ys, mapM f l = Ok ys ∧ Forall2 R l ys.
Proof.
  induction 1 as [|x l (y & Ey & Hy) _ (ys & E & Hf)]; [by exists []|].
  exists (y :: ys).
  change (mapM f (x :: l)) with (z ← f x; q ← mapM f l; mret (z :: q)).
  rewrite Ey, E. split; [done|]. by constructor.
Qed.

(** The blocks that [encrypt] and [decrypt] cut: all of the period's
    length, followed by one shorter block, which is empty when the length of
    the text is a multiple of the period. *)
Lemma Bifid_blocks_concat (B : Bifid) (bs : list str) (last : str) :
  bf_period B > 0 →
  Forall (λ b, length b = Z.to_nat (bf_period B)) bs →
  (length last < Z.to_nat (bf_period B))%nat →
  Bifid_blocks B (concat bs ++ last) = bs ++ [last].
Proof.
  intros Hp Hbs Hlast. set (p := Z.to_nat (bf_period B)) in *.
  assert (HP : bf_period B = Z.of_nat p) by lia.
  set (n := length bs).
  pose proof (concat_length_uniform p bs Hbs) as Hcl. fold n in Hcl.
  set (text := concat bs ++ last).
  assert (Hlen : length text = (n * p + length last)%nat).
  { unfold text. rewrite length_app. lia. }
  unfold Bifid_blocks. rewrite HP.
  assert (Hq : len text / Z.of_nat p = Z.of_nat n).
  { symmetry. apply (Z.div_unique_pos _ _ _ (Z.of_nat (length last)));
      unfold len; lia. }
  rewrite Hq. unfold range.
  replace (Z.to_nat (Z.of_nat n + 1)) with (S n) by lia.
  rewrite seq_S, !map_app. cbn [map Nat.add]. f_equal.
  - rewrite map_map.
    transitivity (map (λ i, take p (drop (i * p) (concat bs))) (seq 0 (length bs)));
      [|by apply chunks_concat].
    fold n. apply map_ext_in. intros i Hi%in_seq.
    rewrite slice_nonneg by (unfold len; nia).
    replace (Z.to_nat ((Z.of_nat i + 1) * Z.of_nat p) - Z.to_nat (Z.of_nat i * Z.of_nat p))%nat
      with p by nia.
    replace (Z.to_nat (Z.of_nat i * Z.of_nat p)) with (i * p)%nat by nia.
    unfold text. rewrite drop_app_le by nia.
    apply take_app_le. rewrite length_drop. nia.
  - f_equal. unfold slice, clamp.
    assert (E1 : (Z.of_nat n * Z.of_nat p <? 0) = false) by (apply Z.ltb_ge; lia).
    assert (E2 : ((Z.of_nat n + 1) * Z.of_nat p <? 0) = false) by (apply Z.ltb_ge; lia).
    rewrite E1, E2.
    assert (HlenZ : len text = Z.of_nat n * Z.of_nat p + Z.of_nat (length last))
      by (unfold len; rewrite Hlen; lia).
    assert (Hcat : Z.of_nat n * Z.of_nat p = Z.of_nat (length (concat bs)))
      by (rewrite Hcl; lia).
    rewrite (Z.min_l (Z.of_nat n * Z.of_nat p)) by lia.
    rewrite (Z.min_r ((Z.of_nat n + 1) * Z.of_nat p)) by lia.
    rewrite HlenZ, Hcat, Nat2Z.id.
    unfold text. rewrite drop_app_length.
    apply take_ge. lia.
Qed.

Lemma Bifid_blocks_split (B : Bifid) (text : str) :
  bf_period B > 0 →
  ∃ bs last, text = concat bs ++ last
             ∧ Forall (λ b, length b = Z.to_nat (bf_period B)) bs
             ∧ (length last < Z.to_nat (bf_period B))%nat
             ∧ (Z.of_nat (length last) = len text mod bf_period B).
Proof.
  intros Hp. set (p := Z.to_nat (bf_period B)).
  assert (HP : bf_period B = Z.of_nat p) by lia.
  set (q := (length text / p)%nat).
  pose proof (Nat.div_mod_eq (length text) p) as Hdm. fold q in Hdm.
  pose proof (Nat.mod_upper_bound (length text) p ltac:(lia)) as Hm.
  destruct (concat_chunks q p (take (q * p) text)) as [Hc Hf].
  { rewrite length_take. lia. }
  eexists _, (drop (q * p) text). split; [|split; [exact Hf|split]].
  - by rewrite Hc, take_drop.
  - rewrite length_drop. lia.
  - rewrite length_drop, HP. unfold len. rewrite <- Nat2Z.inj_mod. lia.
Qed.

(** X15: [Bifid.decrypt] fails on an empty last block. It raises ValueError
    (the step of [range] is the row length 0) on the empty text for every
    Bifid, although [encrypt] returns the empty text for it; and with a
    period it raises on every text over the square whose length is a
    multiple of the period. *)
Theorem Bifid_decrypt_empty_block (B : Bifid) (text : str) :
  Bifid_encrypt B [] = Ok []
  ∧ Bifid_decrypt B [] = Raise (ValueError "range() arg 3 must not be zero")
  ∧ (Polybius_wf (bf_polybius B) →
     Forall (λ c, c ∈ contents (bf_polybius B)) text →
     bf_period B > 0 → len text mod bf_period B = 0 →
     Bifid_decrypt B text = Raise (ValueError "range() arg 3 must not be zero")).
Proof.
  assert (Hnil : bf_period B > 0 → Bifid_blocks B [] = [[]]).
  { intros Hp. unfold Bifid_blocks.
    change (len []) with 0. rewrite Z.div_0_l by lia.
    change (range (0 + 1)) with [0]. cbn [map]. f_equal.
    unfold slice. by rewrite drop_nil, take_nil. }
  split; [|split].
  - unfold Bifid_encrypt. destruct (decide _) as [Hp|]; [|done].
    by rewrite Hnil.
  - unfold Bifid_decrypt. destruct (decide _) as [Hp|]; [|done].
    by rewrite Hnil.
  - intros wf Htext Hp Hmod. unfold Bifid_decrypt. rewrite decide_True by done.
    destruct (Bifid_blocks_split B text Hp) as (bs & last & -> & Hbs & Hl & Hm).
    rewrite Hmod in Hm.
    assert (last = []) as -> by (destruct last; [done|cbn [length] in Hm; lia]).
    rewrite (Bifid_blocks_concat B bs []) by done.
    rewrite mapM_result_app.
    rewrite app_nil_r in Htext.
    destruct (mapM_Ok_Forall (Bifid_decrypt_block B) bs) as [ps ->]; [|done].
    apply Forall_forall. intros b Hb. apply Bifid_decrypt_block_total; [done| |].
    + apply Forall_forall. intros c Hc. rewrite Forall_forall in Htext.
      apply Htext. apply list_elem_of_In, in_concat. exists b.
      split; by apply list_elem_of_In.
    + rewrite Forall_forall in Hbs. specialize (Hbs b Hb).
      destruct b; [cbn in Hbs; lia|done].
Qed.

Lemma Bifid_decrypt_empty_block_witness :
  Bifid_decrypt Bifid_example_5 (py "uaieyydins")
  = Raise (ValueError "range() arg 3 must not be zero").
Proof.
  refine (proj2 (proj2 (Bifid_decrypt_empty_block Bifid_example_5 (py "uaieyydins")))
            _ _ _ _).
  - unfold Polybius_wf. repeat split;
      try (refine (bool_decide_unpack _ _); vm_compute; exact I);
      try (vm_compute; reflexivity); try (vm_compute; discriminate).
  - refine (bool_decide_unpack _ _). vm_compute. exact I.
  - reflexivity.
  - reflexivity.
Defined.

(** X16: on a text whose lowercase characters are in the square, [encrypt]
    returns a ciphertext of the same length over the square, and [decrypt]
    returns the lowercase text from it, unless the last block is empty:
    without period the text must not be empty, with a period its length
    must not be a multiple of the period. *)
Theorem Bifid_roundtrip (B : Bifid) (text : str) :
  Polybius_wf (bf_polybius B) →
  Forall (λ c, lower c ∈ contents (bf_polybius B)) text →
  ∃ cipher,
    Bifid_encrypt B text = Ok cipher
    ∧ length cipher = length text
    ∧ Forall (λ c, c ∈ contents (bf_polybius B)) cipher
    ∧ ((if decide (bf_period B > 0) then len text mod bf_period B ≠ 0
        else text ≠ []) →
       Bifid_decrypt B cipher = Ok (map lower text)).
Proof.
  intros wf Htext. unfold Bifid_encrypt, Bifid_decrypt.
  destruct (decide (bf_period B > 0)) as [Hp|Hp];
    [|by apply Bifid_block_roundtrip].
  destruct (Bifid_blocks_split B text Hp) as (bs & last & -> & Hbs & Hl & Hm).
  rewrite (Bifid_blocks_concat B bs last) by done.
  apply Forall_app in Htext as [Hcat Hlast].
  set (R := λ (b cb : str),
              length cb = length b
              ∧ Forall (λ c, c ∈ contents (bf_polybius B)) cb
              ∧ (b ≠ [] → Bifid_decrypt_block B cb = Ok (map lower b))).
  destruct (mapM_result_Forall2 (Bifid_encrypt_block B) R bs) as (cbs & Ecbs & Hf).
  { apply Forall_forall. intros b Hb. apply Bifid_block_roundtrip; [done|].
    apply Forall_forall. intros c Hc. rewrite Forall_forall in Hcat.
    apply Hcat. apply list_elem_of_In, in_concat. exists b.
    split; by apply list_elem_of_In. }
  destruct (Bifid_block_roundtrip B wf last Hlast) as (cl & Ecl & Hcl & Hclin & Hcld).
  rewrite mapM_result_app, Ecbs.
  change (mapM ?f [last]) with (z ← f last; q ← mapM f []; mret (z :: q)).
  rewrite Ecl. cbn [mbind result_bind mret result_ret mapM].
  rewrite concat_app. cbn [concat]. rewrite app_nil_r.
  assert (Hcbs : Forall (λ b, length b = Z.to_nat (bf_period B)) cbs).
  { clear -Hf Hbs. induction Hf as [|b cb bs cbs (Hlen & _) _ IH]; [done|].
    apply Forall_cons in Hbs as [Hb Hbs]. constructor; [lia|by apply IH]. }
  assert (Hlens : length (concat cbs) = length (concat bs)).
  { rewrite (concat_length_uniform _ _ Hcbs), (concat_length_uniform _ _ Hbs).
    by rewrite (Forall2_length _ _ _ Hf). }
  eexists. split; [done|]. split; [rewrite !length_app; lia|].
  split.
  { apply Forall_app. split; [|done]. apply Forall_concat.
    clear -Hf. induction Hf as [|b cb bs cbs (_ & Hin & _) _ IH]; by constructor. }
  intros Hmod.
  rewrite (Bifid_blocks_concat B cbs cl) by (done || lia).
  rewrite mapM_result_app.
  assert (Hdec : mapM (Bifid_decrypt_block B) cbs = Ok (map (map lower) bs)).
  { clear -Hf Hbs Hp. induction Hf as [|b cb bs cbs (_ & _ & Hd) _ IH]; [done|].
    apply Forall_cons in Hbs as [Hb Hbs].
    change (mapM ?f (cb :: cbs)) with (z ← f cb; q ← mapM f cbs; mret (z :: q)).
    rewrite Hd, (IH Hbs); [done|]. destruct b; [cbn in Hb; lia|done]. }
  rewrite Hdec.
  change (mapM ?f [cl]) with (z ← f cl; q ← mapM f []; mret (z :: q)).
  rewrite Hcld.
  - cbn [mbind result_bind mret result_ret mapM].
    rewrite concat_app. cbn [concat]. rewrite app_nil_r.
    change (mret ?x) with (Ok x). f_equal.
    change (map lower (concat bs ++ last)) with (lower <$> (concat bs ++ last)).
    rewrite fmap_app. f_equal.
    clear. induction bs as [|b bs IH]; [done|]. cbn [map concat].
    by rewrite fmap_app, IH.
  - intros ->. cbn in Hm. lia.
Qed.

Lemma Bifid_roundtrip_witness :
  ∃ cipher,
    Bifid_encrypt Bifid_example (py "FleeAtOnce") = Ok cipher
    ∧ length cipher = length (py "FleeAtOnce")
    ∧ Forall (λ c, c ∈ contents Bifid_square) cipher
    ∧ Bifid_decrypt Bifid_example cipher = Ok (map lower (py "FleeAtOnce")).
Proof.
  destruct (Bifid_roundtrip Bifid_example (py "FleeAtOnce")) as (cipher & E & Hl & Hin & Hd).
  - unfold Polybius_wf. repeat split;
      try (refine (bool_decide_unpack _ _); vm_compute; exact I);
      try (vm_compute; reflexivity); try (vm_compute; discriminate).
  - refine (bool_decide_unpack _ _). vm_compute. exact I.
  - exists cipher. repeat split; try done. apply Hd. discriminate.
Defined.

(** ** Frequency analysis: the entries of the table *)

Lemma ngram_counts_fold (text : str) (ngram : Z) (idxs : list Z)
      (freqs : gmap str Z) (total : Z) :
  let r := foldl (λ '(freqs, total) i,
                    let gram := slice text i (i + ngram) in
                    (<[gram := default 0 (freqs !! gram) + 1]> freqs, total + 1))
                 (freqs, total) idxs in
  r.2 = total + len idxs
  ∧ ∀ g, r.1 !! g
         = let k := len (filter (λ w, w = g)
                                (map (λ i, slice text i (i + ngram)) idxs)) in
           if decide (k = 0) then freqs !! g
           else Some (default 0 (freqs !! g) + k).
Proof.
  revert freqs total. induction idxs as [|i idxs IH]; intros freqs total.
  - cbn. split; [unfold len; cbn; lia|done].
  - cbn [foldl]. cbv zeta.
    destruct (IH (<[slice text i (i + ngram) := default 0 (freqs !! slice text i (i + ngram)) + 1]> freqs)
                 (total + 1)) as [IH1 IH2].
    cbv zeta in IH1, IH2. split.
    + rewrite IH1. unfold len. cbn [length]. lia.
    + intros g. rewrite IH2. cbn [map]. rewrite filter_cons.
      set (k' := len (filter (λ w, w = g) (map (λ i, slice text i (i + ngram)) idxs))).
      assert (Hk' : 0 <= k') by (unfold k', len; lia).
      destruct (decide (slice text i (i + ngram) = g)) as [->|Hne].
      * rewrite lookup_insert_eq. cbn [default from_option id].
        assert (E : len (g :: filter (λ w, w = g)
                                     (map (λ i, slice text i (i + ngram)) idxs))
                    = k' + 1) by (unfold k', len; cbn [length]; lia).
        rewrite E. rewrite (decide_False (P := k' + 1 = 0)) by lia.
        destruct (decide (k' = 0)) as [->|]; f_equal; lia.
      * rewrite lookup_insert_ne by done. fold k'. done.
Qed.

Lemma filter_eq_elem_of {A} `{EqDecision A} (g : A) (l : list A) :
  len (filter (λ w, w = g) l) = 0 ↔ g ∉ l.
Proof.
  unfold len. split.
  - intros H Hin. assert (Hf : g ∈ filter (λ w, w = g) l) by (by apply list_elem_of_filter).
    destruct (filter (λ w, w = g) l); [by apply elem_of_nil in Hf|cbn in H; lia].
  - intros Hn. destruct (filter (λ w, w = g) l) as [|x k] eqn:E; [done|].
    exfalso. apply Hn. assert (Hx : x ∈ filter (λ w, w = g) l) by (rewrite E; left).
    apply list_elem_of_filter in Hx as [-> ?]. done.
Qed.

(** X17: the table returned by [frequency_analysis] has one entry for each
    distinct window [text[i:i + ngram]], [0 <= i < len(text) - ngram + 1];
    its value is the quotient of the number of positions at which the
    window occurs by the number of all positions. The table is empty exactly
    when [ngram] exceeds the length of the text, and for a positive [ngram]
    every key has [ngram] characters. *)
Theorem frequency_analysis_table (text : str) (ngram : Z) (g : str) :
  let windows := map (λ i, slice text i (i + ngram)) (range (len text - ngram + 1)) in
  frequency_analysis text ngram !! g
  = (if decide (g ∈ windows)
     then Some (float_div (float_of_int (len (filter (λ w, w = g) windows)))
                          (float_of_int (len windows)))
     else None)
  ∧ (frequency_analysis text ngram = ∅ ↔ len text < ngram)
  ∧ (0 < ngram → g ∈ windows → len g = ngram).
Proof.
  intros windows.
  pose proof (ngram_counts_fold text ngram (range (len text - ngram + 1)) ∅ 0) as H.
  cbv zeta in H. fold (ngram_counts text ngram) in H. fold windows in H.
  destruct H as [Htot Hlk].
  assert (Hlen : len windows = len (range (len text - ngram + 1))).
  { unfold windows, len. by rewrite length_map. }
  assert (Hlookup : ∀ h, frequency_analysis text ngram !! h
            = (if decide (h ∈ windows)
               then Some (float_div (float_of_int (len (filter (λ w, w = h) windows)))
                                    (float_of_int (len windows)))
               else None)).
  { intros h. unfold frequency_analysis, frequency_analysis_with.
    destruct (ngram_counts text ngram) as [freqs total]. cbn [fst snd] in *.
    rewrite lookup_fmap, Hlk, lookup_empty. cbn [default from_option id].
    rewrite Htot, Z.add_0_l, <- Hlen.
    destruct (decide (h ∈ windows)) as [Hin|Hout].
    - rewrite decide_False by (by rewrite filter_eq_elem_of; intros ?).
      cbn. by rewrite Z.add_0_l.
    - rewrite decide_True by (by apply filter_eq_elem_of). done. }
  split; [apply Hlookup|]. split.
  - split.
    + intros Hempty.
      destruct (decide (len text < ngram)) as [|Hge]; [done|]. exfalso.
      assert (Hin : slice text 0 (0 + ngram) ∈ windows).
      { unfold windows. apply list_elem_of_fmap. exists 0. split; [done|].
        unfold range. apply list_elem_of_fmap. exists 0%nat. split; [done|].
        apply elem_of_seq. lia. }
      pose proof (Hlookup (slice text 0 (0 + ngram))) as Hl.
      rewrite Hempty, lookup_empty, decide_True in Hl by done. done.
    + intros Hlt. apply map_eq. intros h. rewrite Hlookup, lookup_empty.
      rewrite decide_False; [done|]. unfold windows, range.
      replace (Z.to_nat (len text - ngram + 1)) with 0%nat by lia.
      apply not_elem_of_nil.
  - intros Hpos Hin. unfold windows in Hin.
    apply list_elem_of_fmap in Hin as (i & -> & Hi).
    unfold range in Hi. apply list_elem_of_fmap in Hi as (j & -> & Hj).
    apply elem_of_seq in Hj.
    rewrite slice_nonneg by (unfold len in *; lia).
    unfold len in *. rewrite length_take, length_drop. lia.
Qed.

Lemma frequency_analysis_table_witness :
  py "ss" ∈ map (λ i, slice (py "mississipi") i (i + 2))
                (range (len (py "mississipi") - 2 + 1))
  ∧ len (py "ss") = 2.
Proof.
  assert (H : py "ss" ∈ map (λ i, slice (py "mississipi") i (i + 2))
                            (range (len (py "mississipi") - 2 + 1))).
  { refine (bool_decide_unpack _ _). vm_compute. exact I. }
  split; [exact H|].
  refine (proj2 (proj2 (frequency_analysis_table (py "mississipi") 2 (py "ss"))) _ H).
  lia.
Defined.

(** ** Kama Sutra: keys of even and of odd length *)

Lemma substitute_lowercase (m : gmap ascii ascii) (k v : ascii) :
  islower k = true → islower v = true → m !! k = Some v → substitute m k = v.
Proof.
  intros Hk Hv Hm.
  destruct (islower_facts k Hk) as (Hk1 & Hk2 & _).
  destruct (islower_facts v Hv) as (Hv1 & _).
  unfold substitute. rewrite Hk1, Hm, Hk2. done.
Qed.

(** X18: for a key without repeated characters, all lowercase letters: if
    the key has even length, Kama Sutra deciphers what it enciphers on every
    text; if it has odd length, enciphering and deciphering a key character
    gives the key character before it (cyclically), which is a different
    one as soon as the key has more than one character. *)
Theorem KamaSutra_key_parity (key text : str) :
  NoDup key → Forall (λ c, islower c = true) key →
  (Z.even (len key) = true →
   mono_decrypt (KamaSutra key) (mono_encrypt (KamaSutra key) text) = text)
  ∧ (Z.odd (len key) = true →
     ∀ (i : nat) (k : ascii), key !! i = Some k →
       ∃ k', key !! Z.to_nat ((Z.of_nat i - 1) mod len key) = Some k'
             ∧ mono_decrypt (KamaSutra key) (mono_encrypt (KamaSutra key) [k]) = [k']
             ∧ (1 < len key → k' ≠ k)).
Proof.
  intros Hnd Hlow. rewrite Forall_forall in Hlow. split.
  - intros Heven. unfold mono_decrypt, mono_encrypt. rewrite map_map.
    rewrite <- (map_id text) at 2. apply map_ext. intros c.
    cbn [KamaSutra encrypt_mapping decrypt_mapping].
    apply (substitute_inverse_tables key); [done| | |].
    + intros k Hk. by apply KamaSutra_mapping_swap.
    + intros k Hk. by apply KamaSutra_lookup_None.
    + intros k Hk. by apply KamaSutra_lookup_None.
  - intros Hodd i k Hi.
    assert (Hlt : (i < length key)%nat) by (eapply lookup_lt_Some; eauto).
    set (n := len key) in *. assert (Hn : n = Z.of_nat (length key)) by done.
    assert (Hhalf : n = 2 * (n / 2) + 1).
    { apply Zodd_bool_iff, Zodd_div2 in Hodd. rewrite Z.div2_div in Hodd. lia. }
    assert (Hpos : 0 < n) by lia.
    pose proof (Z.mod_pos_bound (Z.of_nat i + n / 2) n Hpos) as Hb1.
    pose proof (Z.mod_pos_bound (Z.of_nat i - 1) n Hpos) as Hb2.
    set (i1 := Z.to_nat ((Z.of_nat i + n / 2) mod n)) in *.
    set (i2 := Z.to_nat ((Z.of_nat i - 1) mod n)) in *.
    destruct (key !! i1) as [v|] eqn:Hv; [|apply lookup_ge_None in Hv; lia].
    destruct (key !! i2) as [k'|] eqn:Hk'; [|apply lookup_ge_None in Hk'; lia].
    exists k'. split; [done|].
    assert (Hin : ∀ j x, key !! j = Some x → islower x = true).
    { intros j x Hx. apply Hlow, list_elem_of_lookup. eauto. }
    assert (E1 : KamaSutra_mapping key !! k = Some v).
    { rewrite (KamaSutra_lookup key i) by done. done. }
    assert (E2 : KamaSutra_mapping key !! v = Some k').
    { rewrite (KamaSutra_lookup key i1) by done. fold n. rewrite <- Hk'.
      f_equal. unfold i1, i2. rewrite Z2Nat.id by lia.
      rewrite Zplus_mod_idemp_l. f_equal.
      replace (Z.of_nat i + n / 2 + n / 2) with (Z.of_nat i - 1 + 1 * n) by lia.
      by rewrite Z.mod_add by lia. }
    split.
    + unfold mono_decrypt, mono_encrypt.
      cbn [KamaSutra encrypt_mapping decrypt_mapping map].
      rewrite (substitute_lowercase _ k v) by eauto.
      by rewrite (substitute_lowercase _ v k') by eauto.
    + intros Hn1 ->.
      assert (Heq : i2 = i) by (eapply NoDup_lookup; eauto).
      unfold i2 in Heq.
      destruct (decide (i = 0%nat)) as [->|Hi0].
      * change (Z.of_nat 0 - 1) with (-1) in Heq.
        assert (E : (-1) mod n = n - 1).
        { symmetry. apply (Z.mod_unique_pos _ _ (-1)); lia. }
        rewrite E in Heq. lia.
      * rewrite Z.mod_small in Heq by lia. lia.
Qed.

Lemma KamaSutra_key_parity_witness :
  (mono_decrypt (KamaSutra (py "abcdef"))
                (mono_encrypt (KamaSutra (py "abcdef")) (py "A bad cafe!"))
   = py "A bad cafe!")
  ∧ ∃ k', mono_decrypt (KamaSutra (py "abc")) (mono_encrypt (KamaSutra (py "abc")) ["a"%char])
          = [k'] ∧ k' ≠ "a"%char.
Proof.
  split.
  - refine (proj1 (KamaSutra_key_parity (py "abcdef") (py "A bad cafe!") _ _) _).
    + refine (bool_decide_unpack _ _). vm_compute. exact I.
    + refine (bool_decide_unpack _ _). vm_compute. exact I.
    + reflexivity.
  - destruct (proj2 (KamaSutra_key_parity (py "abc") [] ltac:(refine (bool_decide_unpack _ _); vm_compute; exact I)
                       ltac:(refine (bool_decide_unpack _ _); vm_compute; exact I))
                eq_refl 0%nat "a"%char eq_refl) as (k' & _ & E & Hne).
    exists k'. split; [exact E|]. apply Hne. reflexivity.
Defined.

(** ** Playfair: the key never makes the constructor fail *)

Lemma Playfair_square_Ok (alphabet key : str) :
  NoDup alphabet → len alphabet = 25 → Forall (λ c, c ∈ alphabet) key →
  ∃ pb, Polybius_new key alphabet = Ok pb
        ∧ contents pb = append_new [] (key ++ alphabet) ∧ side pb = 5.
Proof.
  intros Hnd Hlen Hkey. unfold Polybius_new.
  set (cs := append_new [] (key ++ alphabet)).
  assert (Hcs : len cs = 25).
  { rewrite <- Hlen. unfold len. f_equal. apply Permutation_length.
    apply NoDup_Permutation; [apply append_new_NoDup, NoDup_nil_2|done|].
    intros c. unfold cs. rewrite append_new_elem_of, elem_of_nil, elem_of_app.
    rewrite Forall_forall in Hkey. split; [|tauto]. intros [[]|[?|?]]; auto. }
  rewrite Hcs. change (Z.sqrt 25) with 5. rewrite decide_True by done. eauto.
Qed.

(** X19: whether [Playfair(key, breaker, padding, omitted)] can be
    constructed does not depend on the key: the key is lowercased and
    reduced to the letters of the alphabet, and the square built from it
    always has 25 cells. With the default breaker, padding and omitted
    letter every key is accepted, and the square has side 5 and holds the
    key's letters first, without repetition. *)
Theorem Playfair_new_any_key (key : str) :
  (∃ P, Playfair_new key (py "x") (py "z") [("j"%char, py "i")] = Ok P
        ∧ side (pf_polybius P) = 5
        ∧ pf_alphabet P = py "abcdefghiklmnopqrstuvwxyz"
        ∧ contents (pf_polybius P)
          = append_new [] (filter (λ c, c ∈ pf_alphabet P) (map lower key)
                           ++ pf_alphabet P))
  ∧ (∀ (key' breaker padding : str) (omitted : list (ascii * str)),
       is_Ok (Playfair_new key' breaker padding omitted) →
       is_Ok (Playfair_new key breaker padding omitted)).
Proof.
  assert (Hgen : ∀ (breaker padding : str) (omitted : list (ascii * str)) b p,
    let om := dict (map (λ kv : ascii * str, (lower kv.1, map lower kv.2)) omitted) in
    let alphabet := filter (λ c, om !! c = None) ascii_lowercase in
    (bool_decide (len alphabet ≠ 25)
     || existsb (malformed_omitted alphabet) (map snd (map_to_list om))) = false →
    single_letter alphabet breaker = Some b →
    single_letter alphabet padding = Some p →
    ∃ P, Playfair_new key breaker padding omitted = Ok P
         ∧ side (pf_polybius P) = 5 ∧ pf_alphabet P = alphabet
         ∧ contents (pf_polybius P)
           = append_new [] (filter (λ c, c ∈ alphabet) (map lower key) ++ alphabet)).
  { intros breaker padding omitted b p om alphabet Hchk Hb Hp.
    unfold Playfair_new. fold om. fold alphabet. rewrite Hchk, Hb, Hp.
    apply orb_false_iff in Hchk as [Hlen _].
    apply bool_decide_eq_false in Hlen.
    assert (Hlen' : len alphabet = 25)
      by (destruct (decide (len alphabet = 25)); [done|by exfalso; apply Hlen]).
    destruct (Playfair_square_Ok alphabet (filter (λ c, c ∈ alphabet) (map lower key)))
      as (pb & -> & Hc & Hs); [apply NoDup_filter, ascii_lowercase_NoDup|done| |].
    { apply Forall_forall. intros c Hc. by apply list_elem_of_filter in Hc as [? _]. }
    cbv [mbind mret result_bind result_ret]. eexists. split; [done|].
    cbn [pf_polybius pf_alphabet]. done. }
  split.
  - destruct (Hgen (py "x") (py "z") [("j"%char, py "i")] "x"%char "z"%char)
      as (P & E & Hs & Ha & Hc).
    + vm_compute. reflexivity.
    + vm_compute. reflexivity.
    + vm_compute. reflexivity.
    + exists P. split; [done|]. split; [done|].
      assert (Hal : pf_alphabet P = py "abcdefghiklmnopqrstuvwxyz").
      { rewrite Ha. vm_compute. reflexivity. }
      split; [done|]. rewrite Hc. by rewrite Ha.
  - intros key' breaker padding omitted [P' HP']. unfold Playfair_new in HP'.
    destruct (_ || _) eqn:Hchk in HP'; [done|].
    destruct (single_letter _ breaker) as [b|] eqn:Hb in HP'; [|done].
    destruct (single_letter _ padding) as [p|] eqn:Hp in HP'; [|done].
    destruct (Hgen breaker padding omitted b p Hchk Hb Hp) as (P & E & _).
    by exists P.
Qed.

Lemma Playfair_new_any_key_witness :
  is_Ok (Playfair_new (py "playfair example") (py "q") (py "z") [("j"%char, py "i")]).
Proof.
  refine (proj2 (Playfair_new_any_key (py "playfair example"))
            (py "monarchy") (py "q") (py "z") [("j"%char, py "i")] _).
  eexists. vm_compute. reflexivity.
Defined.

#[local] Arguments TwoSquare_pair : simpl never.

(** ** TwoSquare: the unpaired last character and characters outside the
    squares *)

Lemma TwoSquare_encrypt_snoc (C : TwoSquare) (text : str) (c : ascii) :
  len text mod 2 = 0 →
  TwoSquare_encrypt C (text ++ [c])
  = (cipher ← TwoSquare_encrypt C text; mret (cipher ++ [c])).
Proof.
  intros Hev. unfold TwoSquare_encrypt.
  rewrite pairwise_snoc_even by done. rewrite last_snoc.
  assert (Hodd : len (text ++ [c]) mod 2 = 1).
  { unfold len in *. rewrite length_app. cbn [length].
    rewrite Nat2Z.inj_add, Z.add_mod, Hev by lia. reflexivity. }
  rewrite decide_True by done. rewrite decide_False by lia.
  destruct (mapM (TwoSquare_pair C) (pairwise text)) as [cs|]; [|done].
  cbn. by rewrite app_nil_r.
Qed.

Lemma TwoSquare_even_involution (C : TwoSquare) (text : str) :
  Polybius_wf (ts_keys C).1 → Polybius_wf (ts_keys C).2 →
  side (ts_keys C).1 = side (ts_keys C).2 →
  len text mod 2 = 0 →
  Forall (λ ab, ab.1 ∈ contents (ts_keys C).1 ∧ ab.2 ∈ contents (ts_keys C).2)
         (pairwise text) →
  ∃ cipher, TwoSquare_encrypt C text = Ok cipher
            ∧ length cipher = length text
            ∧ TwoSquare_encrypt C cipher = Ok text.
Proof.
  intros wf1 wf2 Hs.
  induction text as [|a|a b text IH] using pair_ind; intros Hev Hin.
  - by exists [].
  - done.
  - rewrite len_cons2_mod in Hev. cbn [pairwise] in Hin.
    apply Forall_cons in Hin as [[Ha Hb] Hin]. cbn [fst snd] in Ha, Hb.
    destruct (IH Hev Hin) as (rest & E1 & Hl & E2).
    destruct (TwoSquare_pair_involution C wf1 wf2 Hs a b Ha Hb)
      as (x & y & Exy & _ & _ & Eab).
    exists (x :: y :: rest). rewrite !TwoSquare_encrypt_cons2.
    rewrite Exy, E1, Eab, E2. cbn. split; [done|]. split; [by rewrite Hl|done].
Qed.

Lemma TwoSquare_encrypt_KeyError (C : TwoSquare) (text : str) :
  Polybius_wf (ts_keys C).1 → Polybius_wf (ts_keys C).2 →
  side (ts_keys C).1 = side (ts_keys C).2 →
  Exists (λ ab, ab.1 ∉ contents (ts_keys C).1 ∨ ab.2 ∉ contents (ts_keys C).2)
         (pairwise text) →
  TwoSquare_encrypt C text = Raise KeyError.
Proof.
  intros wf1 wf2 Hs.
  induction text as [|a|a b text IH] using pair_ind; intros Hex.
  - by apply Exists_nil in Hex.
  - by apply Exists_nil in Hex.
  - cbn [pairwise] in Hex. rewrite TwoSquare_encrypt_cons2.
    destruct (decide (a ∈ contents (ts_keys C).1)) as [Ha|Ha].
    + destruct (decide (b ∈ contents (ts_keys C).2)) as [Hb|Hb].
      * apply Exists_cons in Hex as [[?|?]|Hex]; [done..|].
        destruct (TwoSquare_pair_involution C wf1 wf2 Hs a b Ha Hb)
          as (x & y & -> & _).
        by rewrite (IH Hex).
      * destruct (Polybius_coords_char _ a wf1 Ha) as (r1 & c1 & Ea & _).
        unfold TwoSquare_pair. rewrite Ea, (Polybius_coords_absent _ b Hb). done.
    + unfold TwoSquare_pair. by rewrite (Polybius_coords_absent _ a Ha).
Qed.

(** X20: TwoSquare looks up the characters of the pairs only. For two
    constructed squares of one alphabet: if every paired character is in
    the squares, a text of any length is enciphered to a text of the same
    length and comes back when that is enciphered again, and a last
    character without a partner is copied as it is, whatever it is; if a
    paired character is not in the squares, [encrypt] raises KeyError. *)
Theorem TwoSquare_pairs_only (seed1 alphabet1 seed2 alphabet2 : str)
        (k1 k2 : Polybius) (horizontal : bool) (C : TwoSquare)
        (text : str) (c : ascii) :
  Polybius_new seed1 alphabet1 = Ok k1 →
  Polybius_new seed2 alphabet2 = Ok k2 →
  TwoSquare_new (k1, k2) horizontal = Ok C →
  len text mod 2 = 0 →
  (Forall (λ x, x ∈ contents k1) text →
   ∃ cipher, TwoSquare_encrypt C text = Ok cipher
             ∧ length cipher = length text
             ∧ TwoSquare_encrypt C (text ++ [c]) = Ok (cipher ++ [c])
             ∧ TwoSquare_decrypt C (cipher ++ [c]) = Ok (text ++ [c]))
  ∧ (Exists (λ x, x ∉ contents k1) text →
     TwoSquare_encrypt C text = Raise KeyError
     ∧ TwoSquare_encrypt C (text ++ [c]) = Raise KeyError).
Proof.
  intros H1 H2 HC Hev.
  apply Polybius_new_wf in H1 as [wf1 _]. apply Polybius_new_wf in H2 as [wf2 _].
  apply TwoSquare_new_inv in HC as (Hk & _ & Hsame). cbn [fst snd] in Hsame.
  assert (Hs : side (ts_keys C).1 = side (ts_keys C).2)
    by (rewrite Hk; by apply same_side).
  assert (wf1' : Polybius_wf (ts_keys C).1) by (by rewrite Hk).
  assert (wf2' : Polybius_wf (ts_keys C).2) by (by rewrite Hk).
  clear wf1 wf2. rename wf1' into wf1. rename wf2' into wf2. split.
  - intros Htext.
    destruct (TwoSquare_even_involution C text wf1 wf2 Hs Hev)
      as (cipher & E & Hl & E').
    { rewrite Hk. cbn [fst snd]. eapply Forall_impl; [apply pairwise_Forall, Htext|].
      intros [a b] [Ha Hb]. split; [done|]. by apply Hsame. }
    exists cipher. split; [done|]. split; [done|].
    assert (Hcev : len cipher mod 2 = 0) by (unfold len in *; by rewrite Hl).
    unfold TwoSquare_decrypt. rewrite !TwoSquare_encrypt_snoc by done.
    by rewrite E, E'.
  - intros Hex.
    assert (Hp : Exists (λ ab, ab.1 ∉ contents (ts_keys C).1
                               ∨ ab.2 ∉ contents (ts_keys C).2) (pairwise text)).
    { rewrite Hk. cbn [fst snd]. clear -Hex Hev Hsame.
      induction text as [|a|a b text IH] using pair_ind.
      - by apply Exists_nil in Hex.
      - done.
      - rewrite len_cons2_mod in Hev. cbn [pairwise].
        apply Exists_cons in Hex as [Ha|Hex]; [left; by left|].
        apply Exists_cons in Hex as [Hb|Hex].
        + left. right. cbn. by rewrite <- Hsame.
        + right. by apply IH. }
    rewrite TwoSquare_encrypt_snoc by done.
    by rewrite (TwoSquare_encrypt_KeyError C text wf1 wf2 Hs Hp).
Qed.

Lemma TwoSquare_pairs_only_witness :
  (∃ cipher, TwoSquare_encrypt TwoSquare_example (py "help") = Ok cipher
             ∧ length cipher = length (py "help")
             ∧ TwoSquare_encrypt TwoSquare_example (py "help" ++ ["!"%char])
               = Ok (cipher ++ ["!"%char])
             ∧ TwoSquare_decrypt TwoSquare_example (cipher ++ ["!"%char])
               = Ok (py "help" ++ ["!"%char]))
  ∧ TwoSquare_encrypt TwoSquare_example (py "he!p") = Raise KeyError.
Proof.
  assert (E1 : Polybius_new (py "example") (py "abcdefghiklmnopqrstuvwxyz")
               = Ok (Polybius_example "example")) by (vm_compute; reflexivity).
  assert (E2 : Polybius_new (py "keyword") (py "abcdefghiklmnopqrstuvwxyz")
               = Ok (Polybius_example "keyword")) by (vm_compute; reflexivity).
  assert (E3 : TwoSquare_new (Polybius_example "example", Polybius_example "keyword")
                             false = Ok TwoSquare_example) by (vm_compute; reflexivity).
  split.
  - refine (proj1 (TwoSquare_pairs_only _ _ _ _ _ _ _ _ (py "help") "!" E1 E2 E3 _) _).
    + reflexivity.
    + refine (bool_decide_unpack _ _). vm_compute. exact I.
  - refine (proj1 (proj2 (TwoSquare_pairs_only _ _ _ _ _ _ _ _ (py "he!p") "!"
                            E1 E2 E3 _) _)).
    + reflexivity.
    + refine (bool_decide_unpack _ _). vm_compute. exact I.
Defined.

(** ** Atbash over other alphabets *)

Lemma Atbash_mirror (alphabet : str) (i : nat) (k : ascii) :
  NoDup (map lower alphabet) →
  map lower alphabet !! i = Some k →
  ∃ v, map lower alphabet !! (length alphabet - S i)%nat = Some v
       ∧ encrypt_mapping (Atbash alphabet) !! k = Some v
       ∧ encrypt_mapping (Atbash alphabet) !! v = Some k.
Proof.
  intros Hnd Hi.
  assert (Hlen : length (map lower alphabet) = length alphabet) by apply length_map.
  assert (Hlt : (i < length alphabet)%nat)
    by (rewrite <- Hlen; eapply lookup_lt_Some; eauto).
  destruct (map lower alphabet !! (length alphabet - S i)%nat) as [v|] eqn:Hv;
    [|apply lookup_ge_None in Hv; lia].
  exists v. split; [done|]. split.
  - by rewrite (Atbash_lookup _ i).
  - rewrite (Atbash_lookup _ (length alphabet - S i)%nat) by done.
    rewrite <- Hi. f_equal. lia.
Qed.

Lemma Atbash_absent (alphabet : str) (k : ascii) :
  k ∉ map lower alphabet → encrypt_mapping (Atbash alphabet) !! k = None.
Proof.
  intros Hk. cbn [Atbash encrypt_mapping].
  apply dict_zip_absent; [by rewrite length_reverse|done].
Qed.

(** X21: for an alphabet without repeated characters (after lowercasing)
    that consists of letters, Atbash deciphers what it enciphers on every
    text, uppercase letters and other characters included. When the
    alphabet pairs a letter with a character that has no case, the case of
    the letter is lost: the uppercase letter comes back in lowercase. *)
Theorem Atbash_letters_alphabet (alphabet text : str) :
  NoDup (map lower alphabet) →
  (Forall (λ c, islower (lower c) = true) alphabet →
   mono_decrypt (Atbash alphabet) (mono_encrypt (Atbash alphabet) text) = text)
  ∧ (∀ (i : nat) (k v : ascii),
       map lower alphabet !! i = Some k →
       map lower alphabet !! (length alphabet - S i)%nat = Some v →
       islower k = true → islower v = false →
       mono_decrypt (Atbash alphabet) (mono_encrypt (Atbash alphabet) [upper k])
       = [k]
       ∧ upper k ≠ k).
Proof.
  intros Hnd. split.
  - intros Hlow. unfold mono_decrypt, mono_encrypt. rewrite map_map.
    rewrite <- (map_id text) at 2. apply map_ext. intros c.
    cbn [Atbash decrypt_mapping]. fold (encrypt_mapping (Atbash alphabet)).
    change (dict (zip (map lower alphabet) (reverse (map lower alphabet))))
      with (encrypt_mapping (Atbash alphabet)).
    apply (substitute_inverse_tables (map lower alphabet)).
    + intros k Hk. apply list_elem_of_In, in_map_iff in Hk as (y & <- & Hy).
      rewrite Forall_forall in Hlow. apply Hlow. by apply list_elem_of_In.
    + intros k [i Hi]%list_elem_of_lookup.
      destruct (Atbash_mirror alphabet i k Hnd Hi) as (v & Hv & E1 & E2).
      exists v. split; [apply list_elem_of_lookup; eauto|done].
    + apply Atbash_absent.
    + apply Atbash_absent.
  - intros i k v Hi Hv Hk Hvl.
    destruct (Atbash_mirror alphabet i k Hnd Hi) as (v' & Hv' & E1 & E2).
    rewrite Hv in Hv'. injection Hv' as <-.
    destruct (islower_facts k Hk) as (Hk1 & Hk2 & Hk3 & Hk4).
    assert (Hvlow : lower v = v ∧ isupper v = false).
    { assert (Hin : v ∈ map lower alphabet) by (apply list_elem_of_lookup; eauto).
      apply list_elem_of_In, in_map_iff in Hin as (y & <- & _). apply lower_facts. }
    destruct Hvlow as [Hv1 Hv2].
    assert (Hvu : upper v = v) by (unfold upper; by rewrite Hvl).
    split.
    + unfold mono_decrypt, mono_encrypt. cbn [map Atbash decrypt_mapping].
      change (dict (zip (map lower alphabet) (reverse (map lower alphabet))))
        with (encrypt_mapping (Atbash alphabet)).
      unfold substitute at 2. rewrite Hk3, E1, Hk4. cbn [default from_option id].
      rewrite Hvu. unfold substitute. rewrite Hv1, E2, Hv2.
      cbn [default from_option id]. by rewrite Hk1.
    + intros Heq. rewrite Heq in Hk4. congruence.
Qed.

Lemma Atbash_letters_alphabet_witness :
  mono_decrypt (Atbash (py "QWERTY")) (mono_encrypt (Atbash (py "QWERTY")) (py "Try, we!"))
  = py "Try, we!"
  ∧ mono_decrypt (Atbash (py "a1")) (mono_encrypt (Atbash (py "a1")) (py "A")) = py "a".
Proof.
  split.
  - refine (proj1 (Atbash_letters_alphabet (py "QWERTY") (py "Try, we!") _) _).
    + refine (bool_decide_unpack _ _). vm_compute. exact I.
    + refine (bool_decide_unpack _ _). vm_compute. exact I.
  - refine (proj1 (proj2 (Atbash_letters_alphabet (py "a1") [] _)
                     0%nat "a"%char "1"%char _ _ _ _)).
    + refine (bool_decide_unpack _ _). vm_compute. exact I.
    + reflexivity.
    + reflexivity.
    + reflexivity.
    + reflexivity.
Defined.

(** ** Affine, Caesar and Atbash over the default alphabet *)

Lemma Affine_shift_mod (a b : Z) :
  Affine (a, b) ascii_lowercase = Affine (a, b mod 26) ascii_lowercase.
Proof.
  unfold Affine. change (len ascii_lowercase) with 26.
  cbv [mbind result_bind].
  destruct (mmi a 26) as [x|]; [|reflexivity].
  assert (E1 : mapM (λ c, i ← index ascii_lowercase c;
                          v ← getitem ascii_lowercase ((x * (i - b)) mod 26);
                          mret (c, v)) ascii_lowercase
             = mapM (λ c, i ← index ascii_lowercase c;
                          v ← getitem ascii_lowercase ((x * (i - b mod 26)) mod 26);
                          mret (c, v)) ascii_lowercase).
  { apply mapM_result_ext, Forall_forall. intros c _.
    cbv [mbind result_bind].
    destruct (index ascii_lowercase c) as [i|]; [|reflexivity].
    rewrite <- (Z.mul_mod_idemp_r x (i - b mod 26)) by lia.
    rewrite Zminus_mod_idemp_r. rewrite Z.mul_mod_idemp_r by lia. reflexivity. }
  assert (E2 : mapM (λ c, i ← index ascii_lowercase c;
                          v ← getitem ascii_lowercase ((a * i + b) mod 26);
                          mret (c, v)) ascii_lowercase
             = mapM (λ c, i ← index ascii_lowercase c;
                          v ← getitem ascii_lowercase ((a * i + b mod 26) mod 26);
                          mret (c, v)) ascii_lowercase).
  { apply mapM_result_ext, Forall_forall. intros c _.
    cbv [mbind result_bind].
    destruct (index ascii_lowercase c) as [i|]; [|reflexivity]. rewrite Zplus_mod_idemp_r. reflexivity. }
  cbv [mbind result_bind] in E1, E2. rewrite E1, E2. reflexivity.
Qed.

(** X22: over the default alphabet, the Affine cipher with the key (1, b)
    is the Caesar cipher with the key b, and the Affine cipher with the key
    (25, 25) is the Atbash cipher: the constructors build the same
    encryption and decryption tables. *)
Theorem Affine_Caesar_Atbash (b : Z) :
  Affine (1, b) ascii_lowercase = Ok (Caesar b)
  ∧ Affine (25, 25) ascii_lowercase = Ok (Atbash ascii_lowercase).
Proof.
  split.
  - rewrite Affine_shift_mod, (Caesar_mod b).
    assert (H : forallb (λ k, match Affine (1, k) ascii_lowercase with
                              | Ok C =>
                                  bool_decide (encrypt_mapping C
                                               = encrypt_mapping (Caesar k))
                                  && bool_decide (decrypt_mapping C
                                                  = decrypt_mapping (Caesar k))
                              | Raise _ => false
                              end) caesar_keys = true)
      by (vm_compute; reflexivity).
    rewrite forallb_forall in H.
    specialize (H (b mod 26) ltac:(apply list_elem_of_In, caesar_keys_complete)).
    cbv beta in H.
    destruct (Affine (1, b mod 26) ascii_lowercase) as [[enc dec]|]; [|discriminate H].
    apply andb_prop in H as [H1 H2].
    apply bool_decide_eq_true in H1, H2. cbn [encrypt_mapping decrypt_mapping] in H1, H2.
    rewrite H1, H2. destruct (Caesar (b mod 26)). reflexivity.
  - vm_compute. reflexivity.
Qed.
